(** * ctrm: compile-time register machines

    A shallow embedding of [ctrm.hpp]: the instruction record, the executor
    [program::exec], the recursive-descent [parser], the capacity scan
    [impl::getMaxArgs] and [generate], followed by the properties of the
    specification and further properties of the code.

    Conventions of the embedding.
    - [std::size_t] values (register numbers, jump targets, parsed
      integers) are integers in [Z]; arithmetic on them wraps modulo
      [2^64], written out with [wrap].
    - Register contents have the unsigned type [IntType] chosen by the caller
      of [exec]; its width in bits is the parameter [w] and its arithmetic
      wraps modulo [2^w].
    - [std::array] and [std::string_view] are lists.  [operator[]] has the
      precondition that the index is in range; the functions here are
      [consteval], so a violated precondition stops the evaluation.  It is
      the failure [OutOfRange].
    - [error(...)] is not a constant expression: calling it stops the
      evaluation as well.  It is the failure [Error msg]; the messages are
      those of the source, without the quotation marks that some of them
      hold.
    - Positions in the input ([current], [end]) and the slot index [i] are
      [size_t] too; they stay within the size of the input plus four and
      the capacity, so their arithmetic is written without [wrap].
    - A loop that the source leaves without bound ([while (!halt)] in
      [exec]) takes a number of passes [fuel] and returns [None] when they
      are used up; the loops of the parser move forward in the input, so the
      number of characters left bounds their passes. *)

From Stdlib Require Import ZArith Lia Ascii String.
From stdpp Require Import base numbers list strings.

Local Open Scope Z_scope.

(** ** Outcomes of a constant evaluation *)

Inductive failure : Type :=
  | Error (msg : string)
  | OutOfRange
  | ConstraintsNotSatisfied.

Inductive outcome (A : Type) : Type :=
  | Ok (a : A)
  | Fail (f : failure).
Arguments Ok {A} a.
Arguments Fail {A} f.

Definition bind {A B} (m : outcome A) (k : A -> outcome B) : outcome B :=
  match m with
  | Ok a => k a
  | Fail f => Fail f
  end.

Notation "'let*' x ':=' m 'in' k" := (bind m (fun x => k))
  (at level 10, x pattern, m at level 100, k at level 200).

(** [a[k]] for an array or a string view [a] and a [size_t] index [k]. *)
Definition at_ {A} (a : list A) (k : Z) : outcome A :=
  if decide (0 <= k < Z.of_nat (length a)) then
    match a !! Z.to_nat k with
    | Some x => Ok x
    | None => Fail OutOfRange
    end
  else Fail OutOfRange.

(** [a[k] = x] *)
Definition set_at {A} (a : list A) (k : Z) (x : A) : list A :=
  <[Z.to_nat k := x]> a.

Definition wrap (bits : Z) (v : Z) : Z := v mod 2 ^ bits.

Definition size_bits : Z := 64.
(** [std::numeric_limits<std::size_t>::max()] *)
Definition size_max : Z := 2 ^ size_bits - 1.

(** ** Instructions *)

Module impl.

Inductive instrType : Type := HALT | INCR | DECR.

Record instruction : Type := Instruction {
  type : instrType;
  currentRegister : Z;
  location1 : Z;
  location2 : Z
}.

(** [instruction(reg, loc1, loc2)] *)
Definition decrement (reg loc1 loc2 : Z) : instruction :=
  {| type := DECR; currentRegister := reg;
     location1 := loc1; location2 := loc2 |}.

(** [instruction(reg, loc1)] *)
Definition increment (reg loc1 : Z) : instruction :=
  {| type := INCR; currentRegister := reg;
     location1 := loc1; location2 := size_max |}.

(** [instruction()] *)
Definition halt_instr : instruction :=
  {| type := HALT; currentRegister := 0;
     location1 := size_max; location2 := size_max |}.

End impl.
Import impl.

#[global] Instance instrType_eq_dec : EqDecision instrType.
Proof. solve_decision. Defined.
#[global] Instance instruction_eq_dec : EqDecision instruction.
Proof. solve_decision. Defined.

(** ** Programs and the executor *)

(** [program<maxRegisters, instrCount>]: the table has [instrCount]
    entries. *)
Record program : Type := Program {
  maxRegisters : nat;
  instructions : list instruction
}.

Definition instrCount (p : program) : Z := Z.of_nat (length (instructions p)).

(** The variables of [exec]; [self] is the object the member function is
    called on. *)
Record config : Type := Config {
  self : program;
  values : list Z;
  halt : bool;
  loc : Z
}.

Section Exec.
(** Width of [IntType]. *)
Variable w : Z.

(** One pass through the body of [while (!halt)]. *)
Definition exec_body (c : config) : outcome config :=
  let* current := at_ (instructions (self c)) (loc c) in
  let* c1 :=
    match type current with
    | HALT => Ok (Config (self c) (values c) true (loc c))
    | INCR =>
        let* v := at_ (values c) (currentRegister current) in
        Ok (Config (self c)
              (set_at (values c) (currentRegister current) (wrap w (v + 1)))
              (halt c) (location1 current))
    | DECR =>
        let* v := at_ (values c) (currentRegister current) in
        if 0 <? v then
          Ok (Config (self c)
                (set_at (values c) (currentRegister current) (wrap w (v - 1)))
                (halt c) (location1 current))
        else
          Ok (Config (self c) (values c) (halt c) (location2 current))
    end in
  if instrCount (self c1) <? loc c1
  then Ok (Config (self c1) (values c1) true (loc c1))
  else Ok c1.

(** The loop; [None] when [fuel] passes were not enough. *)
Fixpoint exec_loop (fuel : nat) (c : config) : option (outcome Z) :=
  if halt c then Some (at_ (values c) 0)
  else
    match fuel with
    | O => None
    | S fuel' =>
        match exec_body c with
        | Ok c' => exec_loop fuel' c'
        | Fail f => Some (Fail f)
        end
    end.

(** [values{ static_cast<IntType>(args)... }]: the remaining registers are
    zero. *)
Definition init_values (n : nat) (args : list Z) : list Z :=
  map (wrap w) args ++ replicate (n - length args)%nat 0.

Definition exec (fuel : nat) (p : program) (args : list Z)
  : option (outcome Z) :=
  if decide (length args <= maxRegisters p)%nat then
    exec_loop fuel (Config p (init_values (maxRegisters p) args) false 0)
  else Some (Fail ConstraintsNotSatisfied).

End Exec.

(** ** The parser *)

Definition parser (A : Type) : Type := Z -> outcome (A * Z).

Definition tab : ascii := "009"%char.
Definition newline : ascii := "010"%char.
Definition nul : ascii := "000"%char.
Definition space : ascii := " "%char.
Definition digits : list ascii :=
  ["0"; "1"; "2"; "3"; "4"; "5"; "6"; "7"; "8"; "9"]%char.
Definition code (c : ascii) : Z := Z.of_nat (nat_of_ascii c).

Definition msg_no_number : string := "Error: no number specified".
Definition msg_eof : string := "Error: encountered unexpected end of file".
Definition msg_line_number : string :=
  "Syntax Error: expected line number but got something else".
Definition msg_terminator : string :=
  "Syntax Error: Missing statement terminator".
Definition msg_incorrect_line : string :=
  "Program Error: line number specified in program is incorrect".
Definition msg_colon : string :=
  "Syntax Error: expected ':' but got something else instead".
Definition msg_plus_minus : string :=
  "Syntax Error: expected either '+' or '-' but got neither".
Definition msg_arrow : string :=
  "Syntax Error: expected -> but got something else instead".
Definition msg_comma : string :=
  "Syntax Error: expected ',' but got something else instead".
Definition msg_unexpected : string :=
  "Error: encountered unexpected characters".

Section Parser.
(** [input]; [end] is its size. *)
Variable input : list ascii.

Definition end_ : Z := Z.of_nat (length input).

Definition eof (current : Z) : bool := end_ <=? current.

(** [((input[current] == cs) || ...)] *)
Definition isChar (current : Z) (cs : list ascii) : outcome bool :=
  let* c := at_ input current in
  Ok (bool_decide (c ∈ cs)).

Definition matchChar (cs : list ascii) : parser bool :=
  fun current =>
    let* b := isChar current cs in
    if b then Ok (true, current + 1) else Ok (false, current).

(** The [for] loop of [matchStr], from index [i] on; [str] is what is left
    of the literal. *)
Fixpoint matchStr_loop (current i : Z) (str : list ascii) (success : bool)
  : outcome bool :=
  match str with
  | [] => Ok success
  | s :: str' =>
      if current + i =? end_ then matchStr_loop current (i + 1) str' false
      else
        let* c := at_ input (current + i) in
        matchStr_loop current (i + 1) str'
          (if decide (c = s) then success else false)
  end.

Definition matchStr (str : list ascii) : parser bool :=
  fun current =>
    let* success := matchStr_loop current 0 str true in
    if success then Ok (true, current + Z.of_nat (length str))
    else Ok (false, current).

(** The loop of [parseInt].  Every pass but the last moves [current]
    forward, so [fuel] passes are enough when [fuel] exceeds the number of
    characters left. *)
Fixpoint parseInt_loop (fuel : nat) (result : Z) (noIntParsed : bool)
  : parser Z :=
  fun current =>
    if eof current then
      if noIntParsed then Fail (Error msg_no_number) else Ok (result, current)
    else
      let* d := isChar current digits in
      if d then
        let* c := at_ input current in
        match fuel with
        | O => Ok (result, current)
        | S fuel' =>
            parseInt_loop fuel'
              (wrap size_bits (wrap size_bits (result * 10) + (code c - code "0")))
              false (current + 1)
        end
      else
        if noIntParsed then Fail (Error msg_no_number) else Ok (result, current).

Definition fuel_at (current : Z) : nat := Z.to_nat (end_ - current).

Definition parseInt : parser Z :=
  fun current => parseInt_loop (fuel_at current) 0 true current.

Definition parseLineNumber : parser Z :=
  fun current =>
    if eof current then Fail (Error msg_eof)
    else
      let* (m, current) := matchChar ["L"%char] current in
      if negb m then Fail (Error msg_line_number)
      else parseInt current.

(** [while (!eof(current) && matchChar(current, cs...));] *)
Fixpoint skip_loop (fuel : nat) (cs : list ascii) : parser unit :=
  fun current =>
    if eof current then Ok (tt, current)
    else
      let* (m, current) := matchChar cs current in
      if m then
        match fuel with
        | O => Ok (tt, current)
        | S fuel' => skip_loop fuel' cs current
        end
      else Ok (tt, current).

Definition skipLinesAndSpaces : parser unit :=
  fun current => skip_loop (fuel_at current) [newline; tab; space] current.

Definition skipSpaces : parser unit :=
  fun current => skip_loop (fuel_at current) [tab; space] current.

Definition parseEOL : parser unit :=
  fun current =>
    let* (_, current) := skipSpaces current in
    if eof current then Ok (tt, current)
    else
      let* (m, current) := matchChar [";"%char; newline; nul] current in
      if negb m then Fail (Error msg_terminator) else Ok (tt, current).

(** The optional [L<n>:] prefix of slot [i]. *)
Definition parse_prefix (i : Z) : parser unit :=
  fun current =>
    let* l := isChar current ["L"%char] in
    if l then
      let* (n, current) := parseLineNumber current in
      if negb (n =? i) then Fail (Error msg_incorrect_line)
      else
        let* (_, current) := skipSpaces current in
        if eof current then Fail (Error msg_colon)
        else
          let* (m, current) := matchChar [":"%char] current in
          if negb m then Fail (Error msg_colon)
          else skipSpaces current
    else Ok (tt, current).

(** The statement that starts with ['R'], after the ['R']. *)
Definition parse_register_statement : parser instruction :=
  fun current =>
    let* (registerLocation, current) := parseInt current in
    let* (_, current) := skipSpaces current in
    let* c := at_ input current in
    let* incrementInstruction :=
      if decide (c = "+"%char) then Ok true
      else if decide (c = "-"%char) then Ok false
      else Fail (Error msg_plus_minus) in
    let current := current + 1 in
    let* (_, current) := skipSpaces current in
    let* (m, current) := matchStr ["-"; ">"]%char current in
    if negb m then Fail (Error msg_arrow)
    else
      let* (_, current) := skipSpaces current in
      let* (loc1, current) := parseLineNumber current in
      if incrementInstruction : bool then
        let* (_, current) := parseEOL current in
        Ok (increment registerLocation loc1, current)
      else
        let* (_, current) := skipSpaces current in
        let* (m, current) := matchChar [","%char] current in
        if negb m then Fail (Error msg_comma)
        else
          let* (_, current) := skipSpaces current in
          let* (loc2, current) := parseLineNumber current in
          let* (_, current) := parseEOL current in
          Ok (decrement registerLocation loc1 loc2, current).

(** The statement of a slot: the [if] / [else if] chain of the loop
    body. *)
Definition parse_statement : parser instruction :=
  fun current =>
    let* (r, current) :=
      if eof current then Ok (false, current)
      else matchChar ["R"%char] current in
    if r : bool then parse_register_statement current
    else
      let* (h, current) := matchStr ["H"; "A"; "L"; "T"]%char current in
      if h : bool then
        let* (_, current) := parseEOL current in
        Ok (halt_instr, current)
      else
        let* (t, current) := matchChar [";"%char; newline; nul] current in
        if t : bool then Ok (halt_instr, current)
        else Fail (Error msg_unexpected).

(** The body of the [for] loop of [parse], for slot [i]. *)
Definition parse_body (i : Z) (instr : list instruction)
  : parser (list instruction) :=
  fun current =>
    let* (_, current) := parse_prefix i current in
    let* (ins, current) := parse_statement current in
    let instr := set_at instr i ins in
    let* (_, current) := skipLinesAndSpaces current in
    Ok (instr, current).

(** [for (i; i < instrCount && !eof(current); ++i)], with [todo] the
    number of slots from [i] to [instrCount].  The value returned holds the final
    value of [i] as well. *)
Fixpoint parse_loop (todo : nat) (i : Z) (instr : list instruction)
  : parser (Z * list instruction) :=
  fun current =>
    match todo with
    | O => Ok ((i, instr), current)
    | S todo' =>
        if eof current then Ok ((i, instr), current)
        else
          let* (instr, current) := parse_body i instr current in
          parse_loop todo' (i + 1) instr current
    end.

(** [parse], up to the construction of the program. *)
Definition parse_slots (instrCount : nat) : outcome (Z * list instruction) :=
  let instr := replicate instrCount halt_instr in
  let* (_, current) := skipLinesAndSpaces 0 in
  let* (r, _) := parse_loop instrCount 0 instr current in
  Ok r.

(** [parser<instrCount>::parse<maxRegisters>()] *)
Definition parse (maxRegisters instrCount : nat) : outcome program :=
  let* (_, instr) := parse_slots instrCount in
  Ok (Program maxRegisters instr).

End Parser.

(** [ctrm::make<maxRegisters, instrCount>(input)] *)
Definition make (maxRegisters instrCount : nat) (input : string)
  : outcome program :=
  parse (list_ascii_of_string input) maxRegisters instrCount.

(** ** The capacity scan *)

Inductive mode : Type := SKIP | READ_LOC | READ_REG.

#[global] Instance mode_eq_dec : EqDecision mode.
Proof. solve_decision. Defined.

(** The variables of [getMaxArgs]. *)
Record scan : Type := Scan {
  readInt : mode;
  result : Z;
  maxReg : Z;
  maxLoc : Z
}.

(** [if (readInt == m) if (result > max) max = result;] *)
Definition raise (m : mode) (s : scan) (max : Z) : Z :=
  if decide (readInt s = m) then
    if max <? result s then result s else max
  else max.

(** The [switch] on one character. *)
Definition scan_char (s : scan) (c : ascii) : scan :=
  if decide (c = "L"%char) then
    Scan READ_LOC (result s) (maxReg s) (maxLoc s)
  else if decide (c = "R"%char) then
    Scan READ_REG (result s) (maxReg s) (maxLoc s)
  else if bool_decide (c ∈ digits) then
    if decide (readInt s = SKIP) then s
    else
      Scan (readInt s)
        (wrap size_bits (wrap size_bits (result s * 10) + (code c - code "0")))
        (maxReg s) (maxLoc s)
  else
    if decide (result s = 0) then s
    else Scan SKIP 0 (raise READ_REG s (maxReg s)) (raise READ_LOC s (maxLoc s)).

(** [impl::getMaxArgs<Input...>()] *)
Definition getMaxArgs (chars : list ascii) : Z * Z :=
  let s := fold_left scan_char chars (Scan SKIP 0 0 0) in
  let maxLoc := raise READ_LOC s (maxLoc s) in
  let maxReg := raise READ_REG s (maxReg s) in
  (wrap size_bits (maxReg + 1), wrap size_bits (maxLoc + 1)).

(** ** Programs with computed capacities *)

(** [std::string_view(const char* )]: the characters before the first
    NUL. *)
Fixpoint c_str (chars : list ascii) : list ascii :=
  match chars with
  | [] => []
  | c :: t => if decide (c = nul) then [] else c :: c_str t
  end.

(** [ctrm::generate<Cs...>()].  How large an array an implementation can
    build is not part of the embedding: for capacities beyond it, the
    source yields no program at all. *)
Definition generate (Cs : list ascii) : outcome program :=
  let maxArgs := getMaxArgs Cs in
  let string := Cs ++ [nul] in
  parse (c_str string) (Z.to_nat maxArgs.1) (Z.to_nat maxArgs.2).

(** The literal operator [_ctrm] *)
Definition ctrm_literal (cs : string) : outcome program :=
  generate (list_ascii_of_string cs).

(** ** The example program *)

Definition addition : program :=
  Program 3 [ decrement 1 1 2; increment 0 0; decrement 2 3 4;
              increment 0 2; halt_instr ].

Definition addition_text : string :=
  "L0: R1- -> L1, L2
L1: R0+ -> L0
L2: R2- -> L3, L4
L3: R0+ -> L2
L4: HALT".

(** ** Notions used in the statements *)

(** Every register holds a value of [IntType]. *)
Definition regs_ok (w : Z) (vs : list Z) : Prop :=
  Forall (fun v => 0 <= v < 2 ^ w) vs.

(** [runs w n c c']: [n] passes through the loop body lead from [c] to
    [c']. *)
Inductive runs (w : Z) : nat -> config -> config -> Prop :=
  | runs_O c : runs w 0 c c
  | runs_S n c c1 c2 :
      halt c = false -> exec_body w c = Ok c1 -> runs w n c1 c2 ->
      runs w (S n) c c2.

(** The test [if (loc > instrCount) halt = true;] at the end of a pass. *)
Definition overrun (p : program) (l : Z) (h : bool) : bool :=
  if instrCount p <? l then true else h.

(** The example program at line [l] with registers [a], [b] and [c]. *)
Definition at_line (a b c l : Z) : config := Config addition [a; b; c] false l.

(** [view input p s]: the position [p] is in [input] or at its end, and [s]
    is what [input] holds from [p] on. *)
Definition view (input : list ascii) (p : Z) (s : list ascii) : Prop :=
  0 <= p <= end_ input /\ drop (Z.to_nat p) input = s.

(** The longest prefix of [s] made of characters of [cs]. *)
Fixpoint run (cs : list ascii) (s : list ascii) : list ascii :=
  match s with
  | c :: s' => if bool_decide (c ∈ cs) then c :: run cs s' else []
  | [] => []
  end.

(** The value [parseInt] builds from the digits [ds], starting from
    [res]. *)
Definition accumulate (res : Z) (ds : list ascii) : Z :=
  fold_left
    (fun r c => wrap size_bits (wrap size_bits (r * 10) + (code c - code "0")))
    ds res.

Definition value (ds : list ascii) : Z := accumulate 0 ds.

(** The number that the digits [ds] write in base ten, after [r]. *)
Definition decimal_from (r : Z) (ds : list ascii) : Z :=
  fold_left (fun r c => r * 10 + (code c - code "0")) ds r.

Definition decimal (ds : list ascii) : Z := decimal_from 0 ds.

(** [reaches input n i instr current]: parsing [input] at capacity [n], the
    [for] loop of [parse] comes to its test with these values of [i],
    [instr] and [current]. *)
Inductive reaches (input : list ascii) (n : nat)
  : Z -> list instruction -> Z -> Prop :=
  | reaches_first current :
      skipLinesAndSpaces input 0 = Ok (tt, current) ->
      reaches input n 0 (replicate n halt_instr) current
  | reaches_next i instr current instr' current' :
      reaches input n i instr current ->
      i < Z.of_nat n -> eof input current = false ->
      parse_body input i instr current = Ok (instr', current') ->
      reaches input n (i + 1) instr' current'.

(** *** Source lines

    The lines that [parse] reads into a slot, with the white space written
    out. *)

Definition is_number (ds : list ascii) : Prop :=
  ds ≠ [] /\ Forall (fun c => c ∈ digits) ds.

Definition is_spaces (s : list ascii) : Prop :=
  Forall (fun c => c ∈ [tab; space]) s.

Definition is_blank (s : list ascii) : Prop :=
  Forall (fun c => c ∈ [newline; tab; space]) s.

(** [s] is empty or starts with a character that is not in [cs]. *)
Definition starts_outside (cs : list ascii) (s : list ascii) : Prop :=
  match s with
  | [] => True
  | c :: _ => c ∉ cs
  end.

Inductive statement : Type :=
  | Increment (r s1 s2 s3 l : list ascii)
      (* R r s1 + s2 -> s3 L l *)
  | Decrement (r s1 s2 s3 l1 s4 s5 l2 : list ascii)
      (* R r s1 - s2 -> s3 L l1 s4 , s5 L l2 *)
  | Halt
  | Empty.

Record line : Type := Line {
  lead : list ascii;          (* blank lines and indentation before the line *)
  label : option (list ascii * list ascii * list ascii);
                              (* L n a : b *)
  body : statement;
  trail : list ascii;         (* the spaces before the terminator *)
  terminator : option ascii   (* [None]: the input ends here *)
}.

Definition render_label (lb : option (list ascii * list ascii * list ascii))
  : list ascii :=
  match lb with
  | None => []
  | Some (n, a, b) => "L"%char :: n ++ a ++ ":"%char :: b
  end.

Definition render_statement (st : statement) : list ascii :=
  match st with
  | Increment r s1 s2 s3 l =>
      "R"%char :: r ++ s1 ++ "+"%char :: s2 ++ ["-"; ">"]%char ++ s3
        ++ "L"%char :: l
  | Decrement r s1 s2 s3 l1 s4 s5 l2 =>
      "R"%char :: r ++ s1 ++ "-"%char :: s2 ++ ["-"; ">"]%char ++ s3
        ++ "L"%char :: l1 ++ s4 ++ ","%char :: s5 ++ "L"%char :: l2
  | Halt => ["H"; "A"; "L"; "T"]%char
  | Empty => []
  end.

Definition render_end (t : option ascii) : list ascii :=
  match t with
  | Some c => [c]
  | None => []
  end.

Definition render_line (ln : line) : list ascii :=
  lead ln ++ render_label (label ln) ++ render_statement (body ln)
    ++ trail ln ++ render_end (terminator ln).

Definition render (lines : list line) : list ascii :=
  concat (map render_line lines).

(** The instruction a statement stands for. *)
Definition denote (st : statement) : instruction :=
  match st with
  | Increment r _ _ _ l => increment (value r) (value l)
  | Decrement r _ _ _ l1 _ _ l2 => decrement (value r) (value l1) (value l2)
  | Halt => halt_instr
  | Empty => halt_instr
  end.

Definition wf_statement (st : statement) : Prop :=
  match st with
  | Increment r s1 s2 s3 l =>
      is_number r /\ is_spaces s1 /\ is_spaces s2 /\ is_spaces s3 /\
      is_number l
  | Decrement r s1 s2 s3 l1 s4 s5 l2 =>
      is_number r /\ is_spaces s1 /\ is_spaces s2 /\ is_spaces s3 /\
      is_number l1 /\ is_spaces s4 /\ is_spaces s5 /\ is_number l2
  | Halt => True
  | Empty => True
  end.

(** [ln] is a line that [parse] takes for slot [i]: the label, when there
    is one, is [i]; the terminator of an empty statement follows it
    directly. *)
Definition accepted (i : Z) (ln : line) : Prop :=
  is_blank (lead ln) /\
  match label ln with
  | None => True
  | Some (n, a, b) => is_number n /\ value n = i /\ is_spaces a /\ is_spaces b
  end /\
  wf_statement (body ln) /\
  is_spaces (trail ln) /\
  match terminator ln with
  | Some c => c ∈ [";"%char; newline; nul]
  | None => True
  end /\
  (body ln = Empty -> trail ln = [] /\ terminator ln <> None).

(** An instruction line for slot [i]: it holds an instruction and ends with
    a terminator. *)
Definition wf_line (i : Z) (ln : line) : Prop :=
  accepted i ln /\ body ln <> Empty /\ terminator ln <> None.

Definition wf_lines (lines : list line) : Prop :=
  forall (i : nat) ln, lines !! i = Some ln -> wf_line (Z.of_nat i) ln.

(** [made_of_lines input n prog]: [input] is made of at most [n] lines that
    [parse] accepts, each for the slot of its index, then blanks, then,
    only when there are [n] lines, text that is not read; the number that
    a label writes is the index of its slot modulo [2^64]; a line without
    terminator ends the input; [prog] holds the instructions of the lines
    and Halt in the slots that are left. *)
Definition made_of_lines (input : list ascii) (n : nat) (prog : program)
  : Prop :=
  exists lines tail rest,
    input = render lines ++ tail ++ rest /\
    is_blank tail /\
    (length lines <= n)%nat /\
    (forall (k : nat) ln, lines !! k = Some ln ->
       accepted (Z.of_nat k) ln /\
       (forall ds a b, label ln = Some (ds, a, b) ->
          decimal ds mod 2 ^ 64 = Z.of_nat k) /\
       (terminator ln = None ->
          render (drop (S k) lines) ++ tail ++ rest = [])) /\
    instructions prog
      = map (fun ln => denote (body ln)) lines
          ++ replicate (n - length lines) halt_instr /\
    ((length lines < n)%nat -> rest = []).

(** [render lines ++ tail] is a program text: every line is one that
    [parse] accepts for its slot, only the last line may lack a terminator
    (and then ends the text), and blanks alone follow the lines. *)
Definition program_text (lines : list line) (tail : list ascii) : Prop :=
  (forall (k : nat) ln, lines !! k = Some ln ->
     accepted (Z.of_nat k) ln /\
     (terminator ln = None -> render (drop (S k) lines) ++ tail = [])) /\
  is_blank tail.

(** *** References in a text

    What the capacity scan is to compute, read off the text: the numbers
    that follow the marker [m]. *)

(** The [size_t] values of the digit sequences that follow the occurrences
    of the marker [m] in [text], as [parseInt] and the scan compute them
    ([0] for a marker that no digit follows). *)
Fixpoint references (m : ascii) (text : list ascii) : list Z :=
  match text with
  | [] => []
  | c :: t =>
      if decide (c = m) then value (run digits t) :: references m t
      else references m t
  end.

Definition max_reference (m : ascii) (text : list ascii) : Z :=
  foldr Z.max 0 (references m text).

(** The numbers that the digit sequences after the occurrences of the
    marker [m] write in base ten, whatever their size ([0] for a marker
    that no digit follows), and the greatest of them. *)
Fixpoint written (m : ascii) (text : list ascii) : list Z :=
  match text with
  | [] => []
  | c :: t =>
      if decide (c = m) then decimal (run digits t) :: written m t
      else written m t
  end.

Definition max_written (m : ascii) (text : list ascii) : Z :=
  foldr Z.max 0 (written m text).

Inductive kind : Type := Digit | Marker | Other.

Definition kind_of (c : ascii) : kind :=
  if decide (c = "L"%char) then Marker
  else if decide (c = "R"%char) then Marker
  else if bool_decide (c ∈ digits) then Digit
  else Other.

(** Every digit sequence comes right after a marker, and no marker comes
    right after a digit; [prev] is the kind of the character before
    [text]. *)
Fixpoint marked_from (prev : kind) (text : list ascii) : bool :=
  match text with
  | [] => true
  | c :: t =>
      match kind_of c, prev with
      | Digit, Other => false
      | Marker, Digit => false
      | _, _ => marked_from (kind_of c) t
      end
  end.

Definition well_marked (text : list ascii) : bool := marked_from Other text.

(** What the scan returns when the input ends in the state [s]. *)
Definition finish (s : scan) : Z * Z :=
  (raise READ_REG s (maxReg s), raise READ_LOC s (maxLoc s)).

(** The number being read in the state [s] with the mode [m], once the
    digits at the start of [text] are read too. *)
Definition pending (m : mode) (s : scan) (text : list ascii) : Z :=
  if decide (readInt s = m) then accumulate (result s) (run digits text)
  else 0.

(** The kind of the last character of a statement (of the character before
    it, for an empty statement, which comes after a label or a blank). *)
Definition ends_with (st : statement) : kind :=
  match st with
  | Increment _ _ _ _ _ | Decrement _ _ _ _ _ _ _ _ => Digit
  | Halt | Empty => Other
  end.

(** The capacities [caps = (registers, lines)] hold the instruction
    [ins]. *)
Definition fits (ins : instruction) (caps : Z * Z) : Prop :=
  match type ins with
  | HALT => True
  | INCR => currentRegister ins < caps.1 /\ location1 ins < caps.2
  | DECR =>
      currentRegister ins < caps.1 /\ location1 ins < caps.2 /\
      location2 ins < caps.2
  end.

(** *** Programs that stay in their table *)

(** The instruction [ins] names a register below [regs] and lines below
    [lines]. *)
Definition in_range (regs lines : Z) (ins : instruction) : Prop :=
  match type ins with
  | HALT => True
  | INCR =>
      0 <= currentRegister ins < regs /\ 0 <= location1 ins < lines
  | DECR =>
      0 <= currentRegister ins < regs /\ 0 <= location1 ins < lines /\
      0 <= location2 ins < lines
  end.

(** Every instruction of [p] names registers and lines that [p] has. *)
Definition closed (p : program) : Prop :=
  Forall (in_range (Z.of_nat (maxRegisters p)) (instrCount p))
    (instructions p).

(** The states of a run of [p] in which nothing is read outside the
    arrays. *)
Definition inside (p : program) (c : config) : Prop :=
  self c = p /\ length (values c) = maxRegisters p /\
  (halt c = false -> 0 <= loc c < instrCount p).

(** The label [lb] is one that [parse] takes for slot [i]. *)
Definition labelled (i : Z)
    (lb : option (list ascii * list ascii * list ascii)) : Prop :=
  match lb with
  | None => True
  | Some (n, a, b) => is_number n /\ value n = i /\ is_spaces a /\ is_spaces b
  end.

(** The end of a line: the terminator [t] is one of the source, and without
    one the input ends. *)
Definition ends_line (t : option ascii) (s : list ascii) : Prop :=
  match t with
  | Some c => c ∈ [";"%char; newline; nul]
  | None => s = []
  end.

(** ** The grammar of the specification

    The grammar of section 4.1 of the specification, rule by rule, as a
    regular expression matched by derivatives.  It is the yardstick for
    the texts that [parse] takes; [parse] itself is above. *)

Module Grammar.

Inductive re : Type :=
  | Void
  | Eps
  | Chr (c : ascii)
  | Cat (a b : re)
  | Alt (a b : re)
  | Star (a : re).

Fixpoint nullable (r : re) : bool :=
  match r with
  | Void => false
  | Eps => true
  | Chr _ => false
  | Cat a b => nullable a && nullable b
  | Alt a b => nullable a || nullable b
  | Star _ => true
  end.

(** [Cat] and [Alt] that drop what cannot match. *)
Definition cat (a b : re) : re :=
  match a, b with
  | Void, _ => Void
  | _, Void => Void
  | Eps, _ => b
  | _, _ => Cat a b
  end.

Definition alt (a b : re) : re :=
  match a, b with
  | Void, _ => b
  | _, Void => a
  | _, _ => Alt a b
  end.

Fixpoint deriv (c : ascii) (r : re) : re :=
  match r with
  | Void => Void
  | Eps => Void
  | Chr d => if decide (c = d) then Eps else Void
  | Cat a b =>
      if nullable a then alt (cat (deriv c a) b) (deriv c b)
      else cat (deriv c a) b
  | Alt a b => alt (deriv c a) (deriv c b)
  | Star a => cat (deriv c a) (Star a)
  end.

Definition matches (r : re) (s : list ascii) : bool :=
  nullable (fold_left (fun r c => deriv c r) s r).

Definition str (s : string) : re :=
  foldr (fun c r => Cat (Chr c) r) Eps (list_ascii_of_string s).

Definition any_of (cs : list ascii) : re :=
  foldr (fun c r => Alt (Chr c) r) Void cs.

Definition opt (r : re) : re := Alt Eps r.

Definition seq (rs : list re) : re := foldr Cat Eps rs.

(** [space := " " | tab] and [{ space }] *)
Definition space_ : re := any_of [space; tab].
Definition spaces : re := Star space_.

(** [integer := digit { digit }] *)
Definition integer : re := Cat (any_of digits) (Star (any_of digits)).

(** [line_prefix := { space } "L" integer { space } ":" { space }] *)
Definition line_prefix : re :=
  seq [spaces; str "L"; integer; spaces; str ":"; spaces].

(** [increment := "R" integer { space } "+" { space } "->" { space }
    "L" integer] *)
Definition increment : re :=
  seq [str "R"; integer; spaces; str "+"; spaces; str "->"; spaces;
       str "L"; integer].

(** [decrement := "R" integer { space } "-" { space } "->" { space }
    "L" integer { space } "," { space } "L" integer] *)
Definition decrement : re :=
  seq [str "R"; integer; spaces; str "-"; spaces; str "->"; spaces;
       str "L"; integer; spaces; str ","; spaces; str "L"; integer].

(** [statement := increment | decrement | halt | empty] *)
Definition statement : re :=
  Alt increment (Alt decrement (Alt (str "HALT") Eps)).

(** A line up to its terminator:
    [[ line_prefix ] statement { space }]. *)
Definition line_body : re := seq [opt line_prefix; statement; spaces].

(** [program := { line }], with
    [line_end := { space } ( ";" | newline | end-of-input )]: the end of
    the input ends the last line only. *)
Definition program : re :=
  Cat (Star (Cat line_body (any_of [";"%char; newline]))) line_body.

Definition conforms (text : string) : bool :=
  matches program (list_ascii_of_string text).

End Grammar.

(** ** Examples of texts *)




(** A text whose second line is blank. *)
Definition blank_second_line : string :=
  "R0+ -> L1

R0+ -> L0".

(** A text whose first statement is empty. *)
Definition empty_first_statement : string := ";R0+ -> L1".

(** The statement that lacks the arrow. *)
Definition missing_arrow : string := "L0: R1+ L1".

(** A label that writes [2^64]. *)
Definition label_beyond_size_t : string := "L18446744073709551616: HALT".


(** A text whose second line lacks the arrow. *)
Definition malformed_second_line : string :=
  "L0: HALT
L1: R1+ L1".

(** The text of the second example program, with a space before each
    colon. *)
Definition literal_text : string :=
  "L0 : R1- -> L1, L2
L1 : R0+ -> L0
L2 : R2- -> L3, L4
L3 : R0+ -> L2
L4 : HALT".

(** [literal_text] line by line. *)
Definition literal_lines : list line :=
  [ Line [] (Some (["0"%char], [space], [space]))
      (Decrement ["1"%char] [] [space] [space] ["1"%char] [] [space]
         ["2"%char]) [] (Some newline);
    Line [] (Some (["1"%char], [space], [space]))
      (Increment ["0"%char] [] [space] [space] ["0"%char]) [] (Some newline);
    Line [] (Some (["2"%char], [space], [space]))
      (Decrement ["2"%char] [] [space] [space] ["3"%char] [] [space]
         ["4"%char]) [] (Some newline);
    Line [] (Some (["3"%char], [space], [space]))
      (Increment ["0"%char] [] [space] [space] ["2"%char]) [] (Some newline);
    Line [] (Some (["4"%char], [space], [space])) Halt [] None ].

(** * Properties *)

(** ** Arrays *)

Lemma at_Ok {A} (a : list A) k x :
  at_ a k = Ok x <-> 0 <= k /\ a !! Z.to_nat k = Some x.
Proof.
  unfold at_. case_decide as Hk.
  - destruct (a !! Z.to_nat k) eqn:E; split; intros H.
    + inversion H; subst. split; [lia | done].
    + destruct H as [_ H]. congruence.
    + discriminate.
    + destruct H as [_ H]. discriminate.
  - split; [discriminate |]. intros [H0 H]. apply lookup_lt_Some in H. lia.
Qed.

Lemma at_Fail {A} (a : list A) k f :
  at_ a k = Fail f -> f = OutOfRange /\ ~ (0 <= k < Z.of_nat (length a)).
Proof.
  unfold at_. case_decide as Hk.
  - destruct (a !! Z.to_nat k) eqn:E; [discriminate |].
    apply lookup_ge_None in E. lia.
  - intros H; inversion H. done.
Qed.

Lemma at_in_range {A} (a : list A) k :
  0 <= k < Z.of_nat (length a) -> exists x, at_ a k = Ok x.
Proof.
  intros Hk. destruct (lookup_lt_is_Some_2 a (Z.to_nat k)) as [x Hx]; [lia |].
  exists x. apply at_Ok. split; [lia | done].
Qed.

Lemma exec_loop_runs w n c c' :
  runs w n c c' -> forall fuel, exec_loop w (n + fuel) c = exec_loop w fuel c'.
Proof.
  induction 1 as [| n c c1 c2 Hh Hb _ IH]; intros fuel; [done |].
  cbn [Nat.add exec_loop]. rewrite Hh, Hb. apply IH.
Qed.

Lemma runs_app w n m c c1 c2 :
  runs w n c c1 -> runs w m c1 c2 -> runs w (n + m) c c2.
Proof.
  induction 1; intros; [done |]. cbn. econstructor; eauto.
Qed.

Lemma exec_loop_halted w fuel c :
  halt c = true -> exec_loop w fuel c = Some (at_ (values c) 0).
Proof. intros H. destruct fuel; cbn; rewrite H; done. Qed.

(** More fuel does not change what a run returns. *)
Lemma exec_loop_more w fuel c r :
  exec_loop w fuel c = Some r -> forall fuel', (fuel <= fuel')%nat ->
  exec_loop w fuel' c = Some r.
Proof.
  revert c. induction fuel as [| fuel IH]; intros c H fuel' Hle.
  - cbn in H. destruct (halt c) eqn:Hh; [| discriminate].
    rewrite exec_loop_halted; done.
  - destruct fuel' as [| fuel']; [lia |]. cbn in *.
    destruct (halt c); [done |].
    destruct (exec_body w c); [| done]. apply IH; [done | lia].
Qed.

(** ** The executor *)

Lemma exec_body_HALT w c ins :
  at_ (instructions (self c)) (loc c) = Ok ins -> type ins = HALT ->
  exec_body w c = Ok (Config (self c) (values c) true (loc c)).
Proof.
  intros Hi Ht. unfold exec_body. rewrite Hi. cbn. rewrite Ht. cbn.
  destruct (instrCount (self c) <? _); done.
Qed.

Lemma exec_body_INCR w c ins v :
  at_ (instructions (self c)) (loc c) = Ok ins -> type ins = INCR ->
  at_ (values c) (currentRegister ins) = Ok v ->
  exec_body w c =
    Ok (Config (self c)
          (set_at (values c) (currentRegister ins) (wrap w (v + 1)))
          (overrun (self c) (location1 ins) (halt c)) (location1 ins)).
Proof.
  intros Hi Ht Hv. unfold exec_body, overrun. rewrite Hi. cbn. rewrite Ht, Hv. cbn.
  destruct (instrCount (self c) <? _); done.
Qed.

Lemma exec_body_DECR_pos w c ins v :
  at_ (instructions (self c)) (loc c) = Ok ins -> type ins = DECR ->
  at_ (values c) (currentRegister ins) = Ok v -> 0 < v ->
  exec_body w c =
    Ok (Config (self c)
          (set_at (values c) (currentRegister ins) (wrap w (v - 1)))
          (overrun (self c) (location1 ins) (halt c)) (location1 ins)).
Proof.
  intros Hi Ht Hv Hp. unfold exec_body, overrun. rewrite Hi. cbn. rewrite Ht, Hv. cbn.
  apply Z.ltb_lt in Hp. rewrite Hp. cbn.
  destruct (instrCount (self c) <? _); done.
Qed.

Lemma exec_body_DECR_zero w c ins v :
  at_ (instructions (self c)) (loc c) = Ok ins -> type ins = DECR ->
  at_ (values c) (currentRegister ins) = Ok v -> v <= 0 ->
  exec_body w c =
    Ok (Config (self c) (values c)
          (overrun (self c) (location2 ins) (halt c)) (location2 ins)).
Proof.
  intros Hi Ht Hv Hp. unfold exec_body, overrun. rewrite Hi. cbn. rewrite Ht, Hv. cbn.
  apply Z.ltb_ge in Hp. rewrite Hp. cbn.
  destruct (instrCount (self c) <? _); done.
Qed.

Lemma regs_ok_at w vs k v : regs_ok w vs -> at_ vs k = Ok v -> 0 <= v < 2 ^ w.
Proof.
  intros Hok Hv. apply at_Ok in Hv as [_ Hv].
  eapply Forall_lookup_1 in Hok; eauto.
Qed.

Lemma regs_ok_set w vs k v : regs_ok w vs -> 0 <= v < 2 ^ w -> regs_ok w (set_at vs k v).
Proof. intros. apply Forall_insert; done. Qed.

Lemma at_set_at {A} (a : list A) k x y : at_ a k = Ok y -> at_ (set_at a k x) k = Ok x.
Proof.
  intros H. apply at_Ok in H as [H0 H]. apply at_Ok. split; [done |].
  apply list_lookup_insert_eq. eapply lookup_lt_Some; eauto.
Qed.

Lemma exec_body_inv w c c' :
  exec_body w c = Ok c' ->
  exists ins, at_ (instructions (self c)) (loc c) = Ok ins /\
    match type ins with
    | HALT => c' = Config (self c) (values c) true (loc c)
    | INCR => exists v, at_ (values c) (currentRegister ins) = Ok v /\
        c' = Config (self c)
          (set_at (values c) (currentRegister ins) (wrap w (v + 1)))
          (overrun (self c) (location1 ins) (halt c)) (location1 ins)
    | DECR => exists v, at_ (values c) (currentRegister ins) = Ok v /\
        c' = if 0 <? v then
          Config (self c)
            (set_at (values c) (currentRegister ins) (wrap w (v - 1)))
            (overrun (self c) (location1 ins) (halt c)) (location1 ins)
        else Config (self c) (values c)
            (overrun (self c) (location2 ins) (halt c)) (location2 ins)
    end.
Proof.
  intros H.
  destruct (at_ (instructions (self c)) (loc c)) as [ins |] eqn:Hi;
    [| unfold exec_body in H; rewrite Hi in H; done].
  exists ins. split; [done |].
  destruct (type ins) eqn:Ht.
  - erewrite exec_body_HALT in H by eauto. congruence.
  - destruct (at_ (values c) (currentRegister ins)) as [v |] eqn:Hv;
      [| unfold exec_body in H; rewrite Hi in H; cbn in H; rewrite Ht, Hv in H; done].
    exists v. split; [done |].
    erewrite exec_body_INCR in H by eauto. congruence.
  - destruct (at_ (values c) (currentRegister ins)) as [v |] eqn:Hv;
      [| unfold exec_body in H; rewrite Hi in H; cbn in H; rewrite Ht, Hv in H; done].
    exists v. split; [done |].
    destruct (0 <? v) eqn:Hp.
    + apply Z.ltb_lt in Hp. erewrite exec_body_DECR_pos in H by eauto. congruence.
    + apply Z.ltb_ge in Hp. erewrite exec_body_DECR_zero in H by eauto. congruence.
Qed.

Section Addition.
Variable w : Z.

Lemma wrap_small v : 0 <= v < 2 ^ w -> wrap w v = v.
Proof. apply Z.mod_small. Qed.

Lemma wrap_range v : 0 < 2 ^ w -> 0 <= wrap w v < 2 ^ w.
Proof. intros. apply Z.mod_pos_bound. done. Qed.

Lemma wrap_succ v k : wrap w (wrap w (v + 1) + k) = wrap w (v + (k + 1)).
Proof.
  unfold wrap. rewrite Zplus_mod_idemp_l. f_equal. lia.
Qed.

(** The loop [L0: R1- -> L1, L2 / L1: R0+ -> L0] moves register 1 into
    register 0. *)
Lemma first_loop (n : nat) a c :
  0 <= a < 2 ^ w -> Z.of_nat n < 2 ^ w ->
  runs w (2 * n) (at_line a (Z.of_nat n) c 0)
    (at_line (wrap w (a + Z.of_nat n)) 0 c 0).
Proof.
  revert a. induction n as [| n IH]; intros a Ha Hn.
  - cbn. rewrite Z.add_0_r, wrap_small by done. constructor.
  - replace (2 * S n)%nat with (S (S (2 * n))) by lia.
    eapply runs_S with (c1 := at_line a (Z.of_nat n) c 1); [done | |].
    { rewrite (exec_body_DECR_pos w _ (decrement 1 1 2) (Z.of_nat (S n)));
        [| reflexivity | reflexivity | reflexivity | lia].
      cbn [currentRegister decrement].
      rewrite wrap_small by lia.
      replace (Z.of_nat (S n) - 1) with (Z.of_nat n) by lia. reflexivity. }
    eapply runs_S with (c1 := at_line (wrap w (a + 1)) (Z.of_nat n) c 0);
      [done | |].
    { rewrite (exec_body_INCR w _ (increment 0 0) a);
        [| reflexivity | reflexivity | reflexivity]. reflexivity. }
    replace (wrap w (a + Z.of_nat (S n)))
      with (wrap w (wrap w (a + 1) + Z.of_nat n))
      by (rewrite wrap_succ; f_equal; lia).
    apply IH; [apply wrap_range; lia | lia].
Qed.

(** The loop [L2: R2- -> L3, L4 / L3: R0+ -> L2] moves register 2 into
    register 0. *)
Lemma second_loop (n : nat) a b :
  0 <= a < 2 ^ w -> Z.of_nat n < 2 ^ w ->
  runs w (2 * n) (at_line a b (Z.of_nat n) 2)
    (at_line (wrap w (a + Z.of_nat n)) b 0 2).
Proof.
  revert a. induction n as [| n IH]; intros a Ha Hn.
  - cbn. rewrite Z.add_0_r, wrap_small by done. constructor.
  - replace (2 * S n)%nat with (S (S (2 * n))) by lia.
    eapply runs_S with (c1 := at_line a b (Z.of_nat n) 3); [done | |].
    { rewrite (exec_body_DECR_pos w _ (decrement 2 3 4) (Z.of_nat (S n)));
        [| reflexivity | reflexivity | reflexivity | lia].
      cbn [currentRegister decrement].
      rewrite wrap_small by lia.
      replace (Z.of_nat (S n) - 1) with (Z.of_nat n) by lia. reflexivity. }
    eapply runs_S with (c1 := at_line (wrap w (a + 1)) b (Z.of_nat n) 2);
      [done | |].
    { rewrite (exec_body_INCR w _ (increment 0 2) a);
        [| reflexivity | reflexivity | reflexivity]. reflexivity. }
    replace (wrap w (a + Z.of_nat (S n)))
      with (wrap w (wrap w (a + 1) + Z.of_nat n))
      by (rewrite wrap_succ; f_equal; lia).
    apply IH; [apply wrap_range; lia | lia].
Qed.

Lemma addition_runs (n m : nat) :
  Z.of_nat n < 2 ^ w -> Z.of_nat m < 2 ^ w ->
  runs w (2 * n + 1 + (2 * m + 1) + 1)
    (at_line 0 (Z.of_nat n) (Z.of_nat m) 0)
    (Config addition [wrap w (Z.of_nat n + Z.of_nat m); 0; 0] true 4).
Proof.
  intros Hn Hm.
  assert (0 < 2 ^ w) as Hw by lia.
  eapply runs_app; [eapply runs_app; eapply runs_app |].
  - apply first_loop; lia.
  - eapply runs_S with (c1 := at_line _ 0 _ 2); [done | | constructor].
    rewrite (exec_body_DECR_zero w _ (decrement 1 1 2) 0);
      [| reflexivity | reflexivity | reflexivity | lia]. reflexivity.
  - apply second_loop; [apply wrap_range; lia | lia].
  - eapply runs_S with (c1 := at_line _ 0 0 4); [done | | constructor].
    rewrite (exec_body_DECR_zero w _ (decrement 2 3 4) 0);
      [| reflexivity | reflexivity | reflexivity | lia]. reflexivity.
  - eapply runs_S; [done | | constructor].
    rewrite (exec_body_HALT w _ halt_instr); [| reflexivity | reflexivity].
    cbn. do 3 f_equal.
    unfold wrap. rewrite Z.add_0_l, Zplus_mod_idemp_l. done.
Qed.
End Addition.

(** The test at the end of a pass stops the loop as soon as [loc] is beyond
    [instrCount]. *)
Lemma exec_body_beyond w c c' :
  exec_body w c = Ok c' -> instrCount (self c') < loc c' -> halt c' = true.
Proof.
  intros H Hl. apply exec_body_inv in H as (ins & _ & H).
  destruct (type ins).
  - by subst.
  - destruct H as (v & _ & ->). cbn in *. unfold overrun.
    apply Z.ltb_lt in Hl. rewrite Hl. done.
  - destruct H as (v & _ & ->). unfold overrun.
    destruct (0 <? v); cbn in *; apply Z.ltb_lt in Hl; rewrite Hl; done.
Qed.

(** It does not when [loc] is [instrCount] itself: the next pass reads
    [instructions[instrCount]]. *)
Lemma exec_loop_one_past_the_end w fuel c :
  halt c = false -> loc c = instrCount (self c) ->
  exec_loop w (S fuel) c = Some (Fail OutOfRange).
Proof.
  intros Hh Hl. cbn. rewrite Hh.
  assert (at_ (instructions (self c)) (loc c) = Fail OutOfRange) as Hi.
  { unfold at_. rewrite decide_False; [done |]. unfold instrCount in Hl. lia. }
  unfold exec_body. rewrite Hi. done.
Qed.

(** The registers hold values of [IntType] from the start on. *)
Lemma init_values_ok w n args : 0 <= w -> regs_ok w (init_values w n args).
Proof.
  intros Hw. assert (0 < 2 ^ w) by (apply Z.pow_pos_nonneg; lia).
  unfold init_values. apply Forall_app. split.
  - apply Forall_forall. intros v Hv.
    apply list_elem_of_fmap in Hv as (a & -> & _). apply Z.mod_pos_bound. lia.
  - apply Forall_replicate. lia.
Qed.

Lemma exec_body_regs_ok w c c' :
  0 <= w -> regs_ok w (values c) -> exec_body w c = Ok c' ->
  regs_ok w (values c').
Proof.
  intros Hw Hok H. assert (0 < 2 ^ w) by (apply Z.pow_pos_nonneg; lia).
  apply exec_body_inv in H as (ins & _ & H). destruct (type ins).
  - by subst.
  - destruct H as (v & _ & ->). cbn.
    apply regs_ok_set; [done | by apply Z.mod_pos_bound].
  - destruct H as (v & _ & ->). destruct (0 <? v); cbn; [| done].
    apply regs_ok_set; [done | by apply Z.mod_pos_bound].
Qed.

(** Claim C3.  A pass through the loop at a Decrement instruction, all
    registers holding values of [IntType]: when the named register holds
    [v > 0] it becomes [v - 1], exactly, and control goes to [location1]
    (ifPositive); when it holds [0] the register file is unchanged and
    control goes to [location2] (ifZero).  Every register still holds a
    value of [IntType] afterwards: nothing wrapped below zero. *)
Theorem decrement_step w c ins v :
  at_ (instructions (self c)) (loc c) = Ok ins -> type ins = DECR ->
  regs_ok w (values c) ->
  at_ (values c) (currentRegister ins) = Ok v ->
  exists c', exec_body w c = Ok c' /\ regs_ok w (values c') /\
    (0 < v ->
       values c' = set_at (values c) (currentRegister ins) (v - 1) /\
       at_ (values c') (currentRegister ins) = Ok (v - 1) /\
       loc c' = location1 ins) /\
    (v = 0 -> values c' = values c /\ loc c' = location2 ins).
Proof.
  intros Hi Ht Hok Hv. pose proof (regs_ok_at _ _ _ _ Hok Hv) as Hr.
  destruct (decide (0 < v)) as [Hp | Hz].
  - eexists. split; [eapply exec_body_DECR_pos; eauto |]. cbn.
    assert (wrap w (v - 1) = v - 1) as -> by (apply Z.mod_small; lia).
    split; [apply regs_ok_set; [done | lia] |].
    split; [| lia]. intros _. split; [done |]. split; [| done].
    eapply at_set_at; eauto.
  - eexists. split; [eapply exec_body_DECR_zero; eauto; lia |]. cbn.
    split; [done |]. split; [lia | done].
Qed.

(** Claim C10.  A pass through the loop changes at most the register
    named by the current instruction: a Halt pass and a Decrement pass on a
    register holding zero leave the register file as it is, every pass
    leaves the registers other than the named one (and the number of
    registers) as they are, and the program, hence its instruction table,
    is the same afterwards. *)
Theorem step_frame w c c' :
  exec_body w c = Ok c' ->
  exists ins, at_ (instructions (self c)) (loc c) = Ok ins /\
    self c' = self c /\
    length (values c') = length (values c) /\
    (forall k : nat, k ≠ Z.to_nat (currentRegister ins) ->
       values c' !! k = values c !! k) /\
    (type ins = HALT -> values c' = values c) /\
    (type ins = DECR -> at_ (values c) (currentRegister ins) = Ok 0 ->
       values c' = values c).
Proof.
  intros H. apply exec_body_inv in H as (ins & Hi & H).
  exists ins. split; [done |].
  destruct (type ins) eqn:Ht.
  - subst c'. cbn. repeat split; done.
  - destruct H as (v & Hv & ->). cbn. unfold set_at.
    rewrite length_insert. repeat split; try done.
    intros k Hk. by apply list_lookup_insert_ne.
  - destruct H as (v & Hv & ->).
    destruct (0 <? v) eqn:Hp; cbn; unfold set_at.
    + rewrite length_insert. repeat split; try done.
      * intros k Hk. by apply list_lookup_insert_ne.
      * intros _ H0. rewrite Hv in H0. inversion H0; subst. done.
    + repeat split; done.
Qed.

(** Claim C2.  The text of the example parses, at capacity 5, to the
    five-instruction table [addition]; run with register 0 at [0] and
    registers 1 and 2 at any values [r1] and [r2] of [IntType], it halts
    (any [fuel] from [2 r1 + 2 r2 + 3] passes on is enough) and returns the
    sum of [r1] and [r2] in [IntType], which is [r1 + r2] itself whenever
    that is a value of [IntType]. *)
Theorem addition_computes_sum w r1 r2 fuel :
  0 <= r1 < 2 ^ w -> 0 <= r2 < 2 ^ w ->
  (Z.to_nat (2 * r1 + 2 * r2 + 3) <= fuel)%nat ->
  make 3 5 addition_text = Ok addition /\
  exec w fuel addition [0; r1; r2] = Some (Ok ((r1 + r2) mod 2 ^ w)) /\
  (r1 + r2 < 2 ^ w -> exec w fuel addition [0; r1; r2] = Some (Ok (r1 + r2))).
Proof.
  intros H1 H2 Hfuel.
  assert (exec w fuel addition [0; r1; r2] = Some (Ok ((r1 + r2) mod 2 ^ w))) as He.
  { unfold exec. cbn [maxRegisters addition]. rewrite decide_True by (cbn; lia).
    assert (init_values w 3 [0; r1; r2] = [0; r1; r2]) as ->.
    { unfold init_values. cbn. rewrite !wrap_small by lia. done. }
    pose proof (addition_runs w (Z.to_nat r1) (Z.to_nat r2)) as Hr.
    rewrite !Z2Nat.id in Hr by lia.
    specialize (Hr ltac:(lia) ltac:(lia)).
    eapply exec_loop_more; [| exact Hfuel].
    replace (Z.to_nat (2 * r1 + 2 * r2 + 3))
      with ((2 * Z.to_nat r1 + 1 + (2 * Z.to_nat r2 + 1) + 1) + 0)%nat by lia.
    rewrite (exec_loop_runs _ _ _ _ Hr). reflexivity. }
  split; [vm_compute; reflexivity |]. split; [done |].
  intros Hs. rewrite He, Z.mod_small by lia. done.
Qed.

(** With [(R0, R1, R2) = (0, 3, 5)] and 32-bit registers the run returns 8. *)
Lemma addition_computes_sum_witness :
  0 <= 3 < 2 ^ 32 /\ 0 <= 5 < 2 ^ 32 /\
  exec 32 100 addition [0; 3; 5] = Some (Ok 8).
Proof.
  split; [lia |]. split; [lia |].
  refine (proj1 (proj2 (addition_computes_sum 32 3 5 100 _ _ _)));
    [lia | lia | vm_compute; lia].
Defined.

(** Claim C1, at the input on which the code departs from it.  The
    one-instruction program [L0: R0- -> L1, L1] parsed at capacity 1 and
    run with register 0 at [0] takes the ifZero branch to line 1, which is
    [instrCount]; the test [loc > instrCount] does not stop the loop and
    the next pass reads [instructions[1]], outside the table. *)
Theorem fall_off_end_reads_outside_table :
  make 1 1 "L0: R0- -> L1, L1" = Ok (Program 1 [decrement 0 1 1]) /\
  forall w fuel,
    exec w (S (S fuel)) (Program 1 [decrement 0 1 1]) [0]
    = Some (Fail OutOfRange).
Proof.
  split; [vm_compute; reflexivity |]. intros w fuel.
  unfold exec. cbn [maxRegisters]. rewrite decide_True by (cbn; lia).
  assert (init_values w 1 [0] = [0]) as -> by (unfold init_values, wrap; cbn; by rewrite Zmod_0_l).
  change (S (S fuel)) with (1 + S fuel)%nat.
  erewrite exec_loop_runs; [apply exec_loop_one_past_the_end |].
  - instantiate (1 := Config (Program 1 [decrement 0 1 1]) [0] false 1). done.
  - done.
  - eapply runs_S; [done | | constructor].
    rewrite (exec_body_DECR_zero w _ (decrement 0 1 1) 0);
      [| reflexivity | reflexivity | reflexivity | lia]. reflexivity.
Qed.

(** ** The parser, step by step

    What each function of the parser does at a position [p], told by the
    text [s] that the input holds from [p] on. *)

Section View.
Variable input : list ascii.
Implicit Types (p : Z) (s : list ascii).

Lemma view_drop p : 0 <= p <= end_ input -> view input p (drop (Z.to_nat p) input).
Proof. done. Qed.

Lemma view_start : view input 0 input.
Proof. split; [unfold end_; lia | done]. Qed.

Lemma view_inj p s s' : view input p s -> view input p s' -> s = s'.
Proof. intros [_ H] [_ H']. congruence. Qed.

Lemma view_length p s : view input p s -> Z.of_nat (length s) = end_ input - p.
Proof.
  intros [Hp <-]. rewrite length_drop. unfold end_ in *. lia.
Qed.

Lemma view_eof p s :
  view input p s -> eof input p = bool_decide (s = []).
Proof.
  intros H. pose proof (view_length _ _ H) as Hl. unfold eof.
  destruct s; cbn in *.
  - apply Z.leb_le. lia.
  - apply Z.leb_gt. lia.
Qed.

Lemma view_nil p : view input p [] -> eof input p = true.
Proof. intros H. by rewrite (view_eof _ _ H). Qed.

Lemma view_cons p c s :
  view input p (c :: s) ->
  eof input p = false /\ at_ input p = Ok c /\ view input (p + 1) s.
Proof.
  intros H. pose proof (view_length _ _ H) as Hl.
  split; [by rewrite (view_eof _ _ H) |].
  destruct H as [Hp H]. cbn in Hl.
  assert (input !! Z.to_nat p = Some c) as Hc.
  { rewrite <- (Nat.add_0_r (Z.to_nat p)), <- lookup_drop, H. done. }
  split; [apply at_Ok; split; [lia | done] |].
  split; [lia |].
  replace (Z.to_nat (p + 1)) with (Z.to_nat p + 1)%nat by lia.
  rewrite <- drop_drop, H. done.
Qed.

Lemma view_app p a s :
  view input p (a ++ s) -> view input (p + Z.of_nat (length a)) s.
Proof.
  revert p. induction a as [| c a IH]; intros p H; cbn [length app] in *.
  - by rewrite Z.add_0_r.
  - apply view_cons in H as (_ & _ & H). apply IH in H.
    replace (p + Z.of_nat (S (length a))) with (p + 1 + Z.of_nat (length a)) by lia.
    done.
Qed.

Lemma view_at_nil p : view input p [] -> at_ input p = Fail OutOfRange.
Proof.
  intros H. pose proof (view_length _ _ H) as Hl. cbn in Hl.
  unfold at_. rewrite decide_False; [done |]. unfold end_ in *. lia.
Qed.

(** *** Characters *)

Lemma isChar_cons p c s cs :
  view input p (c :: s) -> isChar input p cs = Ok (bool_decide (c ∈ cs)).
Proof. intros H. apply view_cons in H as (_ & H & _). unfold isChar. by rewrite H. Qed.

Lemma isChar_nil p cs : view input p [] -> isChar input p cs = Fail OutOfRange.
Proof. intros H. unfold isChar. by rewrite (view_at_nil _ H). Qed.

Lemma matchChar_cons p c s cs :
  view input p (c :: s) ->
  matchChar input cs p =
    if bool_decide (c ∈ cs) then Ok (true, p + 1) else Ok (false, p).
Proof. intros H. unfold matchChar. rewrite (isChar_cons _ _ _ _ H). done. Qed.

Lemma matchChar_nil p cs : view input p [] -> matchChar input cs p = Fail OutOfRange.
Proof. intros H. unfold matchChar. by rewrite (isChar_nil _ _ H). Qed.

(** *** Runs of characters *)

Lemma run_app_drop cs s : s = run cs s ++ drop (length (run cs s)) s.
Proof.
  induction s as [| c s IH]; [done |]. cbn.
  case_bool_decide; cbn; [by rewrite <- IH | done].
Qed.

Lemma run_Forall cs s : Forall (fun c => c ∈ cs) (run cs s).
Proof.
  induction s as [| c s IH]; cbn; [constructor |].
  case_bool_decide; [by constructor | constructor].
Qed.

Lemma run_length cs s : (length (run cs s) <= length s)%nat.
Proof.
  induction s as [| c s IH]; cbn; [lia |].
  case_bool_decide; cbn; lia.
Qed.

(** The character after a run is not one of the run. *)
Lemma run_stops cs s c s' :
  drop (length (run cs s)) s = c :: s' -> c ∉ cs.
Proof.
  induction s as [| d s IH]; cbn; [done |].
  case_bool_decide; cbn; [done |]. intros [= -> _]. done.
Qed.

Lemma run_exact cs a s :
  Forall (fun c => c ∈ cs) a ->
  match s with [] => True | c :: _ => c ∉ cs end ->
  run cs (a ++ s) = a.
Proof.
  intros Ha Hs. induction Ha as [| c a Hc Ha IH]; cbn.
  - destruct s as [| c s]; cbn; [done |]. by rewrite bool_decide_false.
  - rewrite bool_decide_true by done. by rewrite IH.
Qed.

Lemma skip_loop_run fuel cs p s :
  view input p s -> (length (run cs s) <= fuel)%nat ->
  skip_loop input fuel cs p = Ok (tt, p + Z.of_nat (length (run cs s))).
Proof.
  revert p s. induction fuel as [| fuel IH]; intros p s Hv Hf.
  - destruct s as [| c s]; cbn.
    + rewrite (view_nil _ Hv). by rewrite Z.add_0_r.
    + cbn in Hf. destruct (view_cons _ _ _ Hv) as (-> & _ & _).
      rewrite (matchChar_cons _ _ _ _ Hv).
      case_bool_decide; cbn in *; [lia |]. by rewrite Z.add_0_r.
  - destruct s as [| c s]; cbn.
    + rewrite (view_nil _ Hv). by rewrite Z.add_0_r.
    + cbn in Hf. destruct (view_cons _ _ _ Hv) as (-> & _ & Hv').
      rewrite (matchChar_cons _ _ _ _ Hv).
      case_bool_decide; cbn in *; [| by rewrite Z.add_0_r].
      rewrite (IH _ _ Hv') by lia. do 2 f_equal. lia.
Qed.

Lemma fuel_at_view p s : view input p s -> fuel_at input p = length s.
Proof. intros H. apply view_length in H. unfold fuel_at. lia. Qed.

Lemma skipSpaces_run p s :
  view input p s ->
  skipSpaces input p = Ok (tt, p + Z.of_nat (length (run [tab; space] s))).
Proof.
  intros H. unfold skipSpaces. apply skip_loop_run; [done |].
  rewrite (fuel_at_view _ _ H). apply run_length.
Qed.

Lemma skipLinesAndSpaces_run p s :
  view input p s ->
  skipLinesAndSpaces input p
  = Ok (tt, p + Z.of_nat (length (run [newline; tab; space] s))).
Proof.
  intros H. unfold skipLinesAndSpaces. apply skip_loop_run; [done |].
  rewrite (fuel_at_view _ _ H). apply run_length.
Qed.

Lemma view_run cs p s :
  view input p s ->
  view input (p + Z.of_nat (length (run cs s))) (drop (length (run cs s)) s).
Proof.
  intros H. apply view_app. by rewrite <- run_app_drop.
Qed.

(** *** Integers *)

Lemma parseInt_loop_run fuel res nip p s :
  view input p s -> (length (run digits s) <= fuel)%nat ->
  parseInt_loop input fuel res nip p =
    if nip && bool_decide (run digits s = []) then Fail (Error msg_no_number)
    else Ok (accumulate res (run digits s),
             p + Z.of_nat (length (run digits s))).
Proof.
  revert res nip p s. induction fuel as [| fuel IH]; intros res nip p s Hv Hf.
  - destruct s as [| c s]; cbn.
    + rewrite (view_nil _ Hv). destruct nip; cbn; [done |]. by rewrite Z.add_0_r.
    + cbn in Hf. destruct (view_cons _ _ _ Hv) as (-> & Hc & _).
      rewrite (isChar_cons _ _ _ _ Hv).
      case_bool_decide; cbn in *; [lia |].
      destruct nip; cbn; [done |]. by rewrite Z.add_0_r.
  - destruct s as [| c s]; cbn.
    + rewrite (view_nil _ Hv). destruct nip; cbn; [done |]. by rewrite Z.add_0_r.
    + cbn in Hf. destruct (view_cons _ _ _ Hv) as (-> & Hc & Hv').
      rewrite (isChar_cons _ _ _ _ Hv).
      case_bool_decide; cbn in *.
      * rewrite Hc. cbn. rewrite (IH _ _ _ _ Hv') by lia. cbn.
        rewrite andb_false_r. do 2 f_equal. lia.
      * destruct nip; cbn; [done |]. by rewrite Z.add_0_r.
Qed.

Lemma parseInt_run p s :
  view input p s ->
  parseInt input p =
    if bool_decide (run digits s = []) then Fail (Error msg_no_number)
    else Ok (value (run digits s), p + Z.of_nat (length (run digits s))).
Proof.
  intros H. unfold parseInt. rewrite (parseInt_loop_run _ _ _ _ _ H); [done |].
  rewrite (fuel_at_view _ _ H). apply run_length.
Qed.
End View.

(** [parseInt] computes in [size_t]: the value of a digit sequence is the
    number it writes, modulo [2^64]. *)
Lemma accumulate_decimal ds r r' :
  wrap size_bits r = wrap size_bits r' ->
  wrap size_bits (accumulate r ds) = wrap size_bits (decimal_from r' ds).
Proof.
  revert r r'. induction ds as [| c ds IH]; intros r r' Hr; [done |].
  cbn. apply IH. unfold wrap in *.
  rewrite Zmod_mod, Zplus_mod_idemp_l.
  rewrite (Zplus_mod (r * 10)), (Zplus_mod (r' * 10)).
  rewrite (Zmult_mod r), (Zmult_mod r'), Hr. done.
Qed.

Lemma value_decimal ds : value ds = decimal ds mod 2 ^ 64.
Proof.
  pose proof (accumulate_decimal ds 0 0 eq_refl) as H.
  unfold value, decimal.
  change (decimal_from 0 ds mod 2 ^ 64) with (wrap size_bits (decimal_from 0 ds)).
  rewrite <- H. unfold wrap. symmetry. apply Z.mod_small.
  destruct ds as [| c ds]; [done |].
  assert (forall l r, 0 <= r < 2 ^ size_bits ->
            0 <= accumulate r l < 2 ^ size_bits) as Hacc.
  { induction l as [| d l IHl]; intros r Hr; [done |].
    cbn. apply IHl. apply Z.mod_pos_bound. done. }
  cbn. apply Hacc. apply Z.mod_pos_bound. done.
Qed.

Example value_wraps :
  value (list_ascii_of_string "18446744073709551617") = 1.
Proof. vm_compute. reflexivity. Qed.

Lemma bind_Ok {A B} (m : outcome A) (k : A -> outcome B) b :
  bind m k = Ok b <-> exists a, m = Ok a /\ k a = Ok b.
Proof.
  destruct m as [a | f]; cbn; split.
  - eauto.
  - intros (a' & [= ->] & H). done.
  - done.
  - intros (a' & H & _). done.
Qed.

Lemma bind_Fail {A B} (m : outcome A) (k : A -> outcome B) f :
  m = Fail f -> bind m k = Fail f.
Proof. by intros ->. Qed.

Section Loop.
Variable input : list ascii.
Implicit Types (p : Z) (s : list ascii).

Lemma matchStr_loop_past p i str b :
  end_ input < p + i ->
  matchStr_loop input p i str b =
    match str with [] => Ok b | _ => Fail OutOfRange end.
Proof.
  intros H. destruct str as [| x str]; cbn; [done |].
  assert ((p + i =? end_ input) = false) as -> by (apply Z.eqb_neq; lia).
  unfold at_. rewrite decide_False by (unfold end_ in *; lia). done.
Qed.

Lemma matchStr_loop_view p i str b s :
  view input (p + i) s ->
  matchStr_loop input p i str b =
    if bool_decide (length str <= length s + 1)%nat
    then Ok (b && bool_decide (str `prefix_of` s))
    else Fail OutOfRange.
Proof.
  revert i b s. induction str as [| x str IH]; intros i b s Hv.
  - cbn. rewrite bool_decide_true by lia.
    rewrite bool_decide_true by apply prefix_nil. by rewrite andb_true_r.
  - cbn [matchStr_loop]. destruct s as [| c s].
    + pose proof (view_length _ _ _ Hv) as Hl. cbn in Hl.
      assert ((p + i =? end_ input) = true) as -> by (apply Z.eqb_eq; lia).
      rewrite matchStr_loop_past by lia.
      destruct str; cbn.
      * rewrite bool_decide_true by lia.
        rewrite bool_decide_false; [by rewrite andb_false_r |].
        intros H. by apply prefix_nil_not in H.
      * rewrite bool_decide_false by lia. done.
    + pose proof (view_length _ _ _ Hv) as Hl. cbn [length] in Hl.
      assert ((p + i =? end_ input) = false) as -> by (apply Z.eqb_neq; lia).
      destruct (view_cons _ _ _ _ Hv) as (_ & -> & Hv'). cbn.
      replace (p + i + 1) with (p + (i + 1)) in Hv' by lia.
      rewrite (IH _ _ _ Hv'). cbn [length].
      destruct (bool_decide (length str <= length s + 1)%nat) eqn:Hfit.
      * apply bool_decide_eq_true in Hfit.
        rewrite (bool_decide_true (_ <= _)%nat) by lia. f_equal.
        case_decide as Hcx.
        -- subst c. f_equal. apply bool_decide_ext. split.
           ++ by apply prefix_cons.
           ++ by apply prefix_cons_inv_2.
        -- cbn. rewrite bool_decide_false; [by rewrite andb_false_r |].
           intros H. apply prefix_cons_inv_1 in H. done.
      * apply bool_decide_eq_false in Hfit.
        rewrite (bool_decide_false (_ <= _)%nat) by lia. done.
Qed.

Lemma matchStr_view str p s :
  view input p s ->
  matchStr input str p =
    if bool_decide (length str <= length s + 1)%nat then
      if bool_decide (str `prefix_of` s)
      then Ok (true, p + Z.of_nat (length str)) else Ok (false, p)
    else Fail OutOfRange.
Proof.
  intros Hv. unfold matchStr.
  rewrite (matchStr_loop_view p 0 str true s) by (by rewrite Z.add_0_r).
  case_bool_decide; [| done]. cbn. by case_bool_decide.
Qed.

Lemma matchStr_prefix str p s :
  view input p (str ++ s) ->
  matchStr input str p = Ok (true, p + Z.of_nat (length str)).
Proof.
  intros Hv. rewrite (matchStr_view _ _ _ Hv).
  rewrite bool_decide_true by (rewrite length_app; lia).
  rewrite bool_decide_true by (by apply prefix_app_r). done.
Qed.

Lemma matchStr_Ok str p s b p' :
  view input p s -> matchStr input str p = Ok (b, p') ->
  if b then exists s', s = str ++ s' /\ p' = p + Z.of_nat (length str)
  else p' = p.
Proof.
  intros Hv. rewrite (matchStr_view _ _ _ Hv).
  case_bool_decide; [| done].
  case_bool_decide as Hp; intros [= <- <-]; [| done].
  destruct Hp as [s' ->]. eauto.
Qed.

(** *** Line ends *)

Lemma parseEOL_view p s :
  view input p s ->
  parseEOL input p =
    let n := length (run [tab; space] s) in
    match drop n s with
    | [] => Ok (tt, p + Z.of_nat n)
    | c :: _ =>
        if bool_decide (c ∈ [";"%char; newline; nul])
        then Ok (tt, p + Z.of_nat n + 1)
        else Fail (Error msg_terminator)
    end.
Proof.
  intros Hv. unfold parseEOL. rewrite (skipSpaces_run _ _ _ Hv). cbn.
  pose proof (view_run _ [tab; space] _ _ Hv) as Hv'.
  destruct (drop _ s) as [| c s'] eqn:Hd.
  - by rewrite (view_nil _ _ Hv').
  - destruct (view_cons _ _ _ _ Hv') as (-> & _ & _).
    rewrite (matchChar_cons _ _ _ _ _ Hv').
    by case_bool_decide.
Qed.

(** *** The loop of [parse] *)

Lemma parse_body_Ok i instr p instr' p' :
  parse_body input i instr p = Ok (instr', p') <->
  exists p1 ins p2,
    parse_prefix input i p = Ok (tt, p1) /\
    parse_statement input p1 = Ok (ins, p2) /\
    instr' = set_at instr i ins /\
    skipLinesAndSpaces input p2 = Ok (tt, p').
Proof.
  unfold parse_body. split.
  - intros H. apply bind_Ok in H as ([[] p1] & H1 & H).
    apply bind_Ok in H as ([ins p2] & H2 & H).
    apply bind_Ok in H as ([[] p3] & H3 & [= <- <-]).
    eauto 10.
  - intros (p1 & ins & p2 & H1 & H2 & -> & H3).
    rewrite H1. cbn. rewrite H2. cbn. rewrite H3. done.
Qed.

Lemma reaches_range n i instr p :
  reaches input n i instr p -> 0 <= i <= Z.of_nat n.
Proof. induction 1; lia. Qed.

Lemma parse_slots_reaches n i instr p :
  reaches input n i instr p -> 0 <= i <= Z.of_nat n ->
  parse_slots input n =
    let* (r, _) := parse_loop input (Z.to_nat (Z.of_nat n - i)) i instr p in
    Ok r.
Proof.
  induction 1 as [p H | i instr p instr' p' Hr' IH Hi He Hb]; intros Hr.
  - unfold parse_slots. rewrite H. cbn. rewrite Z.sub_0_r, Nat2Z.id. done.
  - apply reaches_range in Hr'. rewrite IH by lia.
    replace (Z.to_nat (Z.of_nat n - i)) with (S (Z.to_nat (Z.of_nat n - (i + 1)))) by lia.
    cbn [parse_loop]. rewrite He, Hb. done.
Qed.

(** A failure in a slot is what [parse] returns: no program is built. *)
Lemma parse_fails_in_slot m n i instr p f :
  reaches input n i instr p -> i < Z.of_nat n -> eof input p = false ->
  parse_body input i instr p = Fail f ->
  parse input m n = Fail f.
Proof.
  intros Hr Hi He Hb. pose proof (reaches_range _ _ _ _ Hr).
  unfold parse. rewrite (parse_slots_reaches _ _ _ _ Hr) by lia.
  replace (Z.to_nat (Z.of_nat n - i)) with (S (Z.to_nat (Z.of_nat n - (i + 1)))) by lia.
  cbn [parse_loop]. rewrite He, Hb. done.
Qed.
End Loop.

Section Slots.
Variable input : list ascii.
Implicit Types (p : Z) (s : list ascii).

Lemma parse_loop_Ok todo i instr p i' instr' p' :
  parse_loop input todo i instr p = Ok ((i', instr'), p') -> 0 <= i ->
  i <= i' <= i + Z.of_nat todo /\
  length instr' = length instr /\
  (forall j : nat, i' <= Z.of_nat j -> instr' !! j = instr !! j) /\
  (i' < i + Z.of_nat todo -> eof input p' = true).
Proof.
  revert i instr p. induction todo as [| todo IH]; intros i instr p H Hi.
  - cbn in H. injection H as <- <- <-. repeat split; try done; lia.
  - cbn [parse_loop] in H. destruct (eof input p) eqn:He.
    + injection H as <- <- <-. repeat split; try done; lia.
    + apply bind_Ok in H as ([instr1 p1] & Hb & H).
      apply parse_body_Ok in Hb as (p2 & ins & p3 & _ & _ & -> & _).
      apply IH in H as (Hr & Hl & Hj & He'); [| lia].
      split; [lia |]. split; [by rewrite Hl; apply length_insert |].
      split; [| intros; apply He'; lia].
      intros j Hij. rewrite Hj by done.
      apply list_lookup_insert_ne. lia.
Qed.

Lemma parse_prefix_L i p s :
  view input p ("L"%char :: s) ->
  parse_prefix input i p =
    let* (k, p) := parseLineNumber input p in
    if negb (k =? i) then Fail (Error msg_incorrect_line)
    else
      let* (_, p) := skipSpaces input p in
      if eof input p then Fail (Error msg_colon)
      else
        let* (m, p) := matchChar input [":"%char] p in
        if negb m then Fail (Error msg_colon) else skipSpaces input p.
Proof.
  intros Hv. unfold parse_prefix. rewrite (isChar_cons _ _ _ _ _ Hv). done.
Qed.

Lemma parse_prefix_none i p c s :
  view input p (c :: s) -> c ≠ "L"%char ->
  parse_prefix input i p = Ok (tt, p).
Proof.
  intros Hv Hc. unfold parse_prefix. rewrite (isChar_cons _ _ _ _ _ Hv).
  rewrite bool_decide_false; [done |]. by rewrite list_elem_of_singleton.
Qed.

Lemma parseLineNumber_L p s :
  view input p ("L"%char :: s) ->
  parseLineNumber input p = parseInt input (p + 1).
Proof.
  intros Hv. unfold parseLineNumber.
  destruct (view_cons _ _ _ _ Hv) as (-> & _ & _).
  rewrite (matchChar_cons _ _ _ _ _ Hv). done.
Qed.

Lemma parseLineNumber_number p ds s :
  view input p ("L"%char :: ds ++ s) ->
  ds ≠ [] -> Forall (fun c => c ∈ digits) ds ->
  match s with [] => True | c :: _ => c ∉ digits end ->
  parseLineNumber input p = Ok (value ds, p + 1 + Z.of_nat (length ds)).
Proof.
  intros Hv Hne Hds Hs. rewrite (parseLineNumber_L _ _ Hv).
  destruct (view_cons _ _ _ _ Hv) as (_ & _ & Hv').
  rewrite (parseInt_run _ _ _ Hv'), run_exact by done.
  by rewrite bool_decide_false.
Qed.
End Slots.

(** Claim C5 as stated fails on a number that [size_t] does not hold: the
    label writes [2^64], which is not the index 0 of its slot, and [parse]
    returns a program; [parseInt] computes the number in [size_t], where
    it is 0. *)
Lemma label_beyond_size_t_accepted :
  decimal (list_ascii_of_string "18446744073709551616") = 2 ^ 64 /\
  2 ^ 64 <> 0 /\
  make 1 1 label_beyond_size_t = Ok (Program 1 [halt_instr]).
Proof.
  split; [vm_compute; reflexivity |].
  split; [done | vm_compute; reflexivity].
Qed.

(** Claim C5, as the code has it.  When the loop of [parse] comes to slot
    [i], within the capacity, at a line prefix [L<n>] (the digits [ds],
    read to the last of them) whose number modulo [2^64] is not [i],
    [parse] fails with the error "line number specified in program is
    incorrect" and builds no program.  The number is the one that the
    digits write in base ten; a number below [2^64] is compared as it is
    written. *)
Theorem misnumbered_prefix_rejected input m n i instr p ds s :
  reaches input n i instr p -> i < Z.of_nat n ->
  view input p ("L"%char :: ds ++ s) ->
  ds ≠ [] -> Forall (fun c => c ∈ digits) ds ->
  match s with [] => True | c :: _ => c ∉ digits end ->
  decimal ds mod 2 ^ 64 ≠ i ->
  parse input m n = Fail (Error msg_incorrect_line).
Proof.
  intros Hr Hi Hv Hne Hds Hs Hk.
  destruct (view_cons _ _ _ _ Hv) as (He & _ & _).
  eapply parse_fails_in_slot; eauto.
  unfold parse_body. rewrite (parse_prefix_L _ _ _ _ Hv).
  rewrite (parseLineNumber_number _ _ _ _ Hv) by done. cbn.
  rewrite <- value_decimal in Hk.
  apply Z.eqb_neq in Hk. rewrite Hk. done.
Qed.

(** [L0:] followed by [L2:], at capacity 2. *)
Lemma misnumbered_prefix_rejected_witness :
  make 3 2 "L0: HALT
L2: HALT" = Fail (Error msg_incorrect_line).
Proof.
  unfold make.
  eapply (misnumbered_prefix_rejected _ 3 2 1 _ 9 ["2"%char]
            (list_ascii_of_string ": HALT")).
  - eapply (reaches_next _ _ 0).
    + apply reaches_first. vm_compute. reflexivity.
    + lia.
    + vm_compute. reflexivity.
    + vm_compute. reflexivity.
  - lia.
  - split; [vm_compute; intuition discriminate | reflexivity].
  - done.
  - repeat constructor.
  - compute_done.
  - vm_compute. discriminate.
Defined.

(** Claim C9.  When [parse] returns a program, its table has [n] entries,
    the loop filled the slots below [filled], and every slot from [filled]
    on, which the loop left when the input was exhausted, holds the
    default instruction Halt; a run that comes to such a slot stops in that
    pass and returns register 0. *)
Theorem unfilled_slots_hold_halt input m n prog :
  parse input m n = Ok prog ->
  exists filled : Z,
    parse_slots input n = Ok (filled, instructions prog) /\
    maxRegisters prog = m /\ instrCount prog = Z.of_nat n /\
    0 <= filled <= Z.of_nat n /\
    forall j, filled <= j < Z.of_nat n ->
      at_ (instructions prog) j = Ok halt_instr /\
      forall w fuel v0 vs,
        exec_loop w (S fuel) (Config prog (v0 :: vs) false j) = Some (Ok v0).
Proof.
  unfold parse, parse_slots. intros H.
  apply bind_Ok in H as ([filled instr] & H & [= <-]).
  exists filled. split; [done |]. unfold instrCount. cbn [maxRegisters instructions].
  apply bind_Ok in H as ([[] p0] & H0 & H).
  apply bind_Ok in H as ([[filled' instr'] p'] & H & [= -> ->]).
  apply parse_loop_Ok in H as (Hr & Hl & Hj & _); [| lia].
  rewrite length_replicate in Hl.
  split; [done |]. split; [by rewrite Hl |]. split; [lia |].
  intros j Hjr.
  assert (at_ instr j = Ok halt_instr) as Hh.
  { apply at_Ok. split; [lia |]. rewrite Hj by lia.
    apply lookup_replicate_2. lia. }
  split; [done |]. intros w fuel v0 vs.
  cbn [exec_loop halt].
  rewrite (exec_body_HALT w _ halt_instr) by done.
  cbn [self values loc]. by rewrite exec_loop_halted.
Qed.

(** One line at capacity 3: slot 1 holds Halt. *)
Lemma unfilled_slots_hold_halt_witness :
  exists prog,
    make 1 3 "R0+ -> L1" = Ok prog /\
    at_ (instructions prog) 1 = Ok halt_instr /\
    exec_loop 8 1 (Config prog [7] false 1) = Some (Ok 7).
Proof.
  destruct (make 1 3 "R0+ -> L1") as [prog |] eqn:Hm; [| vm_compute in Hm; discriminate].
  exists prog. split; [done |].
  destruct (unfilled_slots_hold_halt _ _ _ _ Hm)
    as (filled & Hs & _ & _ & _ & Hj).
  assert (filled = 1) as -> by (vm_compute in Hs; congruence).
  destruct (Hj 1 ltac:(lia)) as [Hh He]. split; [done |]. apply He.
Defined.

Section EmptyStatement.
Variable input : list ascii.

Lemma parse_statement_terminator p c s :
  view input p (c :: s) -> c ∈ [";"%char; newline; nul] ->
  (2 <= length s)%nat ->
  parse_statement input p = Ok (halt_instr, p + 1).
Proof.
  intros Hv Hc Hs. unfold parse_statement.
  destruct (view_cons _ _ _ _ Hv) as (-> & _ & _).
  rewrite (matchChar_cons _ _ _ _ _ Hv).
  rewrite bool_decide_false.
  2:{ intros HR. apply list_elem_of_singleton in HR. subst c.
      revert Hc. compute_done. }
  cbn. rewrite (matchStr_view _ _ _ _ Hv).
  rewrite bool_decide_true by (cbn; lia).
  rewrite bool_decide_false.
  2:{ intros HR. apply prefix_cons_inv_1 in HR. subst c.
      revert Hc. compute_done. }
  cbn. rewrite (matchChar_cons _ _ _ _ _ Hv).
  by rewrite bool_decide_true.
Qed.
End EmptyStatement.

(** Claim C7, as the code has it.  In a slot whose statement is empty, that
    is where, after the line prefix if there is one, the text goes on with
    a terminator [;], newline or NUL and at least two more characters, the
    loop body stores Halt in the slot and goes on after the terminator and
    the blanks that follow it.  Blank lines are skipped, not stored:
    [skipLinesAndSpaces], called before the first slot and after every
    slot, moves past every newline, tab and space in front of it. *)
Theorem empty_statement_is_halt input i instr p p1 c s :
  parse_prefix input i p = Ok (tt, p1) ->
  view input p1 (c :: s) -> c ∈ [";"%char; newline; nul] ->
  (2 <= length s)%nat ->
  parse_body input i instr p
  = Ok (set_at instr i halt_instr,
        p1 + 1 + Z.of_nat (length (run [newline; tab; space] s))) /\
  forall q t, view input q t ->
    skipLinesAndSpaces input q
    = Ok (tt, q + Z.of_nat (length (run [newline; tab; space] t))).
Proof.
  intros Hp Hv Hc Hs. split; [| apply skipLinesAndSpaces_run].
  apply parse_body_Ok.
  exists p1, halt_instr, (p1 + 1).
  split; [done |]. split; [by eapply parse_statement_terminator |].
  split; [done |].
  destruct (view_cons _ _ _ _ Hv) as (_ & _ & Hv').
  by apply skipLinesAndSpaces_run.
Qed.

(** ** Instruction lines are read as they are written *)

Section Complete.
Variable input : list ascii.
Implicit Types (p : Z) (s : list ascii).

Lemma starts_outside_app cs a c s :
  Forall (fun x => x ∉ cs) a -> c ∉ cs -> starts_outside cs (a ++ c :: s).
Proof. intros Ha Hc. destruct Ha; cbn; done. Qed.

Lemma spaces_not_digits a : is_spaces a -> Forall (fun x => x ∉ digits) a.
Proof.
  intros Ha. eapply Forall_impl; [exact Ha |]. intros x Hx.
  apply elem_of_cons in Hx as [-> | Hx]; [compute_done |].
  apply list_elem_of_singleton in Hx as ->. compute_done.
Qed.

Lemma skipSpaces_exact p a s :
  view input p (a ++ s) -> is_spaces a -> starts_outside [tab; space] s ->
  exists p', skipSpaces input p = Ok (tt, p') /\ view input p' s.
Proof.
  intros Hv Ha Hs. eexists. split; [by apply skipSpaces_run |].
  rewrite run_exact by done. by apply view_app.
Qed.

Lemma skipLinesAndSpaces_exact p a s :
  view input p (a ++ s) -> is_blank a ->
  starts_outside [newline; tab; space] s ->
  exists p', skipLinesAndSpaces input p = Ok (tt, p') /\ view input p' s.
Proof.
  intros Hv Ha Hs. eexists. split; [by apply skipLinesAndSpaces_run |].
  rewrite run_exact by done. by apply view_app.
Qed.

Lemma parseInt_exact p ds s :
  view input p (ds ++ s) -> is_number ds -> starts_outside digits s ->
  exists p', parseInt input p = Ok (value ds, p') /\ view input p' s.
Proof.
  intros Hv [Hne Hds] Hs. eexists.
  rewrite (parseInt_run _ _ _ Hv), run_exact by done.
  rewrite bool_decide_false by done. split; [done |]. by apply view_app.
Qed.

Lemma parseLineNumber_exact p ds s :
  view input p ("L"%char :: ds ++ s) -> is_number ds ->
  starts_outside digits s ->
  exists p', parseLineNumber input p = Ok (value ds, p') /\ view input p' s.
Proof.
  intros Hv Hds Hs. rewrite (parseLineNumber_L _ _ _ Hv).
  destruct (view_cons _ _ _ _ Hv) as (_ & _ & Hv').
  by apply parseInt_exact.
Qed.

Lemma matchChar_exact p c s cs :
  view input p (c :: s) -> c ∈ cs ->
  matchChar input cs p = Ok (true, p + 1) /\ view input (p + 1) s.
Proof.
  intros Hv Hc. rewrite (matchChar_cons _ _ _ _ _ Hv).
  rewrite bool_decide_true by done.
  by destruct (view_cons _ _ _ _ Hv) as (_ & _ & Hv').
Qed.

Lemma parseEOL_exact p a c s :
  view input p (a ++ c :: s) -> is_spaces a ->
  c ∈ [";"%char; newline; nul] ->
  exists p', parseEOL input p = Ok (tt, p') /\ view input p' s.
Proof.
  intros Hv Ha Hc.
  assert (starts_outside [tab; space] (c :: s)) as Hs.
  { cbn. intros Hx. revert Hc.
    apply elem_of_cons in Hx as [-> | Hx]; [compute_done |].
    apply list_elem_of_singleton in Hx as ->. compute_done. }
  rewrite (parseEOL_view _ _ _ Hv). cbn zeta.
  rewrite run_exact by done. rewrite drop_app_length.
  rewrite bool_decide_true by done. eexists. split; [done |].
  apply view_app in Hv. by apply view_cons in Hv as (_ & _ & Hv).
Qed.

Ltac flatten H :=
  repeat (progress cbn [app render_statement render_label] in H
          || rewrite <- app_assoc in H).

(** The part of a statement from the arrow to the first jump target. *)
Lemma arrow_target_exact p s2 s3 l s :
  view input p (s2 ++ ["-"; ">"]%char ++ s3 ++ "L"%char :: l ++ s) ->
  is_spaces s2 -> is_spaces s3 -> is_number l -> starts_outside digits s ->
  exists p1 p2 p3 p4,
    skipSpaces input p = Ok (tt, p1) /\
    matchStr input ["-"; ">"]%char p1 = Ok (true, p2) /\
    skipSpaces input p2 = Ok (tt, p3) /\
    parseLineNumber input p3 = Ok (value l, p4) /\
    view input p4 s.
Proof.
  intros Hv H2 H3 Hl Hs.
  destruct (skipSpaces_exact _ _ _ Hv H2) as (p1 & E1 & Hv1); [compute_done |].
  pose proof (matchStr_prefix _ _ _ _ Hv1) as E2.
  apply view_app in Hv1.
  destruct (skipSpaces_exact _ _ _ Hv1 H3) as (p3 & E3 & Hv3); [compute_done |].
  destruct (parseLineNumber_exact _ _ _ Hv3 Hl Hs) as (p4 & E4 & Hv4).
  eauto 10.
Qed.

Lemma parse_statement_exact p st a c s :
  view input p (render_statement st ++ a ++ c :: s) ->
  wf_statement st -> st <> Empty -> is_spaces a ->
  c ∈ [";"%char; newline; nul] ->
  exists p', parse_statement input p = Ok (denote st, p') /\ view input p' s.
Proof.
  intros Hv Hst Hne Ha Hc.
  assert (starts_outside digits (a ++ c :: s)) as Hend.
  { apply starts_outside_app; [by apply spaces_not_digits |].
    intros Hx. revert Hc.
    repeat (apply elem_of_cons in Hx as [-> | Hx]; [compute_done |]).
    by apply elem_of_nil in Hx. }
  unfold parse_statement.
  destruct st as [r s1 s2 s3 l | r s1 s2 s3 l1 s4 s5 l2 | |].
  - (* increment *)
    destruct Hst as (Hr & H1 & H2 & H3 & Hl).
    flatten Hv.
    destruct (view_cons _ _ _ _ Hv) as (-> & _ & _).
    destruct (matchChar_exact _ _ _ ["R"%char] Hv) as (-> & Hv0); [compute_done |].
    cbn [bind]. unfold parse_register_statement.
    destruct (parseInt_exact _ _ _ Hv0 Hr) as (p1 & -> & Hv1).
    { apply starts_outside_app; [by apply spaces_not_digits | compute_done]. }
    cbn [bind].
    destruct (skipSpaces_exact _ _ _ Hv1 H1) as (p2 & -> & Hv2); [compute_done |].
    cbn [bind].
    destruct (view_cons _ _ _ _ Hv2) as (_ & -> & Hv3). cbn [bind].
    rewrite decide_True by done. cbn [bind].
    destruct (arrow_target_exact _ _ _ _ (a ++ c :: s) Hv3 H2 H3 Hl Hend)
      as (q1 & q2 & q3 & q4 & E1 & E2 & E3 & E4 & Hv4).
    rewrite E1; cbn [bind]; rewrite E2; cbn [bind negb]; rewrite E3; cbn [bind];
      rewrite E4; cbn [bind].
    destruct (parseEOL_exact _ _ _ _ Hv4 Ha Hc) as (q5 & -> & Hv5).
    cbn [bind]. eauto.
  - (* decrement *)
    destruct Hst as (Hr & H1 & H2 & H3 & Hl1 & H4 & H5 & Hl2).
    flatten Hv.
    destruct (view_cons _ _ _ _ Hv) as (-> & _ & _).
    destruct (matchChar_exact _ _ _ ["R"%char] Hv) as (-> & Hv0); [compute_done |].
    cbn [bind]. unfold parse_register_statement.
    destruct (parseInt_exact _ _ _ Hv0 Hr) as (p1 & -> & Hv1).
    { apply starts_outside_app; [by apply spaces_not_digits | compute_done]. }
    cbn [bind].
    destruct (skipSpaces_exact _ _ _ Hv1 H1) as (p2 & -> & Hv2); [compute_done |].
    cbn [bind].
    destruct (view_cons _ _ _ _ Hv2) as (_ & -> & Hv3). cbn [bind].
    rewrite decide_False by done. rewrite decide_True by done. cbn [bind].
    destruct (arrow_target_exact _ _ _ _ (s4 ++ ","%char :: s5 ++ "L"%char :: l2 ++ a ++ c :: s) Hv3 H2 H3 Hl1)
      as (q1 & q2 & q3 & q4 & E1 & E2 & E3 & E4 & Hv4).
    { apply starts_outside_app; [by apply spaces_not_digits | compute_done]. }
    rewrite E1; cbn [bind]; rewrite E2; cbn [bind negb]; rewrite E3; cbn [bind];
      rewrite E4; cbn [bind].
    destruct (skipSpaces_exact _ _ _ Hv4 H4) as (q5 & -> & Hv5); [compute_done |].
    cbn [bind].
    destruct (matchChar_exact _ _ _ [","%char] Hv5) as (-> & Hv6); [compute_done |].
    cbn [bind negb].
    destruct (skipSpaces_exact _ _ _ Hv6 H5) as (q7 & -> & Hv7); [compute_done |].
    cbn [bind].
    destruct (parseLineNumber_exact _ _ _ Hv7 Hl2 Hend) as (q8 & -> & Hv8).
    cbn [bind].
    destruct (parseEOL_exact _ _ _ _ Hv8 Ha Hc) as (q9 & -> & Hv9).
    cbn [bind]. eauto.
  - (* halt *)
    cbn [render_statement] in Hv.
    destruct (view_cons _ _ _ _ Hv) as (-> & _ & _).
    rewrite (matchChar_cons _ _ _ _ _ Hv).
    rewrite bool_decide_false by compute_done. cbn [bind].
    rewrite (matchStr_prefix _ ["H"; "A"; "L"; "T"]%char _ _ Hv). cbn [bind].
    apply (view_app _ _ ["H"; "A"; "L"; "T"]%char) in Hv.
    destruct (parseEOL_exact _ _ _ _ Hv Ha Hc) as (q5 & -> & Hv5).
    cbn [bind]. eauto.
  - done.
Qed.
End Complete.

Section CompleteLines.
Variable input : list ascii.
Implicit Types (p : Z) (s : list ascii).

Lemma render_statement_head st :
  st <> Empty ->
  exists c0 t, render_statement st = c0 :: t /\
    c0 ∉ ["L"%char; newline; tab; space].
Proof.
  intros Hst. destruct st; [| | | done]; cbn; eexists _, _;
    (split; [reflexivity | compute_done]).
Qed.

Lemma parse_prefix_exact i p lb c0 s :
  view input p (render_label lb ++ c0 :: s) ->
  match lb with
  | None => True
  | Some (n, a, b) => is_number n /\ value n = i /\ is_spaces a /\ is_spaces b
  end ->
  c0 ∉ ["L"%char; newline; tab; space] ->
  exists p', parse_prefix input i p = Ok (tt, p') /\ view input p' (c0 :: s).
Proof.
  intros Hv Hlb Hc0.
  assert (c0 ≠ "L"%char) as HL by (intros ->; apply Hc0; compute_done).
  assert (starts_outside [tab; space] (c0 :: s)) as Hsp.
  { cbn. intros Hx. apply Hc0. by do 2 apply list_elem_of_further. }
  destruct lb as [[[n a] b] |]; cbn [render_label app] in Hv.
  - destruct Hlb as (Hn & Hi & Ha & Hb).
    rewrite <- !app_assoc in Hv. cbn [app] in Hv.
    rewrite (parse_prefix_L _ _ _ _ Hv).
    destruct (parseLineNumber_exact _ _ _ _ Hv Hn) as (p1 & -> & Hv1).
    { apply starts_outside_app; [by apply spaces_not_digits | compute_done]. }
    cbn [bind]. rewrite Hi, Z.eqb_refl. cbn [negb].
    destruct (skipSpaces_exact _ _ _ _ Hv1 Ha) as (p2 & -> & Hv2);
      [compute_done |].
    cbn [bind]. destruct (view_cons _ _ _ _ Hv2) as (-> & _ & _).
    destruct (matchChar_exact _ _ _ _ [":"%char] Hv2) as (-> & Hv3);
      [compute_done |].
    cbn [bind negb]. by apply (skipSpaces_exact _ _ b).
  - rewrite (parse_prefix_none _ _ _ _ _ Hv HL). eauto.
Qed.

(** A line, without the blanks before it, read into slot [i]. *)
Lemma parse_body_exact i instr p ln s :
  view input p
    (render_label (label ln) ++ render_statement (body ln)
       ++ trail ln ++ render_end (terminator ln) ++ s) ->
  wf_line i ln ->
  exists p',
    parse_body input i instr p = Ok (set_at instr i (denote (body ln)), p') /\
    view input p' (drop (length (run [newline; tab; space] s)) s).
Proof.
  intros Hv ((_ & Hlb & Hst & Htr & Hterm & _) & Hne & Hsome).
  destruct (terminator ln) as [c |]; [| done]. cbn [render_end app] in Hv.
  destruct (render_statement_head (body ln) Hne) as (c0 & t & Hr & Hc0).
  rewrite Hr in Hv. cbn [app] in Hv.
  destruct (parse_prefix_exact i _ _ _ _ Hv Hlb Hc0) as (p1 & Hp & Hv1).
  change (c0 :: t ++ trail ln ++ c :: s)
    with ((c0 :: t) ++ trail ln ++ c :: s) in Hv1.
  rewrite <- Hr in Hv1.
  destruct (parse_statement_exact _ _ _ _ _ _ Hv1 Hst Hne Htr Hterm)
    as (p2 & Hs & Hv2).
  eexists. split.
  - apply parse_body_Ok. exists p1, (denote (body ln)), p2.
    split; [done |]. split; [done |]. split; [done |].
    by apply skipLinesAndSpaces_run.
  - by apply view_run.
Qed.

Lemma render_cons ln lines : render (ln :: lines) = render_line ln ++ render lines.
Proof. done. Qed.

Lemma render_app l1 l2 : render (l1 ++ l2) = render l1 ++ render l2.
Proof. unfold render. by rewrite map_app, concat_app. Qed.

Lemma parse_loop_exact lines filled pad p rest :
  (forall (k : nat) ln, lines !! k = Some ln ->
     wf_line (Z.of_nat (length filled + k)) ln) ->
  length pad = length lines ->
  view input p
    (drop (length (run [newline; tab; space] (render lines ++ rest)))
       (render lines ++ rest)) ->
  exists p',
    parse_loop input (length lines) (Z.of_nat (length filled))
      (filled ++ pad) p
    = Ok ((Z.of_nat (length filled + length lines),
           filled ++ map (fun ln => denote (body ln)) lines), p').
Proof.
  revert filled pad p.
  induction lines as [| ln lines IH]; intros filled pad p Hwf Hpad Hv.
  - destruct pad; [| done]. cbn. rewrite Nat.add_0_r. eauto.
  - destruct pad as [| h pad]; [done |]. injection Hpad as Hpad.
    pose proof (Hwf 0%nat ln eq_refl) as Hln. rewrite Nat.add_0_r in Hln.
    destruct (render_statement_head (body ln) (proj1 (proj2 Hln)))
      as (c0 & t & Hr & Hc0).
    assert (render (ln :: lines) ++ rest
            = lead ln ++ render_label (label ln) ++ render_statement (body ln)
                ++ trail ln ++ render_end (terminator ln)
                ++ render lines ++ rest) as HS.
    { rewrite render_cons. unfold render_line. rewrite <- !app_assoc. done. }
    assert (starts_outside [newline; tab; space]
              (render_label (label ln) ++ render_statement (body ln)
                ++ trail ln ++ render_end (terminator ln)
                ++ render lines ++ rest)) as Hout.
    { destruct (label ln) as [[[n a] b] |]; cbn [render_label app].
      - compute_done.
      - rewrite Hr. cbn. intros Hx. apply Hc0. by apply list_elem_of_further. }
    rewrite HS in Hv.
    rewrite run_exact in Hv by (done || apply Hln).
    rewrite drop_app_length in Hv.
    cbn [length parse_loop].
    assert (eof input p = false) as ->.
    { rewrite (view_eof _ _ _ Hv).
      destruct (label ln) as [[[n a] b] |]; cbn [render_label app]; [done |].
      by rewrite Hr. }
    destruct (parse_body_exact (Z.of_nat (length filled)) (filled ++ h :: pad)
                _ _ _ Hv Hln) as (p1 & -> & Hv1).
    cbn [bind].
    assert (set_at (filled ++ h :: pad) (Z.of_nat (length filled))
              (denote (body ln))
            = (filled ++ [denote (body ln)]) ++ pad) as ->.
    { unfold set_at. rewrite Nat2Z.id, <- app_assoc.
      rewrite insert_app_r_alt by lia. by rewrite Nat.sub_diag. }
    replace (Z.of_nat (length filled) + 1)
      with (Z.of_nat (length (filled ++ [denote (body ln)])))
      by (rewrite length_app; cbn; lia).
    destruct (IH (filled ++ [denote (body ln)]) pad p1) as (p' & ->);
      [| done | done |].
    { intros k ln' Hk. rewrite length_app. cbn [length].
      replace (length filled + 1 + k)%nat with (length filled + S k)%nat by lia.
      by apply Hwf. }
    exists p'. rewrite length_app. cbn [length map].
    rewrite <- app_assoc. do 3 f_equal. lia.
Qed.
End CompleteLines.

(** The first [length lines] slots of a text that starts with the lines
    [lines], whatever follows them. *)
Lemma parse_lines lines rest m :
  wf_lines lines ->
  parse (render lines ++ rest) m (length lines)
  = Ok (Program m (map (fun ln => denote (body ln)) lines)).
Proof.
  intros Hwf. unfold parse, parse_slots.
  set (input := render lines ++ rest).
  rewrite (skipLinesAndSpaces_run input 0 input) by apply view_start.
  cbn [bind].
  destruct (parse_loop_exact input lines [] (replicate (length lines) halt_instr)
              (0 + Z.of_nat (length (run [newline; tab; space] input))) rest)
    as (p' & H).
  - intros k ln Hk. by apply Hwf.
  - by rewrite length_replicate.
  - apply view_run, view_start.
  - cbn [length app Nat.add] in H. change (Z.of_nat 0) with 0 in H.
    rewrite H. done.
Qed.


(** ** The capacity scan reads the greatest references *)

Section Scan.

Lemma raise_max m s mx :
  raise m s mx = if decide (readInt s = m) then Z.max mx (result s) else mx.
Proof.
  unfold raise. case_decide; [| done].
  destruct (mx <? result s) eqn:E; [apply Z.ltb_lt in E | apply Z.ltb_ge in E]; lia.
Qed.

Lemma accumulate_nonneg v ds : 0 <= v -> 0 <= accumulate v ds.
Proof.
  revert v. induction ds as [| d ds IH]; intros v Hv; [done |].
  cbn. apply IH. unfold wrap. apply Z.mod_pos_bound. done.
Qed.

Lemma max_reference_nonneg m text : 0 <= max_reference m text.
Proof.
  unfold max_reference. induction (references m text); cbn; lia.
Qed.

Lemma marked_after_other t : marked_from Other t = true -> run digits t = [].
Proof.
  destruct t as [| c t]; [done |]. intros H. cbn in H. unfold kind_of in H.
  cbn [run]. destruct (bool_decide (c ∈ digits)) eqn:Hd; [| done].
  destruct (decide (c = "L"%char)) as [-> |]; [by vm_compute in Hd |].
  destruct (decide (c = "R"%char)) as [-> |]; [by vm_compute in Hd |].
  done.
Qed.

Lemma kind_of_cases c :
  match kind_of c with
  | Marker => c = "L"%char \/ c = "R"%char
  | Digit => c ≠ "L"%char /\ c ≠ "R"%char /\ c ∈ digits
  | Other => c ≠ "L"%char /\ c ≠ "R"%char /\ c ∉ digits
  end.
Proof.
  unfold kind_of.
  destruct (decide (c = "L"%char)); [by left |].
  destruct (decide (c = "R"%char)); [by right |].
  case_bool_decide; done.
Qed.

Lemma scan_char_digit s c :
  kind_of c = Digit ->
  scan_char s c =
    if decide (readInt s = SKIP) then s
    else Scan (readInt s)
           (wrap size_bits (wrap size_bits (result s * 10)
                            + (code c - code "0")))
           (maxReg s) (maxLoc s).
Proof.
  intros H. pose proof (kind_of_cases c) as Hc. rewrite H in Hc.
  destruct Hc as (HL & HR & Hd). unfold scan_char.
  rewrite !decide_False by done. by rewrite bool_decide_true.
Qed.

Lemma scan_char_other s c :
  kind_of c = Other ->
  scan_char s c =
    if decide (result s = 0) then s
    else Scan SKIP 0 (raise READ_REG s (maxReg s))
           (raise READ_LOC s (maxLoc s)).
Proof.
  intros H. pose proof (kind_of_cases c) as Hc. rewrite H in Hc.
  destruct Hc as (HL & HR & Hd). unfold scan_char.
  rewrite !decide_False by done. by rewrite bool_decide_false.
Qed.

Lemma max_reference_cons m c t :
  max_reference m (c :: t) =
    if decide (c = m) then Z.max (value (run digits t)) (max_reference m t)
    else max_reference m t.
Proof. unfold max_reference. cbn. by case_decide. Qed.

Lemma pending_cons m s c t :
  pending m s (c :: t) =
    if decide (readInt s = m) then
      if bool_decide (c ∈ digits) then
        accumulate
          (wrap size_bits (wrap size_bits (result s * 10)
                           + (code c - code "0")))
          (run digits t)
      else result s
    else 0.
Proof. unfold pending. cbn. case_decide; [| done]. by case_bool_decide. Qed.

Lemma scan_from prev s text :
  marked_from prev text = true ->
  (prev ≠ Digit -> result s = 0) ->
  (prev ≠ Other -> readInt s ≠ SKIP) ->
  0 <= result s -> 0 <= maxReg s -> 0 <= maxLoc s ->
  finish (fold_left scan_char text s)
  = (Z.max (maxReg s)
       (Z.max (pending READ_REG s text) (max_reference "R" text)),
     Z.max (maxLoc s)
       (Z.max (pending READ_LOC s text) (max_reference "L" text))).
Proof.
  revert prev s. induction text as [| c t IH]; intros prev s Hm H0 Hskip Hpos HmR HmL.
  - cbn. unfold finish, pending, max_reference, accumulate. rewrite !raise_max. cbn.
    repeat case_decide; f_equal; lia.
  - cbn [fold_left]. cbn [marked_from] in Hm.
    pose proof (max_reference_nonneg "R" t) as HR.
    pose proof (max_reference_nonneg "L" t) as HL.
    pose proof (accumulate_nonneg 0 (run digits t) ltac:(lia)) as Hv.
    fold (value (run digits t)) in Hv.
    rewrite !max_reference_cons, !pending_cons.
    pose proof (kind_of_cases c) as Hc.
    destruct (kind_of c) eqn:Hk.
    + (* a digit *)
      destruct Hc as (HcL & HcR & Hd).
      assert (prev ≠ Other) as Hp by (by destruct prev).
      assert (marked_from Digit t = true) as Hm' by (by destruct prev).
      rewrite scan_char_digit, decide_False by auto.
      rewrite (IH Digit); [| done | done | cbn; auto |
        cbn; apply Z.mod_pos_bound; done | done | done].
      rewrite (decide_False (P := c = "R"%char)) by done.
      rewrite (decide_False (P := c = "L"%char)) by done.
      rewrite bool_decide_true by done.
      unfold pending. cbn. done.
    + (* a marker *)
      assert (prev ≠ Digit) as Hp by (by destruct prev).
      assert (marked_from Marker t = true) as Hm' by (by destruct prev).
      assert (c ∉ digits) as Hd by (destruct Hc as [-> | ->]; compute_done).
      rewrite bool_decide_false by done. rewrite (H0 Hp).
      destruct Hc as [-> | ->]; cbn [scan_char decide]; unfold scan_char;
        cbn [decide_rel]; rewrite (H0 Hp).
      * rewrite decide_True by done.
        rewrite (IH Marker) by (cbn; auto with lia).
        unfold pending, value in *. cbn.
        rewrite (decide_False (P := "L"%char = "R"%char)) by done.
        rewrite (decide_True (P := "L"%char = "L"%char)) by done.
        repeat case_decide; try done; f_equal; lia.
      * rewrite decide_False by done. rewrite decide_True by done.
        rewrite (IH Marker) by (cbn; auto with lia).
        unfold pending, value in *. cbn.
        rewrite (decide_True (P := "R"%char = "R"%char)) by done.
        rewrite (decide_False (P := "R"%char = "L"%char)) by done.
        repeat case_decide; try done; f_equal; lia.
    + (* any other character *)
      destruct Hc as (HcL & HcR & Hd).
      assert (marked_from Other t = true) as Hm' by (by destruct prev).
      rewrite (decide_False (P := c = "R"%char)) by done.
      rewrite (decide_False (P := c = "L"%char)) by done.
      rewrite bool_decide_false by done.
      rewrite scan_char_other by done.
      destruct (decide (result s = 0)) as [Hz | Hnz].
      * rewrite (IH Other) by auto with lia.
        unfold pending. rewrite (marked_after_other _ Hm'), Hz. cbn.
        repeat case_decide; done.
      * rewrite (IH Other)
          by (cbn; rewrite ?raise_max; try case_decide; auto with lia).
        unfold pending. cbn. rewrite !raise_max.
        repeat case_decide; try congruence; f_equal; lia.
Qed.
End Scan.

(** The scan of a well marked text, on any characters. *)
Lemma getMaxArgs_is_max_reference text :
  well_marked text = true ->
  max_reference "R" text < size_max -> max_reference "L" text < size_max ->
  getMaxArgs text = (1 + max_reference "R" text, 1 + max_reference "L" text).
Proof.
  intros Hm HR HL. unfold getMaxArgs.
  pose proof (scan_from Other (Scan SKIP 0 0 0) text Hm) as H.
  unfold finish in H. cbn [maxReg maxLoc] in H.
  specialize (H ltac:(done) ltac:(done) ltac:(done) ltac:(done) ltac:(done)).
  injection H as -> ->.
  pose proof (max_reference_nonneg "R" text).
  pose proof (max_reference_nonneg "L" text).
  unfold pending. cbn [readInt]. rewrite !decide_False by done.
  unfold wrap, size_max, size_bits in *.
  rewrite !Z.mod_small by lia. f_equal; lia.
Qed.

(** ** What [parse] reads is made of lines *)

Section Sound.
Variable input : list ascii.
Implicit Types (p : Z) (s : list ascii).

Lemma skipSpaces_split p s :
  view input p s ->
  exists a s' p',
    skipSpaces input p = Ok (tt, p') /\ s = a ++ s' /\ is_spaces a /\
    view input p' s'.
Proof.
  intros Hv. eexists _, _, _. split; [by apply skipSpaces_run |].
  split; [apply (run_app_drop [tab; space]) |].
  split; [apply run_Forall | by apply view_run].
Qed.

Lemma skipLinesAndSpaces_split p s :
  view input p s ->
  exists a s' p',
    skipLinesAndSpaces input p = Ok (tt, p') /\ s = a ++ s' /\ is_blank a /\
    view input p' s'.
Proof.
  intros Hv. eexists _, _, _. split; [by apply skipLinesAndSpaces_run |].
  split; [apply (run_app_drop [newline; tab; space]) |].
  split; [apply run_Forall | by apply view_run].
Qed.

Lemma parseInt_Ok p s v p' :
  view input p s -> parseInt input p = Ok (v, p') ->
  exists ds s',
    s = ds ++ s' /\ is_number ds /\ v = value ds /\ view input p' s'.
Proof.
  intros Hv. rewrite (parseInt_run _ _ _ Hv).
  case_bool_decide as Hne; [done |]. intros [= <- <-].
  eexists _, _. split; [apply (run_app_drop digits) |].
  split; [split; [done | apply run_Forall] |].
  split; [done | by apply view_run].
Qed.

Lemma matchChar_Ok cs p s b p' :
  view input p s -> matchChar input cs p = Ok (b, p') ->
  if b then exists c s', s = c :: s' /\ c ∈ cs /\ view input p' s'
  else p' = p.
Proof.
  intros Hv. destruct s as [| c s].
  - by rewrite (matchChar_nil _ _ _ Hv).
  - rewrite (matchChar_cons _ _ _ _ _ Hv).
    case_bool_decide; intros [= <- <-]; [| done].
    destruct (view_cons _ _ _ _ Hv) as (_ & _ & Hv'). eauto.
Qed.

Lemma parseLineNumber_Ok p s v p' :
  view input p s -> parseLineNumber input p = Ok (v, p') ->
  exists ds s',
    s = "L"%char :: ds ++ s' /\ is_number ds /\ v = value ds /\
    view input p' s'.
Proof.
  intros Hv. unfold parseLineNumber.
  destruct (eof input p); [done |]. intros H.
  apply bind_Ok in H as ([m p1] & Hm & H).
  pose proof (matchChar_Ok _ _ _ _ _ Hv Hm) as Hc.
  destruct m; [| done]. destruct Hc as (c & s1 & -> & Hc & Hv1).
  apply list_elem_of_singleton in Hc as ->. cbn [negb] in H.
  destruct (parseInt_Ok _ _ _ _ Hv1 H) as (ds & s' & -> & Hds & -> & Hv').
  eauto 10.
Qed.

Lemma parseEOL_Ok p s p' :
  view input p s -> parseEOL input p = Ok (tt, p') ->
  exists a t s',
    s = a ++ render_end t ++ s' /\ is_spaces a /\
    match t with
    | Some c => c ∈ [";"%char; newline; nul]
    | None => s' = []
    end /\
    view input p' s'.
Proof.
  intros Hv. rewrite (parseEOL_view _ _ _ Hv). cbn zeta.
  pose proof (run_app_drop [tab; space] s) as Hs.
  pose proof (run_Forall [tab; space] s) as Ha.
  pose proof (view_run _ [tab; space] _ _ Hv) as Hv'.
  destruct (drop _ s) as [| c s'] eqn:Hd.
  - intros [= <-]. exists (run [tab; space] s), None, []. done.
  - case_bool_decide as Hc; [| done]. intros [= <-].
    exists (run [tab; space] s), (Some c), s'.
    split; [done |]. split; [done |]. split; [done |].
    by destruct (view_cons _ _ _ _ Hv') as (_ & _ & Hv'').
Qed.

Lemma at_view p s c :
  view input p s -> at_ input p = Ok c ->
  exists s', s = c :: s' /\ view input (p + 1) s'.
Proof.
  intros Hv Hc. destruct s as [| c' s].
  - by rewrite (view_at_nil _ _ Hv) in Hc.
  - destruct (view_cons _ _ _ _ Hv) as (_ & Hc' & Hv').
    rewrite Hc' in Hc. injection Hc as ->. eauto.
Qed.

Ltac flat :=
  repeat (progress cbn [app render_statement render_label]
          || rewrite <- app_assoc).

Local Tactic Notation "bind_in" hyp(H) "as" simple_intropattern(x) ident(E) :=
  apply bind_Ok in H as (x & E & H).

(** From the arrow to the first jump target. *)
Lemma arrow_target_Ok p s (k : Z * Z -> outcome (instruction * Z)) r :
  view input p s ->
  (let* (_, current) := skipSpaces input p in
   let* (m, current) := matchStr input ["-"; ">"]%char current in
   if negb m then Fail (Error msg_arrow)
   else
     let* (_, current) := skipSpaces input current in
     let* (loc1, current) := parseLineNumber input current in
     k (loc1, current)) = Ok r ->
  exists s2 s3 l s' p',
    s = s2 ++ ["-"; ">"]%char ++ s3 ++ "L"%char :: l ++ s' /\
    is_spaces s2 /\ is_spaces s3 /\ is_number l /\
    view input p' s' /\ k (value l, p') = Ok r.
Proof.
  intros Hv H.
  destruct (skipSpaces_split _ _ Hv) as (s2 & t2 & p2 & E2 & -> & H2 & Hv2).
  rewrite E2 in H. cbn [bind] in H.
  bind_in H as [m p3] Em. pose proof (matchStr_Ok _ _ _ _ _ _ Hv2 Em) as Hm.
  destruct m; [| done]. destruct Hm as (t3 & -> & ->). cbn [negb] in H.
  apply view_app in Hv2.
  destruct (skipSpaces_split _ _ Hv2) as (s3 & t4 & p4 & E4 & -> & H3 & Hv4).
  rewrite E4 in H. cbn [bind] in H.
  bind_in H as [l1 p5] El.
  destruct (parseLineNumber_Ok _ _ _ _ Hv4 El) as (l & s' & -> & Hl & -> & Hv5).
  exists s2, s3, l, s', p5. done.
Qed.

Lemma parse_register_statement_Ok p s ins p' :
  view input p s -> parse_register_statement input p = Ok (ins, p') ->
  exists st a t s',
    "R"%char :: s = render_statement st ++ a ++ render_end t ++ s' /\
    wf_statement st /\ st <> Empty /\ ins = denote st /\ is_spaces a /\
    match t with
    | Some c => c ∈ [";"%char; newline; nul]
    | None => s' = []
    end /\
    view input p' s'.
Proof.
  intros Hv H. unfold parse_register_statement in H.
  bind_in H as [r p1] Er.
  destruct (parseInt_Ok _ _ _ _ Hv Er) as (rd & t1 & -> & Hr & -> & Hv1).
  destruct (skipSpaces_split _ _ Hv1) as (s1 & t2 & p2 & E2 & -> & H1 & Hv2).
  rewrite E2 in H. cbn [bind] in H.
  bind_in H as c Ec. destruct (at_view _ _ _ Hv2 Ec) as (t3 & -> & Hv3).
  bind_in H as inc Einc.
  destruct (decide (c = "+"%char)) as [-> | Hplus].
  - (* increment *)
    injection Einc as <-.
    destruct (arrow_target_Ok _ _
                (fun q => let* (_, current) := parseEOL input q.2 in
                          Ok (increment (value rd) q.1, current)) _ Hv3 H)
      as (s2 & s3 & l & t4 & p4 & -> & H2 & H3 & Hl & Hv4 & H').
    cbn [fst snd] in H'. bind_in H' as [[] p5] Ee. injection H' as <- <-.
    destruct (parseEOL_Ok _ _ _ Hv4 Ee) as (a & t & s' & -> & Ha & Ht & Hv5).
    exists (Increment rd s1 s2 s3 l), a, t, s'.
    split; [by flat |]. done.
  - destruct (decide (c = "-"%char)) as [-> | Hminus]; [| done].
    injection Einc as <-.
    destruct (arrow_target_Ok _ _
                (fun q =>
                   let* (_, current) := skipSpaces input q.2 in
                   let* (m, current) := matchChar input [","%char] current in
                   if negb m then Fail (Error msg_comma)
                   else
                     let* (_, current) := skipSpaces input current in
                     let* (loc2, current) := parseLineNumber input current in
                     let* (_, current) := parseEOL input current in
                     Ok (decrement (value rd) q.1 loc2, current)) _ Hv3 H)
      as (s2 & s3 & l1 & t4 & p4 & -> & H2 & H3 & Hl1 & Hv4 & H').
    cbn [fst snd] in H'.
    destruct (skipSpaces_split _ _ Hv4) as (s4 & t5 & p5 & E5 & -> & H4 & Hv5).
    rewrite E5 in H'. cbn [bind] in H'.
    bind_in H' as [m p6] Em. pose proof (matchChar_Ok _ _ _ _ _ Hv5 Em) as Hm.
    destruct m; [| done]. destruct Hm as (c & t6 & -> & Hc & Hv6).
    apply list_elem_of_singleton in Hc as ->. cbn [negb] in H'.
    destruct (skipSpaces_split _ _ Hv6) as (s5 & t7 & p7 & E7 & -> & H5 & Hv7).
    rewrite E7 in H'. cbn [bind] in H'.
    bind_in H' as [l2v p8] El2.
    destruct (parseLineNumber_Ok _ _ _ _ Hv7 El2)
      as (l2 & t8 & -> & Hl2 & -> & Hv8).
    bind_in H' as [[] p9] Ee. injection H' as <- <-.
    destruct (parseEOL_Ok _ _ _ Hv8 Ee) as (a & t & s' & -> & Ha & Ht & Hv9).
    exists (Decrement rd s1 s2 s3 l1 s4 s5 l2), a, t, s'.
    split; [by flat |]. done.
Qed.

Lemma parse_statement_Ok p s ins p' :
  view input p s -> parse_statement input p = Ok (ins, p') ->
  exists st a t s',
    s = render_statement st ++ a ++ render_end t ++ s' /\
    wf_statement st /\ ins = denote st /\ is_spaces a /\
    match t with
    | Some c => c ∈ [";"%char; newline; nul]
    | None => s' = []
    end /\
    (st = Empty -> a = [] /\ t <> None) /\
    view input p' s'.
Proof.
  intros Hv H. unfold parse_statement in H.
  bind_in H as [r p1] Er. destruct r.
  - (* a statement on a register *)
    destruct (eof input p); [done |].
    pose proof (matchChar_Ok _ _ _ _ _ Hv Er) as (c & s1 & -> & Hc & Hv1).
    apply list_elem_of_singleton in Hc as ->.
    destruct (parse_register_statement_Ok _ _ _ _ Hv1 H)
      as (st & a & t & s' & E & Hst & Hne & -> & Ha & Ht & Hv').
    exists st, a, t, s'. done.
  - assert (p1 = p) as ->.
    { destruct (eof input p); [by injection Er |].
      by pose proof (matchChar_Ok _ _ _ _ _ Hv Er). }
    clear Er. bind_in H as [h p2] Eh.
    pose proof (matchStr_Ok _ _ _ _ _ _ Hv Eh) as Hh. destruct h.
    + (* HALT *)
      destruct Hh as (s1 & -> & ->). apply view_app in Hv.
      bind_in H as [[] p3] Ee. injection H as <- <-.
      destruct (parseEOL_Ok _ _ _ Hv Ee) as (a & t & s' & -> & Ha & Ht & Hv').
      exists Halt, a, t, s'. done.
    + (* an empty statement *)
      subst p2. bind_in H as [m p3] Em.
      pose proof (matchChar_Ok _ _ _ _ _ Hv Em) as Hm.
      destruct m; [| done]. destruct Hm as (c & s' & -> & Hc & Hv').
      injection H as <- <-.
      exists Empty, [], (Some c), s'.
      split; [done |]. split; [done |]. split; [done |].
      split; [apply Forall_nil_2 |]. done.
Qed.

Lemma parse_prefix_Ok i p s p' :
  view input p s -> parse_prefix input i p = Ok (tt, p') ->
  exists lb s',
    s = render_label lb ++ s' /\
    match lb with
    | None => True
    | Some (n, a, b) =>
        is_number n /\ value n = i /\ is_spaces a /\ is_spaces b
    end /\
    view input p' s'.
Proof.
  intros Hv H. unfold parse_prefix in H.
  bind_in H as l El. destruct l.
  - bind_in H as [n p1] En.
    destruct (parseLineNumber_Ok _ _ _ _ Hv En) as (ds & t1 & -> & Hn & -> & Hv1).
    destruct (value ds =? i) eqn:Hi; [| done]. apply Z.eqb_eq in Hi.
    cbn [negb] in H.
    destruct (skipSpaces_split _ _ Hv1) as (a & t2 & p2 & E2 & -> & Ha & Hv2).
    rewrite E2 in H. cbn [bind] in H.
    destruct (eof input p2); [done |].
    bind_in H as [m p3] Em. pose proof (matchChar_Ok _ _ _ _ _ Hv2 Em) as Hm.
    destruct m; [| done]. destruct Hm as (c & t3 & -> & Hc & Hv3).
    apply list_elem_of_singleton in Hc as ->. cbn [negb] in H.
    destruct (skipSpaces_split _ _ Hv3) as (b & s' & p4 & E4 & -> & Hb & Hv4).
    rewrite E4 in H. injection H as <-.
    exists (Some (ds, a, b)), s'. split; [by flat |]. done.
  - injection H as <-. exists None, s. done.
Qed.
End Sound.

Section SoundLines.
Variable input : list ascii.
Implicit Types (p : Z) (s : list ascii).

Lemma parse_body_sound i instr p s instr' p' ld :
  view input p s -> is_blank ld ->
  parse_body input i instr p = Ok (instr', p') ->
  exists ln blanks s',
    lead ln = ld /\
    ld ++ s = render_line ln ++ blanks ++ s' /\
    accepted i ln /\
    instr' = set_at instr i (denote (body ln)) /\
    is_blank blanks /\
    (terminator ln = None -> blanks ++ s' = []) /\
    view input p' s'.
Proof.
  intros Hv Hld H.
  apply parse_body_Ok in H as (p1 & ins & p2 & Hp & Hs & -> & Hk).
  destruct (parse_prefix_Ok _ _ _ _ _ Hv Hp) as (lb & s1 & -> & Hlb & Hv1).
  destruct (parse_statement_Ok _ _ _ _ _ Hv1 Hs)
    as (st & a & t & s2 & -> & Hst & -> & Ha & Ht & He & Hv2).
  destruct (skipLinesAndSpaces_split _ _ _ Hv2)
    as (blanks & s' & p3 & Hk' & -> & Hb & Hv3).
  rewrite Hk' in Hk. injection Hk as <-.
  exists (Line ld lb st a t), blanks, s'.
  split; [done |].
  split; [unfold render_line; cbn; by rewrite <- !app_assoc |].
  split.
  { unfold accepted. cbn. split; [done |]. split; [done |].
    split; [done |]. split; [done |]. split; [by destruct t | done]. }
  split; [done |]. split; [done |]. split; [| done].
  cbn. intros ->. done.
Qed.

Lemma parse_loop_sound todo :
  forall i filled pad p s ld i' instr' p',
    view input p s -> is_blank ld ->
    i = Z.of_nat (length filled) -> length pad = todo ->
    parse_loop input todo i (filled ++ pad) p = Ok ((i', instr'), p') ->
    exists lines tail rest,
      ld ++ s = render lines ++ tail ++ rest /\
      is_blank tail /\
      i' = i + Z.of_nat (length lines) /\
      (length lines <= todo)%nat /\
      (forall (k : nat) ln, lines !! k = Some ln ->
         accepted (i + Z.of_nat k) ln /\
         (terminator ln = None ->
            render (drop (S k) lines) ++ tail ++ rest = [])) /\
      instr' = filled
                 ++ map (fun ln => denote (body ln)) lines
                 ++ drop (length lines) pad /\
      ((length lines < todo)%nat -> rest = []).
Proof.
  induction todo as [| todo IH];
    intros i filled pad p s ld i' instr' p' Hv Hld Hi Hpad H.
  - destruct pad; [| done]. cbn in H. injection H as <- <- <-.
    exists [], ld, s. cbn. rewrite Z.add_0_r.
    split; [done |]. split; [done |]. split; [done |]. split; [lia |].
    split; [done |]. split; [done | lia].
  - destruct pad as [| h pad]; [done |]. injection Hpad as Hpad.
    cbn [parse_loop] in H. rewrite (view_eof _ _ _ Hv) in H.
    destruct s as [| c s].
    + cbn in H. injection H as <- <- <-.
      exists [], ld, []. cbn. rewrite Z.add_0_r.
      split; [done |]. split; [done |]. split; [done |]. split; [lia |].
      split; [done |]. done.
    + rewrite bool_decide_false in H by done.
      apply bind_Ok in H as ([instr1 p1] & Hb & H).
      destruct (parse_body_sound _ _ _ _ _ _ ld Hv Hld Hb)
        as (ln & blanks & s1 & Hlead & HS & Hacc & Hi1 & Hbl & Hnone & Hv1).
      subst instr1.
      assert (set_at (filled ++ h :: pad) i (denote (body ln))
              = (filled ++ [denote (body ln)]) ++ pad) as Hset.
      { unfold set_at. rewrite Hi, Nat2Z.id, <- app_assoc.
        rewrite insert_app_r_alt by lia. by rewrite Nat.sub_diag. }
      rewrite Hset in H.
      assert (i + 1 = Z.of_nat (length (filled ++ [denote (body ln)]))) as Hi'
        by (rewrite length_app; cbn; lia).
      destruct (IH (i + 1) _ _ _ _ blanks _ _ _ Hv1 Hbl Hi' Hpad H)
        as (lines & tail & rest & HS' & Htail & Ei & Hlen & Hlines & Ein & Hrest).
      subst i' instr'.
      exists (ln :: lines), tail, rest.
      split; [rewrite HS, HS'; cbn; by rewrite <- !app_assoc |].
      split; [done |]. split; [cbn [length]; lia |].
      split; [cbn [length]; lia |]. split; [| split].
      * intros [| k] ln' Hk.
        -- injection Hk as <-. rewrite Z.add_0_r. split; [done |].
           intros Ht. change (drop 1 (ln :: lines)) with lines.
           rewrite <- HS'. by apply Hnone.
        -- cbn in Hk. destruct (Hlines k ln' Hk) as [Ha Hn].
           replace (i + Z.of_nat (S k)) with (i + 1 + Z.of_nat k) by lia.
           done.
      * cbn. by rewrite <- !app_assoc.
      * cbn [length]. intros. apply Hrest. lia.
Qed.
End SoundLines.

(** Whenever [parse] returns a program, the text is made of lines that it
    accepts, one for each slot it filled. *)
Lemma parse_sound input m n prog :
  parse input m n = Ok prog ->
  exists lines tail rest,
    input = render lines ++ tail ++ rest /\
    is_blank tail /\
    (length lines <= n)%nat /\
    (forall (k : nat) ln, lines !! k = Some ln ->
       accepted (Z.of_nat k) ln /\
       (terminator ln = None ->
          render (drop (S k) lines) ++ tail ++ rest = [])) /\
    instructions prog
      = map (fun ln => denote (body ln)) lines
          ++ replicate (n - length lines) halt_instr /\
    ((length lines < n)%nat -> rest = []).
Proof.
  unfold parse, parse_slots. intros H.
  apply bind_Ok in H as ([filled instr] & H & [= <-]).
  apply bind_Ok in H as ([[] p0] & H0 & H).
  apply bind_Ok in H as ([[filled' instr'] p'] & H & [= -> ->]).
  destruct (skipLinesAndSpaces_split input 0 input (view_start _))
    as (ld & s & p1 & E & Hin & Hld & Hv).
  rewrite E in H0. injection H0 as <-.
  destruct (parse_loop_sound input n 0 [] _ _ s ld _ _ _ Hv Hld eq_refl
              (length_replicate _ _) H)
    as (lines & tail & rest & HS & Htail & _ & Hlen & Hlines & Ein & Hrest).
  subst instr.
  exists lines, tail, rest.
  split; [congruence |]. split; [done |]. split; [done |].
  split; [| split; [| done]].
  - intros k ln Hk. destruct (Hlines k ln Hk) as [Ha Hn].
    by rewrite Z.add_0_l in Ha.
  - cbn. by rewrite drop_replicate.
Qed.

Example addition_text_conforms : Grammar.conforms addition_text = true.
Proof. vm_compute. reflexivity. Qed.

Example missing_arrow_violates : Grammar.conforms "L0: R1+ L1" = false.
Proof. vm_compute. reflexivity. Qed.

Example spaced_text_conforms :
  Grammar.conforms "HALT; ;
L2: R0- -> L1 , L2 ;R3+->L2" = true.
Proof. vm_compute. reflexivity. Qed.

(** White space before a statement without label is outside the grammar
    of the specification; [parse] skips it. *)
Example indented_statement_accepted :
  Grammar.conforms " HALT" = false /\
  make 1 1 " HALT" = Ok (Program 1 [halt_instr]).
Proof. split; vm_compute; reflexivity. Qed.

(** Claim C6 as stated fails on a text that violates the grammar after the
    last slot: the second line lacks the arrow, and at capacity 1 [parse]
    returns the program of the first line. *)
Lemma malformed_trailing_line_accepted :
  Grammar.conforms malformed_second_line = false /\
  make 2 1 malformed_second_line = Ok (Program 2 [halt_instr]).
Proof. split; vm_compute; reflexivity. Qed.

(** ** Texts that [parse] accepts are well marked *)

Section Marked.
Implicit Types (c : ascii) (t a : list ascii) (prev : kind).

Lemma kind_of_blank c : c ∈ [newline; tab; space] -> kind_of c = Other.
Proof.
  intros H. repeat (apply elem_of_cons in H as [-> | H]; [done |]).
  by apply elem_of_nil in H.
Qed.

Lemma kind_of_space c : c ∈ [tab; space] -> kind_of c = Other.
Proof. intros H. apply kind_of_blank. by apply list_elem_of_further. Qed.

Lemma kind_of_terminator c : c ∈ [";"%char; newline; nul] -> kind_of c = Other.
Proof.
  intros H. repeat (apply elem_of_cons in H as [-> | H]; [done |]).
  by apply elem_of_nil in H.
Qed.

Lemma kind_of_digit c : c ∈ digits -> kind_of c = Digit.
Proof.
  intros H. repeat (apply elem_of_cons in H as [-> | H]; [done |]).
  by apply elem_of_nil in H.
Qed.

Lemma marked_other prev c t :
  kind_of c = Other -> marked_from prev (c :: t) = marked_from Other t.
Proof. intros H. cbn. rewrite H. by destruct prev. Qed.

Lemma marked_others prev a c t :
  Forall (fun x => kind_of x = Other) a -> kind_of c = Other ->
  marked_from prev (a ++ c :: t) = marked_from Other t.
Proof.
  intros Ha Hc. revert prev. induction Ha as [| x a Hx Ha IH]; intros prev.
  - by apply marked_other.
  - cbn [app]. rewrite (marked_other _ _ _ Hx). apply IH.
Qed.

Lemma marked_others_skip a t :
  Forall (fun x => kind_of x = Other) a ->
  marked_from Other (a ++ t) = marked_from Other t.
Proof.
  intros Ha. induction Ha as [| x a Hx Ha IH]; [done |].
  cbn [app]. by rewrite (marked_other _ _ _ Hx).
Qed.

Lemma marked_others_end prev a :
  Forall (fun x => kind_of x = Other) a -> marked_from prev a = true.
Proof.
  intros Ha. revert prev. induction Ha as [| x a Hx Ha IH]; intros prev; [done |].
  rewrite (marked_other _ _ _ Hx). apply IH.
Qed.

Lemma marked_digits_more ds t :
  Forall (fun c => c ∈ digits) ds ->
  marked_from Digit (ds ++ t) = marked_from Digit t.
Proof.
  intros Hds. induction Hds as [| d ds Hd Hds IH]; [done |].
  cbn. by rewrite (kind_of_digit _ Hd).
Qed.

Lemma marked_number ds t :
  is_number ds -> marked_from Marker (ds ++ t) = marked_from Digit t.
Proof.
  intros [Hne Hds]. destruct Hds as [| d ds Hd Hds]; [done |].
  cbn. rewrite (kind_of_digit _ Hd). by apply marked_digits_more.
Qed.

Lemma spaces_others a : is_spaces a -> Forall (fun x => kind_of x = Other) a.
Proof. intros H. eapply Forall_impl; [exact H |]. apply kind_of_space. Qed.

Lemma blank_others a : is_blank a -> Forall (fun x => kind_of x = Other) a.
Proof. intros H. eapply Forall_impl; [exact H |]. apply kind_of_blank. Qed.

(** A reference: a marker, after something that is no digit, and its
    number. *)
Lemma marked_reference c ds t :
  kind_of c = Marker -> is_number ds ->
  marked_from Other (c :: ds ++ t) = marked_from Digit t.
Proof. intros Hc Hds. cbn. rewrite Hc. by apply marked_number. Qed.

Lemma marked_statement st t :
  wf_statement st ->
  marked_from Other (render_statement st ++ t) = marked_from (ends_with st) t.
Proof.
  destruct st as [r s1 s2 s3 l | r s1 s2 s3 l1 s4 s5 l2 | |]; cbn [render_statement ends_with].
  - intros (Hr & H1 & H2 & H3 & Hl).
    repeat (rewrite <- app_assoc || cbn [app]).
    rewrite marked_reference by done.
    rewrite (marked_others _ s1) by (done || by apply spaces_others).
    rewrite (marked_others _ s2) by (done || by apply spaces_others).
    rewrite marked_other by done.
    rewrite marked_others_skip by (by apply spaces_others).
    by rewrite marked_reference.
  - intros (Hr & H1 & H2 & H3 & Hl1 & H4 & H5 & Hl2).
    repeat (rewrite <- app_assoc || cbn [app]).
    rewrite marked_reference by done.
    rewrite (marked_others _ s1) by (done || by apply spaces_others).
    rewrite (marked_others _ s2) by (done || by apply spaces_others).
    rewrite marked_other by done.
    rewrite marked_others_skip by (by apply spaces_others).
    rewrite marked_reference by done.
    rewrite (marked_others _ s4) by (done || by apply spaces_others).
    rewrite marked_others_skip by (by apply spaces_others).
    by rewrite marked_reference.
  - done.
  - done.
Qed.

Lemma marked_label lb i t :
  match lb with
  | None => True
  | Some (n, a, b) => is_number n /\ value n = i /\ is_spaces a /\ is_spaces b
  end ->
  marked_from Other (render_label lb ++ t) = marked_from Other t.
Proof.
  destruct lb as [[[n a] b] |]; [| done]. intros (Hn & _ & Ha & Hb).
  cbn [render_label]. repeat (rewrite <- app_assoc || cbn [app]).
  rewrite marked_reference by done.
  rewrite (marked_others _ a) by (done || by apply spaces_others).
  by rewrite marked_others_skip by (by apply spaces_others).
Qed.

(** A line, up to the spaces before its terminator. *)
Lemma marked_line_body i ln t :
  accepted i ln ->
  marked_from Other
    (lead ln ++ render_label (label ln) ++ render_statement (body ln) ++ t)
  = marked_from (ends_with (body ln)) t.
Proof.
  intros (Hld & Hlb & Hst & _).
  rewrite marked_others_skip by (by apply blank_others).
  rewrite (marked_label _ i) by done.
  by apply marked_statement.
Qed.

Lemma marked_line i ln c t :
  accepted i ln -> terminator ln = Some c ->
  marked_from Other (render_line ln ++ t) = marked_from Other t.
Proof.
  intros Ha Ht. pose proof Ha as (_ & _ & _ & Htr & Hc & _).
  rewrite Ht in Hc. unfold render_line. rewrite Ht.
  repeat (rewrite <- app_assoc || cbn [app render_end]).
  rewrite (marked_line_body i) by done.
  apply marked_others; [by apply spaces_others | by apply kind_of_terminator].
Qed.

Lemma marked_last_line i ln :
  accepted i ln -> terminator ln = None ->
  marked_from Other (render_line ln) = true.
Proof.
  intros Ha Ht. pose proof Ha as (_ & _ & _ & Htr & _).
  unfold render_line. rewrite Ht. cbn [render_end]. rewrite app_nil_r.
  rewrite (marked_line_body i) by done.
  apply marked_others_end. by apply spaces_others.
Qed.

(** The text of lines that [parse] accepts, the last of which alone may
    lack a terminator, followed by blanks. *)
Lemma marked_lines lines tail :
  (forall (k : nat) ln, lines !! k = Some ln ->
     (exists i, accepted i ln) /\
     (terminator ln = None -> render (drop (S k) lines) ++ tail = [])) ->
  is_blank tail ->
  well_marked (render lines ++ tail) = true.
Proof.
  unfold well_marked. intros Hlines Htail.
  induction lines as [| ln lines IH].
  - cbn. apply marked_others_end. by apply blank_others.
  - destruct (Hlines 0%nat ln eq_refl) as [[i Ha] Hnone].
    rewrite render_cons. destruct (terminator ln) as [c |] eqn:Ht.
    + rewrite <- app_assoc. rewrite (marked_line i _ c) by done.
      apply IH. intros k ln' Hk. apply (Hlines (S k) ln' Hk).
    + change (drop 1 (ln :: lines)) with lines in Hnone.
      rewrite <- app_assoc, (Hnone eq_refl), app_nil_r.
      by apply (marked_last_line i).
Qed.
End Marked.

Section ReferenceBounds.
Implicit Types (m c : ascii) (t a ds : list ascii).

Lemma max_reference_app m a t :
  max_reference m t <= max_reference m (a ++ t).
Proof.
  induction a as [| c a IH]; [done |]. cbn [app].
  rewrite max_reference_cons. case_decide; lia.
Qed.

Lemma max_reference_here m ds t :
  Forall (fun c => c ∈ digits) ds -> starts_outside digits t ->
  value ds <= max_reference m (m :: ds ++ t).
Proof.
  intros Hds Ht. rewrite max_reference_cons, decide_True by done.
  rewrite run_exact by done. lia.
Qed.

(** A number that follows the marker [m] somewhere in a text is at most
    the greatest of them. *)
Lemma reference_bound m a ds t :
  is_number ds -> starts_outside digits t ->
  value ds <= max_reference m (a ++ m :: ds ++ t).
Proof.
  intros [_ Hds] Ht. etrans; [by apply (max_reference_here m) |].
  apply max_reference_app.
Qed.

Lemma starts_outside_spaces a c t :
  is_spaces a -> c ∉ digits -> starts_outside digits (a ++ c :: t).
Proof. intros Ha Hc. apply starts_outside_app; [by apply spaces_not_digits | done]. Qed.

(** After the spaces that end a line comes no digit, when what follows is
    the text of further lines. *)
Lemma starts_outside_end a e t :
  is_spaces a ->
  match e with
  | Some c => c ∈ [";"%char; newline; nul]
  | None => t = []
  end ->
  starts_outside digits (a ++ render_end e ++ t).
Proof.
  intros Ha He. destruct e as [c |]; cbn [render_end app].
  - apply starts_outside_spaces; [done |]. intros Hd. revert He.
    repeat (apply elem_of_cons in Hd as [-> | Hd]; [compute_done |]).
    by apply elem_of_nil in Hd.
  - subst t. rewrite app_nil_r. destruct Ha as [| x a Hx _]; [done |].
    cbn. intros Hd. revert Hx.
    repeat (apply elem_of_cons in Hd as [-> | Hd]; [compute_done |]).
    by apply elem_of_nil in Hd.
Qed.

(** The numbers of a statement are at most the greatest references of a
    text that holds it. *)
Lemma statement_fits st a e pre t :
  wf_statement st -> is_spaces a ->
  match e with
  | Some c => c ∈ [";"%char; newline; nul]
  | None => t = []
  end ->
  let text := pre ++ render_statement st ++ a ++ render_end e ++ t in
  fits (denote st) (1 + max_reference "R" text, 1 + max_reference "L" text).
Proof.
  intros Hst Ha He text. subst text.
  pose proof (starts_outside_end a e t Ha He) as Hend.
  destruct st as [r s1 s2 s3 l | r s1 s2 s3 l1 s4 s5 l2 | |];
    cbn [render_statement denote]; unfold fits; cbn; [| | done | done].
  - destruct Hst as (Hr & H1 & H2 & H3 & Hl). split.
    + repeat (rewrite <- app_assoc || cbn [app]).
      pose proof (reference_bound "R" pre r
                    (s1 ++ "+"%char :: s2 ++ "-"%char :: ">"%char :: s3
                       ++ "L"%char :: l ++ a ++ render_end e ++ t) Hr) as H.
      specialize (H ltac:(apply starts_outside_spaces; [done | compute_done])). lia.
    + pose proof (reference_bound "L"
                    (pre ++ "R"%char :: r ++ s1 ++ "+"%char :: s2
                       ++ "-"%char :: ">"%char :: s3)
                    l (a ++ render_end e ++ t) Hl Hend) as H.
      repeat (rewrite <- app_assoc in H || cbn [app] in H).
      repeat (rewrite <- app_assoc || cbn [app]). lia.
  - destruct Hst as (Hr & H1 & H2 & H3 & Hl1 & H4 & H5 & Hl2).
    split; [| split].
    + repeat (rewrite <- app_assoc || cbn [app]).
      pose proof (reference_bound "R" pre r
                    (s1 ++ "-"%char :: s2 ++ "-"%char :: ">"%char :: s3
                       ++ "L"%char :: l1 ++ s4 ++ ","%char :: s5
                       ++ "L"%char :: l2 ++ a ++ render_end e ++ t) Hr) as H.
      specialize (H ltac:(apply starts_outside_spaces; [done | compute_done])). lia.
    + pose proof (reference_bound "L"
                    (pre ++ "R"%char :: r ++ s1 ++ "-"%char :: s2
                       ++ "-"%char :: ">"%char :: s3)
                    l1 (s4 ++ ","%char :: s5 ++ "L"%char :: l2
                          ++ a ++ render_end e ++ t) Hl1) as H.
      specialize (H ltac:(apply starts_outside_spaces; [done | compute_done])).
      repeat (rewrite <- app_assoc in H || cbn [app] in H).
      repeat (rewrite <- app_assoc || cbn [app]). lia.
    + pose proof (reference_bound "L"
                    (pre ++ "R"%char :: r ++ s1 ++ "-"%char :: s2
                       ++ "-"%char :: ">"%char :: s3
                       ++ "L"%char :: l1 ++ s4 ++ ","%char :: s5)
                    l2 (a ++ render_end e ++ t) Hl2 Hend) as H.
      repeat (rewrite <- app_assoc in H || cbn [app] in H).
      repeat (rewrite <- app_assoc || cbn [app]). lia.
Qed.

Lemma render_lookup lines (k : nat) ln :
  lines !! k = Some ln ->
  render lines
  = render (take k lines) ++ render_line ln ++ render (drop (S k) lines).
Proof.
  intros Hk. rewrite <- (take_drop_middle lines k ln Hk) at 1.
  rewrite render_app, render_cons. done.
Qed.
End ReferenceBounds.

(** *** Numbers as they are written *)

Lemma digit_code c : c ∈ digits -> 0 <= code c - code "0" <= 9.
Proof.
  intros H.
  repeat (apply elem_of_cons in H as [-> | H];
          [vm_compute; split; discriminate |]).
  by apply elem_of_nil in H.
Qed.

Lemma decimal_from_nonneg ds : forall r,
  Forall (fun c => c ∈ digits) ds -> 0 <= r -> 0 <= decimal_from r ds.
Proof.
  induction ds as [| c ds IH]; intros r Hds Hr; [done |].
  apply Forall_cons in Hds as [Hc Hds]. cbn. apply IH; [done |].
  pose proof (digit_code c Hc). lia.
Qed.

(** A number below [2^64] is read as it is written. *)
Lemma value_written ds :
  Forall (fun c => c ∈ digits) ds -> decimal ds < 2 ^ 64 ->
  value ds = decimal ds.
Proof.
  intros Hds Hlt. rewrite value_decimal. apply Z.mod_small.
  split; [by apply decimal_from_nonneg | done].
Qed.

Lemma max_reference_written m text :
  max_written m text < 2 ^ 64 -> max_reference m text = max_written m text.
Proof.
  induction text as [| c t IH]; [done |].
  rewrite max_reference_cons. unfold max_written in *. cbn [written].
  destruct (decide (c = m)) as [-> | Hc]; [| exact IH].
  cbn [foldr]. intros H.
  rewrite value_written; [| apply run_Forall | lia].
  rewrite IH by lia. done.
Qed.







(** The statement without arrow is rejected at every capacity but 0. *)
Lemma missing_arrow_rejected m n :
  make m (S n) missing_arrow = Fail (Error msg_arrow).
Proof.
  unfold make. eapply (parse_fails_in_slot _ m (S n) 0 _ 0).
  - apply reaches_first. vm_compute. reflexivity.
  - lia.
  - vm_compute. reflexivity.
  - vm_compute. reflexivity.
Qed.

(** Claim C6, as the code has it.  The statement [L0: R1+ L1], which lacks
    the arrow, makes [parse] fail with the error "expected ->" at every
    capacity but 0; and for every text, [parse] returns a program only when
    the text is made of lines that it accepts (the grammar, where a NUL
    ends a line too, blank lines and the white space before a line are
    skipped, and the number of every label is the index of its slot modulo
    [2^64]) up to the last slot it fills: a text that is not makes [parse]
    fail, and a failure leaves no program, partial or not. *)
Theorem parse_returns_program_only_for_lines input m n prog :
  parse input m n = Ok prog ->
  made_of_lines input n prog /\
  forall m' n', make m' (S n') missing_arrow = Fail (Error msg_arrow).
Proof.
  intros H. split; [| apply missing_arrow_rejected].
  destruct (parse_sound _ _ _ _ H)
    as (lines & tail & rest & Hin & Htail & Hlen & Hlines & Hprog & Hrest).
  exists lines, tail, rest.
  split; [done |]. split; [done |]. split; [done |].
  split; [| by split].
  intros k ln Hk. destruct (Hlines k ln Hk) as [Ha Hend].
  split; [done |]. split; [| done].
  intros ds a b Hlb. destruct Ha as (_ & Hl & _).
  rewrite Hlb in Hl. destruct Hl as (_ & Hval & _).
  by rewrite <- value_decimal.
Qed.

(** The example text, at capacity 5. *)
Lemma parse_returns_program_only_for_lines_witness :
  make 3 5 addition_text = Ok addition /\
  made_of_lines (list_ascii_of_string addition_text) 5 addition.
Proof.
  assert (make 3 5 addition_text = Ok addition) as H
    by (vm_compute; reflexivity).
  split; [exact H |].
  exact (proj1 (parse_returns_program_only_for_lines _ 3 5 addition H)).
Defined.


(** Claim C7 as stated fails on a blank line: the second line of the text
    is blank, and slot 1 holds the instruction of the third line, not
    Halt. *)
Lemma blank_line_takes_no_slot :
  make 1 3 blank_second_line
  = Ok (Program 1 [increment 0 1; increment 0 0; halt_instr]) /\
  at_ [increment 0 1; increment 0 0; halt_instr] 1 <> Ok halt_instr.
Proof. split; [vm_compute; reflexivity | vm_compute; discriminate]. Qed.

(** An empty statement ended by [;] in slot 0. *)
Lemma empty_statement_is_halt_witness :
  let input := list_ascii_of_string empty_first_statement in
  parse_body input 0 (replicate 2 halt_instr) 0
  = Ok ([halt_instr; halt_instr], 1).
Proof.
  intros input.
  refine (proj1 (empty_statement_is_halt input 0 (replicate 2 halt_instr) 0 0
                   ";"%char (list_ascii_of_string "R0+ -> L1") _ _ _ _)).
  - vm_compute. reflexivity.
  - split; [vm_compute; intuition discriminate | reflexivity].
  - compute_done.
  - cbn. lia.
Defined.


(** A decrement of register 0 holding 5, with 8-bit registers. *)
Lemma decrement_step_witness :
  exists c',
    exec_body 8 (Config (Program 1 [decrement 0 1 1]) [5] false 0) = Ok c' /\
    values c' = [4] /\ loc c' = 1.
Proof.
  destruct (decrement_step 8 (Config (Program 1 [decrement 0 1 1]) [5] false 0)
              (decrement 0 1 1) 5)
    as (c' & He & _ & Hpos & _).
  - reflexivity.
  - reflexivity.
  - repeat constructor; cbn; lia.
  - reflexivity.
  - exists c'. split; [exact He |].
    destruct (Hpos ltac:(lia)) as (Hv & _ & Hl). split; [| exact Hl].
    rewrite Hv. reflexivity.
Defined.

(** An increment of register 1 of three. *)
Lemma step_frame_witness :
  let c := Config (Program 3 [increment 1 0]) [7; 8; 9] false 0 in
  let c' := Config (Program 3 [increment 1 0]) [7; 9; 9] false 0 in
  exec_body 8 c = Ok c' /\
  forall k : nat, k <> 1%nat -> values c' !! k = values c !! k.
Proof.
  intros c c'.
  assert (exec_body 8 c = Ok c') as H by reflexivity.
  split; [exact H |].
  destruct (step_frame 8 c c' H) as (ins & Hi & _ & _ & Hk & _).
  assert (ins = increment 1 0) as ->
    by (vm_compute in Hi; injection Hi as <-; reflexivity).
  exact Hk.
Defined.

(** * Further properties of the code

    Properties of [exec], of the parser and of [generate] beyond those of
    the specification: what they do on inputs at the bounds, the errors of
    [parse] one by one, and how capacities and texts go together. *)

(** ** Runs that stay in range *)

Lemma init_values_length w n args :
  (length args <= n)%nat -> length (init_values w n args) = n.
Proof.
  intros H. unfold init_values.
  rewrite length_app, length_map, length_replicate. lia.
Qed.

Lemma at_nil {A} k : at_ (@nil A) k = Fail OutOfRange.
Proof. unfold at_. by case_decide. Qed.

Lemma set_at_length {A} (a : list A) k x : length (set_at a k x) = length a.
Proof. unfold set_at. apply length_insert. Qed.

Lemma overrun_inside p l h :
  0 <= l < instrCount p -> overrun p l h = h.
Proof.
  intros H. unfold overrun.
  destruct (instrCount p <? l) eqn:E; [apply Z.ltb_lt in E; lia | done].
Qed.

Lemma closed_at p l ins :
  closed p -> at_ (instructions p) l = Ok ins ->
  in_range (Z.of_nat (maxRegisters p)) (instrCount p) ins.
Proof.
  intros Hc H. apply at_Ok in H as [_ H].
  unfold closed in Hc. rewrite Forall_lookup in Hc. eauto.
Qed.

Lemma exec_body_inside w p c :
  closed p -> inside p c -> halt c = false ->
  exists c', exec_body w c = Ok c' /\ inside p c'.
Proof.
  intros Hc (Hs & Hl & Hloc) Hh. specialize (Hloc Hh).
  destruct c as [s vs h l]. cbn in Hs, Hl, Hloc, Hh. subst s h.
  destruct (at_in_range (instructions p) l) as [ins Hins]; [exact Hloc |].
  pose proof (closed_at _ _ _ Hc Hins) as Hr.
  unfold in_range in Hr. unfold inside.
  destruct (type ins) eqn:Et.
  - eexists. split; [eapply exec_body_HALT; eauto |]. done.
  - destruct Hr as [Hreg Hl1].
    destruct (at_in_range vs (currentRegister ins)) as [v Hv]; [lia |].
    eexists. split; [eapply exec_body_INCR; eauto |].
    cbn. rewrite overrun_inside by exact Hl1.
    by rewrite set_at_length.
  - destruct Hr as (Hreg & Hl1 & Hl2).
    destruct (at_in_range vs (currentRegister ins)) as [v Hv]; [lia |].
    destruct (decide (0 < v)) as [Hp | Hp].
    + eexists. split; [eapply exec_body_DECR_pos; eauto |].
      cbn. rewrite overrun_inside by exact Hl1.
      by rewrite set_at_length.
    + eexists. split; [eapply exec_body_DECR_zero; eauto; lia |].
      cbn. rewrite overrun_inside by exact Hl2. done.
Qed.

Lemma exec_loop_inside w p fuel : forall c r,
  closed p -> (0 < maxRegisters p)%nat -> inside p c ->
  exec_loop w fuel c = Some r ->
  exists c' v, inside p c' /\ halt c' = true /\
    at_ (values c') 0 = Ok v /\ r = Ok v.
Proof.
  induction fuel as [| fuel IH]; intros c r Hc Hm Hi H.
  - cbn in H. destruct (halt c) eqn:Hh; [| done].
    destruct (at_in_range (values c) 0) as [v Hv];
      [destruct Hi as (_ & Hl & _); lia |].
    exists c, v. repeat split; try apply Hi; try done. congruence.
  - cbn in H. destruct (halt c) eqn:Hh.
    + destruct (at_in_range (values c) 0) as [v Hv];
        [destruct Hi as (_ & Hl & _); lia |].
      exists c, v. repeat split; try apply Hi; try done. congruence.
    + destruct (exec_body_inside w p c Hc Hi Hh) as (c' & E & Hi').
      rewrite E in H. eauto.
Qed.

Lemma runs_regs_ok w n c c' :
  0 <= w -> runs w n c c' -> regs_ok w (values c) -> regs_ok w (values c').
Proof.
  intros Hw H. induction H as [| n c c1 c2 Hh E _ IH]; [done |].
  intros Hr. apply IH. eapply exec_body_regs_ok; eauto.
Qed.

Lemma exec_body_self_length w c c' :
  exec_body w c = Ok c' ->
  self c' = self c /\ length (values c') = length (values c).
Proof.
  intros H. apply exec_body_inv in H as (ins & _ & H).
  destruct (type ins).
  - by subst c'.
  - destruct H as (v & _ & ->). cbn. by rewrite set_at_length.
  - destruct H as (v & _ & ->).
    destruct (0 <? v); cbn; by rewrite ?set_at_length.
Qed.

(** The first state of [exec] is one in which nothing is read outside the
    arrays. *)
Lemma init_inside w p args :
  instructions p ≠ [] -> (length args <= maxRegisters p)%nat ->
  inside p (Config p (init_values w (maxRegisters p) args) false 0).
Proof.
  intros Hne Ha. split; [done | split]; cbn.
  - by apply init_values_length.
  - intros _. unfold instrCount. destruct (instructions p); [done |].
    cbn [length]. lia.
Qed.

(** What the loop returns is the value of a register. *)
Lemma exec_loop_regs_ok w fuel : forall c r,
  0 <= w -> regs_ok w (values c) -> exec_loop w fuel c = Some (Ok r) ->
  0 <= r < 2 ^ w.
Proof.
  induction fuel as [| fuel IH]; intros c r Hw Hr H; cbn in H.
  - destruct (halt c); [| done]. injection H as H.
    eapply regs_ok_at; eauto.
  - destruct (halt c).
    + injection H as H. eapply regs_ok_at; eauto.
    + destruct (exec_body w c) as [c1 |] eqn:E; [| done].
      eapply IH; [done | | exact H]. eapply exec_body_regs_ok; eauto.
Qed.

(** Property X1.  A program whose instructions name only registers and
    lines that it has, with at least one register and one instruction, is
    executed without a read outside the register array or the instruction
    table: whenever [exec] returns, it returns the value of register 0,
    which is a value of [IntType]. *)
Theorem closed_program_stays_in_range w p args fuel r :
  closed p -> (0 < maxRegisters p)%nat -> instructions p ≠ [] ->
  (length args <= maxRegisters p)%nat ->
  exec w fuel p args = Some r ->
  exists v, r = Ok v /\ (0 <= w -> 0 <= v < 2 ^ w).
Proof.
  intros Hc Hm Hne Ha H. unfold exec in H.
  rewrite decide_True in H by exact Ha.
  pose proof (init_inside w p args Hne Ha) as Hi.
  destruct (exec_loop_inside w p fuel _ r Hc Hm Hi H)
    as (c' & v & _ & _ & _ & ->).
  exists v. split; [done |]. intros Hw.
  eapply exec_loop_regs_ok; [exact Hw | | exact H].
  cbn. by apply init_values_ok.
Qed.

Lemma closed_program_stays_in_range_witness :
  exists v, exec 8 100 addition [0; 3; 5] = Some (Ok v) /\ 0 <= v < 2 ^ 8.
Proof.
  assert (closed addition) as Hc.
  { unfold closed, addition. cbn.
    repeat (apply Forall_cons_2; [unfold in_range; cbn; first [done | lia] |]).
    apply Forall_nil_2. }
  destruct (closed_program_stays_in_range 8 addition [0; 3; 5] 100
              (Ok 8) Hc) as (v & Hv & Hr).
  - cbn. lia.
  - done.
  - cbn. lia.
  - vm_compute. reflexivity.
  - exists v. split; [vm_compute; congruence | apply Hr; lia].
Defined.

(** Property X2.  A pass whose jump leads strictly beyond the end of the
    table (a target greater than [instrCount]) ends the run: [exec]
    returns register 0 as that pass left it, whatever fuel remains. *)
Theorem jump_beyond_table_halts w fuel c c' :
  halt c = false -> exec_body w c = Ok c' ->
  instrCount (self c) < loc c' ->
  exec_loop w (S fuel) c = Some (at_ (values c') 0).
Proof.
  intros Hh E Hl. cbn. rewrite Hh, E.
  apply exec_loop_halted. eapply exec_body_beyond; [exact E |].
  destruct (exec_body_self_length _ _ _ E) as [-> _]. exact Hl.
Qed.

Lemma jump_beyond_table_halts_witness :
  exec_loop 8 1 (Config (Program 1 [increment 0 2]) [41] false 0)
  = Some (Ok 42).
Proof.
  apply (jump_beyond_table_halts 8 0
           (Config (Program 1 [increment 0 2]) [41] false 0)
           (Config (Program 1 [increment 0 2]) [42] true 2)).
  - reflexivity.
  - vm_compute. reflexivity.
  - vm_compute. reflexivity.
Defined.

(** Property X3.  An Increment on a register that holds [v] stores
    [(v + 1) mod 2^w] and passes control to its target: [v + 1] below the
    maximum of [IntType], and [0] at the maximum, so the register wraps
    around. *)
Theorem increment_step w c ins v :
  0 <= w ->
  at_ (instructions (self c)) (loc c) = Ok ins -> type ins = INCR ->
  regs_ok w (values c) ->
  at_ (values c) (currentRegister ins) = Ok v ->
  exists c', exec_body w c = Ok c' /\ regs_ok w (values c') /\
    loc c' = location1 ins /\
    at_ (values c') (currentRegister ins) = Ok ((v + 1) mod 2 ^ w) /\
    (v + 1 < 2 ^ w ->
       values c' = set_at (values c) (currentRegister ins) (v + 1)) /\
    (v = 2 ^ w - 1 ->
       values c' = set_at (values c) (currentRegister ins) 0).
Proof.
  intros Hw Hins Ht Hr Hv.
  pose proof (regs_ok_at _ _ _ _ Hr Hv) as Hrange.
  assert (0 < 2 ^ w) as Hpos by (apply Z.pow_pos_nonneg; lia).
  eexists. split; [eapply exec_body_INCR; eauto |]. cbn.
  split; [| split; [done | split; [| split]]].
  - apply regs_ok_set; [exact Hr | by apply wrap_range].
  - eapply at_set_at; eauto.
  - intros Hlt. by rewrite wrap_small by lia.
  - intros ->. unfold wrap. replace (2 ^ w - 1 + 1) with (2 ^ w) by lia.
    by rewrite Z.mod_same by lia.
Qed.

Lemma increment_step_witness :
  exists c',
    exec_body 8 (Config (Program 1 [increment 0 0]) [255] false 0) = Ok c' /\
    values c' = [0].
Proof.
  destruct (increment_step 8 (Config (Program 1 [increment 0 0]) [255] false 0)
              (increment 0 0) 255) as (c' & E & _ & _ & _ & _ & H).
  - lia.
  - reflexivity.
  - reflexivity.
  - apply Forall_cons. split; [lia | apply Forall_nil_2].
  - reflexivity.
  - exists c'. split; [exact E | apply H; reflexivity].
Defined.

(** Property X4.  Along a run of [exec] the program is never exchanged, the
    number of registers stays [maxRegisters], and every register holds a
    value of [IntType], from the initial registers on. *)
Theorem run_keeps_register_file w p args n c :
  0 <= w -> (length args <= maxRegisters p)%nat ->
  runs w n (Config p (init_values w (maxRegisters p) args) false 0) c ->
  self c = p /\ length (values c) = maxRegisters p /\ regs_ok w (values c).
Proof.
  intros Hw Ha H.
  assert (forall n c c', runs w n c c' ->
            self c' = self c /\ length (values c') = length (values c))
    as Hkeep.
  { clear. intros n c c' H. induction H as [| n c c1 c2 _ E _ [IH1 IH2]];
      [done |].
    destruct (exec_body_self_length _ _ _ E) as [E1 E2].
    split; congruence. }
  destruct (Hkeep _ _ _ H) as [Hs Hl]. cbn in Hs, Hl.
  split; [exact Hs | split].
  - rewrite Hl. by apply init_values_length.
  - eapply runs_regs_ok; [exact Hw | exact H |]. cbn.
    by apply init_values_ok.
Qed.

Lemma run_keeps_register_file_witness :
  exists c,
    runs 8 2 (Config addition (init_values 8 3 [0; 1]) false 0) c /\
    length (values c) = 3%nat.
Proof.
  exists (Config addition [1; 0; 0] false 0). 
  assert (runs 8 2 (Config addition (init_values 8 3 [0; 1]) false 0)
            (Config addition [1; 0; 0] false 0)) as H.
  { eapply runs_S; [reflexivity | vm_compute; reflexivity |].
    eapply runs_S; [reflexivity | vm_compute; reflexivity |].
    apply runs_O. }
  split; [exact H |].
  apply (run_keeps_register_file 8 addition [0; 1] 2 _ ltac:(lia)
           ltac:(cbn; lia) H).
Defined.

(** Property X5.  A program without registers or without instructions
    cannot be executed: the first read of [instructions[0]], or the read of
    [values[0]] for the result, is outside the array. *)
Theorem exec_needs_register_and_instruction w fuel p :
  maxRegisters p = 0%nat \/ instructions p = [] ->
  exec w (S fuel) p [] = Some (Fail OutOfRange).
Proof.
  intros H. unfold exec. rewrite decide_True by (cbn; lia).
  set (c := Config p (init_values w (maxRegisters p) []) false 0).
  destruct (exec_body w c) as [c' | f] eqn:E.
  - pose proof E as E'. apply exec_body_inv in E' as (ins & Hins & Hc').
    cbn in Hins. destruct H as [Hm | Hp];
      [| rewrite Hp in Hins; done].
    assert (values c = []) as Hv by (cbn; by rewrite Hm).
    rewrite Hv in Hc'. destruct (type ins).
    + change (exec_loop w (S fuel) c)
        with (match exec_body w c with
              | Ok c' => exec_loop w fuel c'
              | Fail f => Some (Fail f)
              end).
      rewrite E. subst c'. rewrite exec_loop_halted by done. cbn. by rewrite at_nil.
    + destruct Hc' as (v & Hv' & _). by apply at_Ok in Hv' as [_ Hv'].
    + destruct (0 <? 0); destruct Hc' as (v & Hv' & _); by apply at_Ok in Hv' as [_ Hv'].
  - change (exec_loop w (S fuel) c)
      with (match exec_body w c with
            | Ok c' => exec_loop w fuel c'
            | Fail f => Some (Fail f)
            end).
    rewrite E. unfold exec_body in E.
    destruct (at_ (instructions (self c)) (loc c)) as [ins |] eqn:Hins.
    + cbn [bind] in E. destruct H as [Hm | Hp];
        [| cbn in Hins; rewrite Hp in Hins; done].
      assert (values c = []) as Hv by (cbn; by rewrite Hm).
      rewrite Hv in E. destruct (type ins); rewrite ?at_nil in E; cbn in E.
      * destruct (instrCount p <? 0); done.
      * congruence.
      * congruence.
    + apply at_Fail in Hins as [-> _]. cbn in E. congruence.
Qed.

Lemma exec_needs_register_and_instruction_witness :
  exec 8 1 (Program 0 [halt_instr]) [] = Some (Fail OutOfRange).
Proof.
  apply (exec_needs_register_and_instruction 8 0 (Program 0 [halt_instr])).
  left. reflexivity.
Defined.

(** ** The primitives of the parser *)

(** Property X6.  [parseInt] reads the longest run of digits at [current]:
    without a digit it stops with the error that no number is specified;
    otherwise it returns the number that the digits write in base ten,
    modulo [2^64], and the position after the digits. *)
Theorem parseInt_reads_decimal input p s :
  view input p s ->
  parseInt input p =
    if bool_decide (run digits s = []) then Fail (Error msg_no_number)
    else Ok (decimal (run digits s) mod 2 ^ 64,
             p + Z.of_nat (length (run digits s))).
Proof.
  intros Hv. rewrite (parseInt_run _ _ _ Hv). by rewrite value_decimal.
Qed.

Lemma parseInt_reads_decimal_witness :
  parseInt (list_ascii_of_string "R42+") 1 = Ok (42, 3).
Proof.
  apply (parseInt_reads_decimal (list_ascii_of_string "R42+") 1
           (list_ascii_of_string "42+")).
  split; [vm_compute; split; discriminate | reflexivity].
Defined.

(** Property X7.  [matchStr] compares the literal [str] with the input at
    [current]: a match moves [current] past the literal; a mismatch leaves
    it; and when fewer than [length str - 1] characters are left, the loop
    reads beyond the end of the input. *)
Theorem matchStr_compares_literal input str p s :
  view input p s ->
  (str `prefix_of` s ->
     matchStr input str p = Ok (true, p + Z.of_nat (length str))) /\
  (~ str `prefix_of` s -> (length str <= length s + 1)%nat ->
     matchStr input str p = Ok (false, p)) /\
  ((length s + 1 < length str)%nat ->
     matchStr input str p = Fail OutOfRange).
Proof.
  intros Hv. rewrite (matchStr_view _ _ _ _ Hv). repeat split.
  - intros Hp. pose proof (prefix_length _ _ Hp).
    rewrite bool_decide_true by lia. by rewrite bool_decide_true.
  - intros Hp Hl. rewrite bool_decide_true by lia.
    by rewrite bool_decide_false.
  - intros Hl. by rewrite bool_decide_false by lia.
Qed.

Lemma matchStr_compares_literal_witness :
  matchStr (list_ascii_of_string "HA") ["H"; "A"; "L"; "T"]%char 0
  = Fail OutOfRange.
Proof.
  apply (matchStr_compares_literal (list_ascii_of_string "HA")
           ["H"; "A"; "L"; "T"]%char 0 (list_ascii_of_string "HA")).
  - apply view_start.
  - cbn. lia.
Defined.

(** Property X8.  [skipSpaces] and [skipLinesAndSpaces] never fail: they
    stop at the first character that is no space or tab (no newline either,
    for the second), or at the end of the input. *)
Theorem skipping_stops_at_first_other input p s :
  view input p s ->
  (exists a s' p',
     skipSpaces input p = Ok (tt, p') /\ s = a ++ s' /\ is_spaces a /\
     starts_outside [tab; space] s' /\ view input p' s') /\
  (exists a s' p',
     skipLinesAndSpaces input p = Ok (tt, p') /\ s = a ++ s' /\ is_blank a /\
     starts_outside [newline; tab; space] s' /\ view input p' s').
Proof.
  intros Hv. split.
  - exists (run [tab; space] s), (drop (length (run [tab; space] s)) s).
    eexists. split; [by apply skipSpaces_run |].
    split; [apply run_app_drop |]. split; [apply run_Forall |].
    split; [| by apply view_run].
    destruct (drop _ s) as [| c t] eqn:E; [done |].
    cbn. by eapply run_stops.
  - exists (run [newline; tab; space] s),
      (drop (length (run [newline; tab; space] s)) s).
    eexists. split; [by apply skipLinesAndSpaces_run |].
    split; [apply run_app_drop |]. split; [apply run_Forall |].
    split; [| by apply view_run].
    destruct (drop _ s) as [| c t] eqn:E; [done |].
    cbn. by eapply run_stops.
Qed.

Lemma skipping_stops_at_first_other_witness :
  exists p', skipSpaces (list_ascii_of_string "  ;") 0 = Ok (tt, p').
Proof.
  destruct (skipping_stops_at_first_other (list_ascii_of_string "  ;") 0
              (list_ascii_of_string "  ;") (view_start _))
    as [(a & s' & p' & E & _) _].
  exists p'. exact E.
Defined.

(** ** Slots *)

Section Labels.
Variable input : list ascii.
Implicit Types (p : Z) (s : list ascii).

(** A label for slot [i], or no label before a text that starts with
    another character than [L]. *)
Lemma parse_prefix_text i p lb rest :
  view input p (render_label lb ++ rest) -> labelled i lb ->
  starts_outside [tab; space] rest ->
  (lb = None -> rest ≠ [] /\ starts_outside ["L"%char] rest) ->
  exists p', parse_prefix input i p = Ok (tt, p') /\ view input p' rest.
Proof.
  intros Hv Hlb Hsp Hnone.
  destruct lb as [[[n a] b] |]; cbn [render_label app] in Hv.
  - destruct Hlb as (Hn & Hi & Ha & Hb).
    rewrite <- !app_assoc in Hv. cbn [app] in Hv.
    rewrite (parse_prefix_L _ _ _ _ Hv).
    destruct (parseLineNumber_exact _ _ _ _ Hv Hn) as (p1 & -> & Hv1).
    { apply starts_outside_app; [by apply spaces_not_digits | compute_done]. }
    cbn [bind]. rewrite Hi, Z.eqb_refl. cbn [negb].
    destruct (skipSpaces_exact _ _ _ _ Hv1 Ha) as (p2 & -> & Hv2);
      [compute_done |].
    cbn [bind]. destruct (view_cons _ _ _ _ Hv2) as (-> & _ & _).
    destruct (matchChar_exact _ _ _ _ [":"%char] Hv2) as (-> & Hv3);
      [compute_done |].
    cbn [bind negb]. by apply (skipSpaces_exact _ _ b).
  - destruct (Hnone eq_refl) as [Hne HL].
    destruct rest as [| c rest]; [done |]. cbn in HL.
    rewrite (parse_prefix_none _ _ _ _ _ Hv); [eauto |].
    intros ->. apply HL. compute_done.
Qed.

Lemma labelled_text_not_empty lb rest :
  (lb = None -> rest ≠ []) -> render_label lb ++ rest ≠ [].
Proof.
  destruct lb as [[[n a] b] |]; cbn; [done |]. intros H. by apply H.
Qed.

(** A failure of the statement of a slot that the loop reaches is the
    failure of [parse]. *)
Lemma parse_fails_in_statement m n i instr p p1 f :
  reaches input n i instr p -> i < Z.of_nat n -> eof input p = false ->
  parse_prefix input i p = Ok (tt, p1) ->
  parse_statement input p1 = Fail f ->
  parse input m n = Fail f.
Proof.
  intros Hr Hi He Hp Hs. eapply parse_fails_in_slot; eauto.
  unfold parse_body. rewrite Hp. cbn [bind]. by rewrite Hs.
Qed.

(** The same for a labelled text. *)
Lemma parse_fails_in_text m n i instr p lb rest f :
  reaches input n i instr p -> i < Z.of_nat n ->
  view input p (render_label lb ++ rest) -> labelled i lb ->
  starts_outside [tab; space] rest ->
  (lb = None -> rest ≠ [] /\ starts_outside ["L"%char] rest) ->
  (forall p1, view input p1 rest -> parse_statement input p1 = Fail f) ->
  parse input m n = Fail f.
Proof.
  intros Hr Hi Hv Hlb Hsp Hnone Hs.
  destruct (parse_prefix_text _ _ _ _ Hv Hlb Hsp Hnone) as (p1 & Hp & Hv1).
  eapply parse_fails_in_statement; eauto.
  rewrite (view_eof _ _ _ Hv). apply bool_decide_false.
  apply labelled_text_not_empty. intros E. by apply Hnone.
Qed.

End Labels.

(** Property X9.  A statement that starts less than three characters before
    the end of the input, and not with [R], makes [parse] read beyond the
    end of the input: the comparison with [HALT] looks at the second to
    fourth character without a test for the end. *)
Theorem statement_near_end_reads_past_input input m n i instr p lb rest :
  reaches input n i instr p -> i < Z.of_nat n ->
  view input p (render_label lb ++ rest) -> labelled i lb ->
  (lb = None -> rest ≠ [] /\ starts_outside ["L"%char] rest) ->
  starts_outside ["R"%char; tab; space] rest ->
  (length rest < 3)%nat ->
  parse input m n = Fail OutOfRange.
Proof.
  intros Hr Hi Hv Hlb Hnone Hout Hlen.
  eapply parse_fails_in_text; eauto.
  { destruct rest as [| c rest]; [done |]. cbn in *. intros Hx. apply Hout.
    by apply list_elem_of_further. }
  intros p1 Hv1. unfold parse_statement.
  assert ((if eof input p1 then Ok (false, p1)
           else matchChar input ["R"%char] p1) = Ok (false, p1)) as ->.
  { destruct rest as [| c rest].
    - by rewrite (view_nil _ _ Hv1).
    - destruct (view_cons _ _ _ _ Hv1) as (-> & _ & _).
      rewrite (matchChar_cons _ _ _ _ _ Hv1).
      rewrite bool_decide_false; [done |]. cbn in Hout. intros Hx.
      apply Hout. apply list_elem_of_singleton in Hx as ->. compute_done. }
  cbn [bind]. rewrite (matchStr_view _ _ _ _ Hv1).
  rewrite bool_decide_false by (cbn [length]; lia). done.
Qed.

Lemma statement_near_end_reads_past_input_witness :
  make 1 2 "HALT;;" = Fail OutOfRange.
Proof.
  unfold make.
  apply (statement_near_end_reads_past_input
           (list_ascii_of_string "HALT;;") 1 2 1 [halt_instr; halt_instr] 5
           None [";"%char]).
  - apply (reaches_next _ 2 0 [halt_instr; halt_instr] 0).
    + apply reaches_first. vm_compute. reflexivity.
    + lia.
    + vm_compute. reflexivity.
    + vm_compute. reflexivity.
  - lia.
  - split; [vm_compute; split; discriminate | reflexivity].
  - exact I.
  - intros _. split; [done | compute_done].
  - compute_done.
  - cbn. lia.
Defined.

(** Property X10.  At capacity zero [parse] reads no statement: every
    text, well formed or not, gives the program without instructions. *)
Theorem parse_capacity_zero input m : parse input m 0 = Ok (Program m []).
Proof.
  unfold parse, parse_slots.
  rewrite (skipLinesAndSpaces_run input 0 input) by apply view_start.
  done.
Qed.

(** ** Texts made of lines, up to the end of the input *)

Section Text.
Variable input : list ascii.
Implicit Types (p : Z) (s : list ascii).

Lemma parseEOL_text p a t s :
  view input p (a ++ render_end t ++ s) -> is_spaces a -> ends_line t s ->
  exists p', parseEOL input p = Ok (tt, p') /\ view input p' s.
Proof.
  intros Hv Ha Ht. destruct t as [c |]; cbn [render_end app ends_line] in *.
  - by apply (parseEOL_exact _ _ a c).
  - subst s. rewrite (parseEOL_view _ _ _ Hv). cbn zeta.
    rewrite run_exact by done. rewrite drop_app_length.
    eexists. split; [done |]. by apply view_app in Hv.
Qed.

Local Ltac flat_in H :=
  repeat (progress cbn [app render_statement render_label] in H
          || rewrite <- app_assoc in H).

(** A statement: what is left to do after it is to read the end of the
    line. *)
Lemma parse_statement_upto_eol p st tl :
  view input p (render_statement st ++ tl) ->
  wf_statement st -> st <> Empty -> starts_outside digits tl ->
  exists q, view input q tl /\
    parse_statement input p
    = let* (_, current) := parseEOL input q in Ok (denote st, current).
Proof.
  intros Hv Hst Hne Hend.
  unfold parse_statement.
  destruct st as [r s1 s2 s3 l | r s1 s2 s3 l1 s4 s5 l2 | |].
  - (* increment *)
    destruct Hst as (Hr & H1 & H2 & H3 & Hl).
    flat_in Hv.
    destruct (view_cons _ _ _ _ Hv) as (-> & _ & _).
    destruct (matchChar_exact _ _ _ _ ["R"%char] Hv) as (-> & Hv0);
      [compute_done |].
    cbn [bind]. unfold parse_register_statement.
    destruct (parseInt_exact _ _ _ _ Hv0 Hr) as (p1 & -> & Hv1).
    { apply starts_outside_app; [by apply spaces_not_digits | compute_done]. }
    cbn [bind].
    destruct (skipSpaces_exact _ _ _ _ Hv1 H1) as (p2 & -> & Hv2);
      [compute_done |].
    cbn [bind].
    destruct (view_cons _ _ _ _ Hv2) as (_ & -> & Hv3). cbn [bind].
    rewrite decide_True by done. cbn [bind].
    destruct (arrow_target_exact _ _ _ _ _ tl Hv3 H2 H3 Hl Hend)
      as (q1 & q2 & q3 & q4 & E1 & E2 & E3 & E4 & Hv4).
    rewrite E1; cbn [bind]; rewrite E2; cbn [bind negb]; rewrite E3;
      cbn [bind]; rewrite E4; cbn [bind].
    exists q4. split; [done |]. by destruct (parseEOL input q4) as [[[] ?] |].
  - (* decrement *)
    destruct Hst as (Hr & H1 & H2 & H3 & Hl1 & H4 & H5 & Hl2).
    flat_in Hv.
    destruct (view_cons _ _ _ _ Hv) as (-> & _ & _).
    destruct (matchChar_exact _ _ _ _ ["R"%char] Hv) as (-> & Hv0);
      [compute_done |].
    cbn [bind]. unfold parse_register_statement.
    destruct (parseInt_exact _ _ _ _ Hv0 Hr) as (p1 & -> & Hv1).
    { apply starts_outside_app; [by apply spaces_not_digits | compute_done]. }
    cbn [bind].
    destruct (skipSpaces_exact _ _ _ _ Hv1 H1) as (p2 & -> & Hv2);
      [compute_done |].
    cbn [bind].
    destruct (view_cons _ _ _ _ Hv2) as (_ & -> & Hv3). cbn [bind].
    rewrite decide_False by done. rewrite decide_True by done. cbn [bind].
    destruct (arrow_target_exact _ _ _ _ _
                (s4 ++ ","%char :: s5 ++ "L"%char :: l2 ++ tl)
                Hv3 H2 H3 Hl1)
      as (q1 & q2 & q3 & q4 & E1 & E2 & E3 & E4 & Hv4).
    { apply starts_outside_app; [by apply spaces_not_digits | compute_done]. }
    rewrite E1; cbn [bind]; rewrite E2; cbn [bind negb]; rewrite E3;
      cbn [bind]; rewrite E4; cbn [bind].
    destruct (skipSpaces_exact _ _ _ _ Hv4 H4) as (q5 & -> & Hv5);
      [compute_done |].
    cbn [bind].
    destruct (matchChar_exact _ _ _ _ [","%char] Hv5) as (-> & Hv6);
      [compute_done |].
    cbn [bind negb].
    destruct (skipSpaces_exact _ _ _ _ Hv6 H5) as (q7 & -> & Hv7);
      [compute_done |].
    cbn [bind].
    destruct (parseLineNumber_exact _ _ _ _ Hv7 Hl2 Hend) as (q8 & -> & Hv8).
    cbn [bind].
    exists q8. split; [done |]. by destruct (parseEOL input q8) as [[[] ?] |].
  - (* halt *)
    cbn [render_statement] in Hv.
    destruct (view_cons _ _ _ _ Hv) as (-> & _ & _).
    rewrite (matchChar_cons _ _ _ _ _ Hv).
    rewrite bool_decide_false by compute_done. cbn [bind].
    rewrite (matchStr_prefix _ ["H"; "A"; "L"; "T"]%char _ _ Hv). cbn [bind].
    apply (view_app _ _ ["H"; "A"; "L"; "T"]%char) in Hv.
    eexists. split; [exact Hv |].
    by destruct (parseEOL input _) as [[[] ?] |].
  - done.
Qed.

(** A statement followed by the end of its line. *)
Lemma parse_statement_text p st a t s :
  view input p (render_statement st ++ a ++ render_end t ++ s) ->
  wf_statement st -> st <> Empty -> is_spaces a -> ends_line t s ->
  exists p', parse_statement input p = Ok (denote st, p') /\ view input p' s.
Proof.
  intros Hv Hst Hne Ha Ht.
  pose proof (starts_outside_end a t s Ha Ht) as Hend.
  destruct (parse_statement_upto_eol _ _ _ Hv Hst Hne Hend) as (q & Hq & ->).
  destruct (parseEOL_text _ _ _ _ Hq Ha Ht) as (p' & -> & Hp').
  cbn [bind]. eauto.
Qed.

(** A line, without the blanks before it, read into slot [i]. *)
Lemma parse_body_text i instr p ln s :
  view input p
    (render_label (label ln) ++ render_statement (body ln)
       ++ trail ln ++ render_end (terminator ln) ++ s) ->
  accepted i ln -> body ln <> Empty -> ends_line (terminator ln) s ->
  exists p',
    parse_body input i instr p = Ok (set_at instr i (denote (body ln)), p') /\
    view input p' (drop (length (run [newline; tab; space] s)) s).
Proof.
  intros Hv (_ & Hlb & Hst & Htr & _ & _) Hne Ht.
  destruct (render_statement_head (body ln) Hne) as (c0 & t & Hr & Hc0).
  rewrite Hr in Hv. cbn [app] in Hv.
  destruct (parse_prefix_exact _ i _ _ _ _ Hv Hlb Hc0) as (p1 & Hp & Hv1).
  change (c0 :: t ++ trail ln ++ render_end (terminator ln) ++ s)
    with ((c0 :: t) ++ trail ln ++ render_end (terminator ln) ++ s) in Hv1.
  rewrite <- Hr in Hv1.
  destruct (parse_statement_text _ _ _ _ _ Hv1 Hst Hne Htr Ht)
    as (p2 & Hs & Hv2).
  eexists. split.
  - apply parse_body_Ok. exists p1, (denote (body ln)), p2.
    split; [done |]. split; [done |]. split; [done |].
    by apply skipLinesAndSpaces_run.
  - by apply view_run.
Qed.

(** The loop on a text that it reads to its end: the slots that are left
    keep what they hold. *)
Lemma parse_loop_text lines : forall todo filled pad p tail,
  (forall (k : nat) ln, lines !! k = Some ln ->
     accepted (Z.of_nat (length filled + k)) ln /\ body ln <> Empty /\
     ends_line (terminator ln) (render (drop (S k) lines) ++ tail)) ->
  is_blank tail ->
  (length lines <= todo)%nat -> length pad = todo ->
  view input p
    (drop (length (run [newline; tab; space] (render lines ++ tail)))
       (render lines ++ tail)) ->
  exists p',
    parse_loop input todo (Z.of_nat (length filled)) (filled ++ pad) p
    = Ok ((Z.of_nat (length filled + length lines),
           filled ++ map (fun ln => denote (body ln)) lines
             ++ drop (length lines) pad), p').
Proof.
  induction lines as [| ln lines IH];
    intros todo filled pad p tail Hwf Htail Hlen Hpad Hv.
  - cbn [render map concat app] in Hv.
    rewrite <- (app_nil_r tail) in Hv at 1.
    rewrite run_exact in Hv by done. rewrite drop_all in Hv.
    cbn [length map app drop]. rewrite Nat.add_0_r.
    destruct todo; cbn [parse_loop]; [eauto |].
    rewrite (view_nil _ _ Hv). eauto.
  - destruct todo as [| todo]; [cbn in Hlen; lia |].
    destruct pad as [| h pad]; [done |]. injection Hpad as Hpad.
    destruct (Hwf 0%nat ln eq_refl) as (Hln & Hne & Hend).
    rewrite Nat.add_0_r in Hln. cbn [drop] in Hend.
    destruct (render_statement_head (body ln) Hne) as (c0 & t & Hr & Hc0).
    assert (render (ln :: lines) ++ tail
            = lead ln ++ render_label (label ln) ++ render_statement (body ln)
                ++ trail ln ++ render_end (terminator ln)
                ++ render lines ++ tail) as HS.
    { rewrite render_cons. unfold render_line. rewrite <- !app_assoc. done. }
    assert (starts_outside [newline; tab; space]
              (render_label (label ln) ++ render_statement (body ln)
                ++ trail ln ++ render_end (terminator ln)
                ++ render lines ++ tail)) as Hout.
    { destruct (label ln) as [[[n a] b] |]; cbn [render_label app].
      - compute_done.
      - rewrite Hr. cbn. intros Hx. apply Hc0.
        by apply list_elem_of_further. }
    rewrite HS in Hv.
    rewrite run_exact in Hv by (done || apply Hln).
    rewrite drop_app_length in Hv.
    cbn [length parse_loop].
    assert (eof input p = false) as ->.
    { rewrite (view_eof _ _ _ Hv).
      destruct (label ln) as [[[n a] b] |]; cbn [render_label app]; [done |].
      by rewrite Hr. }
    destruct (parse_body_text (Z.of_nat (length filled)) (filled ++ h :: pad)
                _ _ _ Hv Hln Hne Hend) as (p1 & -> & Hv1).
    cbn [bind].
    assert (set_at (filled ++ h :: pad) (Z.of_nat (length filled))
              (denote (body ln))
            = (filled ++ [denote (body ln)]) ++ pad) as ->.
    { unfold set_at. rewrite Nat2Z.id, <- app_assoc.
      rewrite insert_app_r_alt by lia. by rewrite Nat.sub_diag. }
    replace (Z.of_nat (length filled) + 1)
      with (Z.of_nat (length (filled ++ [denote (body ln)])))
      by (rewrite length_app; cbn; lia).
    destruct (IH todo (filled ++ [denote (body ln)]) pad p1 tail)
      as (p' & ->); [| done | cbn in Hlen; lia | done | done |].
    { intros k ln' Hk. rewrite length_app. cbn [length].
      replace (length filled + 1 + k)%nat with (length filled + S k)%nat
        by lia.
      by apply (Hwf (S k)). }
    exists p'. rewrite length_app. cbn [length map drop].
    rewrite <- !app_assoc. cbn [app]. do 3 f_equal. lia.
Qed.

End Text.

Lemma render_not_empty ln lines :
  body ln <> Empty -> render (ln :: lines) ≠ [].
Proof.
  intros Hne. rewrite render_cons. unfold render_line.
  destruct (render_statement_head _ Hne) as (c0 & t & -> & _).
  intros H. apply app_eq_nil in H as [H _]. apply app_eq_nil in H as [_ H].
  apply app_eq_nil in H as [_ H]. done.
Qed.

(** A text with more lines than slots: the first lines fill the table. *)
Lemma parse_text_cut lines tail m n :
  program_text lines tail ->
  Forall (fun ln => body ln <> Empty) lines ->
  (n < length lines)%nat ->
  parse (render lines ++ tail) m n
  = Ok (Program m (map (fun ln => denote (body ln)) (take n lines))).
Proof.
  intros [Hlines Htail] Hne Hn.
  rewrite <- (take_drop n lines) at 1. rewrite render_app, <- app_assoc.
  assert (length (take n lines) = n) as Hl by (rewrite length_take; lia).
  pose proof (parse_lines (take n lines) (render (drop n lines) ++ tail) m)
    as Hp.
  rewrite Hl in Hp. apply Hp.
  intros k ln Hk. apply lookup_take_Some in Hk as [Hk Hkn].
  destruct (Hlines k ln Hk) as [Ha Hend].
  split; [done |]. split.
  - rewrite Forall_lookup in Hne. by eapply Hne.
  - intros Hnone. specialize (Hend Hnone).
    apply app_eq_nil in Hend as [Hend _].
    destruct (drop (S k) lines) as [| ln' rest] eqn:Ed.
    + apply (f_equal length) in Ed. rewrite length_drop in Ed.
      cbn in Ed. lia.
    + revert Hend. apply render_not_empty.
      assert (ln' ∈ lines) as Hin.
      { rewrite <- (take_drop (S k) lines), Ed.
        apply elem_of_app. right. by left. }
      rewrite Forall_forall in Hne. by apply Hne.
Qed.

(** A text with no more lines than slots: the text is read to its end. *)
Lemma parse_text_whole lines tail m n :
  program_text lines tail ->
  Forall (fun ln => body ln <> Empty) lines ->
  (length lines <= n)%nat ->
  parse (render lines ++ tail) m n
  = Ok (Program m
          (map (fun ln => denote (body ln)) lines
             ++ replicate (n - length lines) halt_instr)).
Proof.
  intros [Hlines Htail] Hne Hn.
  unfold parse, parse_slots.
  set (input := render lines ++ tail).
  rewrite (skipLinesAndSpaces_run input 0 input) by apply view_start.
  cbn [bind].
  destruct (parse_loop_text input lines n [] (replicate n halt_instr)
              (0 + Z.of_nat (length (run [newline; tab; space] input)))
              tail) as (p' & H).
  - intros k ln Hk. destruct (Hlines k ln Hk) as [Ha Hend].
    split; [done |]. split.
    + rewrite Forall_lookup in Hne. by eapply Hne.
    + unfold ends_line. destruct Ha as (_ & _ & _ & _ & Ht & _).
      destruct (terminator ln); [done | by apply Hend].
  - done.
  - lia.
  - by rewrite length_replicate.
  - apply view_run, view_start.
  - cbn [length app Nat.add] in H. change (Z.of_nat 0) with 0 in H.
    rewrite H. cbn [bind]. by rewrite drop_replicate.
Qed.

Lemma literal_lines_render :
  render literal_lines = list_ascii_of_string literal_text.
Proof. reflexivity. Qed.

Lemma literal_lines_text : program_text literal_lines [].
Proof.
  split; [| apply Forall_nil_2]. intros k ln Hk.
  do 5 (destruct k as [| k];
        [injection Hk as <-; split;
           [unfold accepted; cbn; repeat split;
              try done; try compute_done;
              try (repeat constructor; compute_done)
           | cbn; done] |]).
  done.
Qed.

Lemma literal_lines_not_empty :
  Forall (fun ln => body ln <> Empty) literal_lines.
Proof. repeat (apply Forall_cons_2; [done |]). apply Forall_nil_2. Qed.

(** Property X11.  Round trip of texts and tables: a program text whose
    lines hold instructions (each line accepted for its slot, only the last
    one may lack a terminator, blanks alone after the lines) is parsed, at
    any capacity [n], into the instructions of its first [n] lines,
    followed by Halt in the slots that the text does not fill.  A blank or
    empty text gives the table of Halts. *)
Theorem parse_program_text lines tail m n :
  program_text lines tail ->
  Forall (fun ln => body ln <> Empty) lines ->
  parse (render lines ++ tail) m n
  = Ok (Program m
          (map (fun ln => denote (body ln)) (take n lines)
             ++ replicate (n - length lines) halt_instr)).
Proof.
  intros Htext Hne.
  destruct (decide (n < length lines)%nat) as [Hn | Hn].
  - replace (n - length lines)%nat with 0%nat by lia.
    cbn [replicate]. rewrite app_nil_r. by apply parse_text_cut.
  - rewrite take_ge by lia. apply parse_text_whole; [done | done | lia].
Qed.

Lemma parse_program_text_witness :
  make 3 7 literal_text
  = Ok (Program 3 (instructions addition ++ [halt_instr; halt_instr])).
Proof.
  unfold make. rewrite <- literal_lines_render.
  rewrite <- (app_nil_r (render literal_lines)).
  apply (parse_program_text literal_lines [] 3 7).
  - apply literal_lines_text.
  - apply literal_lines_not_empty.
Defined.

(** ** Diagnostics *)

Local Ltac in_list H :=
  repeat (apply elem_of_cons in H as [-> | H]; [compute_done |]);
  by apply elem_of_nil in H.

Local Ltac sublist := let x := fresh in let H := fresh in
  intros x H; in_list H.

Section Diagnostics.
Variable input : list ascii.
Implicit Types (p : Z) (s : list ascii).

Lemma run_outside cs s : starts_outside cs s -> run cs s = [].
Proof.
  destruct s as [| c s]; [done |]. cbn. intros H.
  by rewrite bool_decide_false.
Qed.

Lemma starts_outside_subseteq cs cs' s :
  cs ⊆ cs' -> starts_outside cs' s -> starts_outside cs s.
Proof.
  intros Hsub. destruct s as [| c s]; [done |]. cbn. intros H Hc.
  apply H. by apply Hsub.
Qed.

Lemma starts_outside_after_spaces a s :
  is_spaces a -> starts_outside digits s -> starts_outside digits (a ++ s).
Proof.
  intros Ha Hs. destruct a as [| x a]; [done |]. cbn.
  apply spaces_not_digits in Ha. by apply Forall_cons in Ha as [Hx _].
Qed.

Lemma starts_outside_head cs c s : starts_outside cs (c :: s) -> c ∉ cs.
Proof. done. Qed.

(** A failure of the statement that starts with [R]. *)
Lemma parse_fails_in_register_statement m n i instr p lb rest f :
  reaches input n i instr p -> i < Z.of_nat n ->
  view input p (render_label lb ++ "R"%char :: rest) -> labelled i lb ->
  (forall p1, view input p1 rest ->
     parse_register_statement input p1 = Fail f) ->
  parse input m n = Fail f.
Proof.
  intros Hr Hi Hv Hlb Hs.
  eapply parse_fails_in_text; eauto; [compute_done | |].
  - intros _. split; [done | compute_done].
  - intros p1 Hv1. unfold parse_statement.
    destruct (view_cons _ _ _ _ Hv1) as (-> & _ & _).
    destruct (matchChar_exact _ _ _ _ ["R"%char] Hv1) as (-> & Hv2);
      [compute_done |].
    cbn [bind]. by apply Hs.
Qed.

(** The statement up to the sign: [R], the number and the spaces. *)
Lemma register_statement_sign p r s1 c tl :
  view input p (r ++ s1 ++ c :: tl) -> is_number r -> is_spaces s1 ->
  c ∈ ["+"%char; "-"%char] ->
  exists q, view input q tl /\
    parse_register_statement input p
    = (let* (_, current) := skipSpaces input q in
       let* (m, current) := matchStr input ["-"; ">"]%char current in
       if negb m then Fail (Error msg_arrow)
       else
         let* (_, current) := skipSpaces input current in
         let* (loc1, current) := parseLineNumber input current in
         if bool_decide (c = "+"%char) then
           let* (_, current) := parseEOL input current in
           Ok (increment (value r) loc1, current)
         else
           let* (_, current) := skipSpaces input current in
           let* (m, current) := matchChar input [","%char] current in
           if negb m then Fail (Error msg_comma)
           else
             let* (_, current) := skipSpaces input current in
             let* (loc2, current) := parseLineNumber input current in
             let* (_, current) := parseEOL input current in
             Ok (decrement (value r) loc1 loc2, current)).
Proof.
  intros Hv Hr H1 Hc. unfold parse_register_statement.
  assert ((c ∉ digits) /\ (c ∉ [tab; space])) as [Hcd Hcs].
  { repeat (apply elem_of_cons in Hc as [-> | Hc];
            [split; compute_done |]).
    by apply elem_of_nil in Hc. }
  destruct (parseInt_exact _ _ _ _ Hv Hr) as (p1 & -> & Hv1).
  { by apply starts_outside_after_spaces. }
  cbn [bind].
  destruct (skipSpaces_exact _ _ _ _ Hv1 H1) as (p2 & -> & Hv2); [done |].
  cbn [bind].
  destruct (view_cons _ _ _ _ Hv2) as (_ & -> & Hv3). cbn [bind].
  exists (p2 + 1). split; [done |].
  apply elem_of_cons in Hc as [-> | Hc].
  - rewrite decide_True by done. done.
  - apply list_elem_of_singleton in Hc as ->.
    rewrite decide_False by done. rewrite decide_True by done. done.
Qed.

End Diagnostics.

(** Property X12.  A statement [R] that no digit follows is rejected with
    the error that no number is specified. *)
Theorem register_without_number_rejected input m n i instr p lb rest :
  reaches input n i instr p -> i < Z.of_nat n ->
  view input p (render_label lb ++ "R"%char :: rest) -> labelled i lb ->
  starts_outside digits rest ->
  parse input m n = Fail (Error msg_no_number).
Proof.
  intros Hr Hi Hv Hlb Hout.
  eapply parse_fails_in_register_statement; eauto.
  intros p1 Hv1. unfold parse_register_statement.
  rewrite (parseInt_run _ _ _ Hv1), run_outside by done. done.
Qed.

Lemma register_without_number_rejected_witness :
  make 1 1 "R+ -> L0" = Fail (Error msg_no_number).
Proof.
  unfold make.
  apply (register_without_number_rejected
           (list_ascii_of_string "R+ -> L0") 1 1 0 [halt_instr] 0 None
           (list_ascii_of_string "+ -> L0")).
  - apply reaches_first. vm_compute. reflexivity.
  - lia.
  - apply view_start.
  - exact I.
  - compute_done.
Defined.

(** Property X13.  After the register of a statement and spaces, a
    character that is neither [+] nor [-] is rejected with the error that
    one of them is expected. *)
Theorem statement_without_sign_rejected input m n i instr p lb r s1 c tl :
  reaches input n i instr p -> i < Z.of_nat n ->
  view input p (render_label lb ++ "R"%char :: r ++ s1 ++ c :: tl) ->
  labelled i lb -> is_number r -> is_spaces s1 ->
  c ∉ "+"%char :: "-"%char :: tab :: space :: digits ->
  parse input m n = Fail (Error msg_plus_minus).
Proof.
  intros Hr Hi Hv Hlb Hnum H1 Hout.
  eapply parse_fails_in_register_statement; eauto.
  intros p1 Hv1. unfold parse_register_statement.
  destruct (parseInt_exact _ _ _ _ Hv1 Hnum) as (p2 & -> & Hv2).
  { apply starts_outside_after_spaces; [done |]. cbn. intros Hx.
    apply Hout. by do 4 apply list_elem_of_further. }
  cbn [bind].
  destruct (skipSpaces_exact _ _ _ _ Hv2 H1) as (p3 & -> & Hv3).
  { cbn. intros Hx. apply Hout. in_list Hx. }
  cbn [bind].
  destruct (view_cons _ _ _ _ Hv3) as (_ & -> & _). cbn [bind].
  rewrite decide_False by (intros ->; apply Hout; compute_done).
  rewrite decide_False by (intros ->; apply Hout; compute_done).
  done.
Qed.

Lemma statement_without_sign_rejected_witness :
  make 2 1 "L0: R1 L1" = Fail (Error msg_plus_minus).
Proof.
  unfold make.
  apply (statement_without_sign_rejected
           (list_ascii_of_string "L0: R1 L1") 2 1 0 [halt_instr] 0
           (Some (["0"%char], [], [space])) ["1"%char] [space]
           "L"%char ["1"%char]).
  - apply reaches_first. vm_compute. reflexivity.
  - lia.
  - apply view_start.
  - repeat split; try done; repeat constructor; compute_done.
  - split; [done | repeat constructor; compute_done].
  - repeat constructor; compute_done.
  - compute_done.
Defined.

(** Property X14.  After the sign of a statement and spaces, a text that
    does not start with the arrow is rejected with the error that the arrow
    is expected; at the end of the input, the comparison with the arrow
    reads beyond the input. *)
Theorem statement_without_arrow_rejected
    input m n i instr p lb r s1 c s2 tl :
  reaches input n i instr p -> i < Z.of_nat n ->
  view input p (render_label lb ++ "R"%char :: r ++ s1 ++ c :: s2 ++ tl) ->
  labelled i lb -> is_number r -> is_spaces s1 ->
  c ∈ ["+"%char; "-"%char] -> is_spaces s2 ->
  starts_outside [tab; space] tl -> ~ ["-"; ">"]%char `prefix_of` tl ->
  parse input m n
  = Fail (match tl with [] => OutOfRange | _ => Error msg_arrow end).
Proof.
  intros Hr Hi Hv Hlb Hnum H1 Hc H2 Hout Hpre.
  eapply parse_fails_in_register_statement; eauto.
  intros p1 Hv1.
  destruct (register_statement_sign _ _ _ _ _ _ Hv1 Hnum H1 Hc)
    as (q & Hq & ->).
  cbn zeta.
  destruct (skipSpaces_exact _ _ _ _ Hq H2 Hout) as (q1 & -> & Hq1).
  cbn [bind]. rewrite (matchStr_view _ _ _ _ Hq1).
  destruct tl as [| x t].
  - rewrite bool_decide_false by (cbn; lia). done.
  - rewrite bool_decide_true by (cbn; lia).
    rewrite bool_decide_false by done. done.
Qed.

Lemma statement_without_arrow_rejected_witness :
  make 2 1 "L0: R1+ L1" = Fail (Error msg_arrow).
Proof.
  unfold make.
  apply (statement_without_arrow_rejected
           (list_ascii_of_string "L0: R1+ L1") 2 1 0 [halt_instr] 0
           (Some (["0"%char], [], [space])) ["1"%char] [] "+"%char [space]
           (list_ascii_of_string "L1")).
  - apply reaches_first. vm_compute. reflexivity.
  - lia.
  - apply view_start.
  - repeat split; try done; repeat constructor; compute_done.
  - split; [done | repeat constructor; compute_done].
  - apply Forall_nil_2.
  - compute_done.
  - repeat constructor; compute_done.
  - compute_done.
  - intros [k Hk]. discriminate Hk.
Defined.

(** Property X15.  After the arrow and spaces, the end of the input is
    rejected with the error of an unexpected end of file, and a character
    other than [L] with the error that a line number is expected. *)
Theorem statement_without_target_rejected
    input m n i instr p lb r s1 c s2 s3 tl :
  reaches input n i instr p -> i < Z.of_nat n ->
  view input p
    (render_label lb ++ "R"%char :: r ++ s1 ++ c :: s2 ++ ["-"; ">"]%char
       ++ s3 ++ tl) ->
  labelled i lb -> is_number r -> is_spaces s1 ->
  c ∈ ["+"%char; "-"%char] -> is_spaces s2 -> is_spaces s3 ->
  starts_outside ["L"%char; tab; space] tl ->
  parse input m n
  = Fail (Error (match tl with [] => msg_eof | _ => msg_line_number end)).
Proof.
  intros Hr Hi Hv Hlb Hnum H1 Hc H2 H3 Hout.
  eapply parse_fails_in_register_statement; eauto.
  intros p1 Hv1.
  destruct (register_statement_sign _ _ _ _ _ _ Hv1 Hnum H1 Hc)
    as (q & Hq & ->).
  cbn zeta.
  destruct (skipSpaces_exact _ _ _ _ Hq H2) as (q1 & -> & Hq1);
    [compute_done |].
  cbn [bind]. rewrite (matchStr_prefix _ _ _ _ Hq1). cbn [bind negb].
  apply view_app in Hq1.
  destruct (skipSpaces_exact _ _ _ _ Hq1 H3) as (q2 & -> & Hq2).
  { eapply starts_outside_subseteq; [| exact Hout].
    sublist. }
  cbn [bind]. unfold parseLineNumber. destruct tl as [| x t].
  - by rewrite (view_nil _ _ Hq2).
  - destruct (view_cons _ _ _ _ Hq2) as (-> & _ & _).
    rewrite (matchChar_cons _ _ _ _ _ Hq2).
    apply starts_outside_head in Hout.
    rewrite bool_decide_false; [done |].
    intros Hx. apply list_elem_of_singleton in Hx as ->. apply Hout.
    compute_done.
Qed.

Lemma statement_without_target_rejected_witness :
  make 1 1 "R0+ ->" = Fail (Error msg_eof).
Proof.
  unfold make.
  apply (statement_without_target_rejected
           (list_ascii_of_string "R0+ ->") 1 1 0 [halt_instr] 0
           None ["0"%char] [] "+"%char [space] [] []).
  - apply reaches_first. vm_compute. reflexivity.
  - lia.
  - apply view_start.
  - exact I.
  - split; [done | repeat constructor; compute_done].
  - apply Forall_nil_2.
  - compute_done.
  - repeat constructor; compute_done.
  - apply Forall_nil_2.
  - exact I.
Defined.

(** Property X16.  In a Decrement, after the first target and spaces, a
    character other than the comma is rejected with the error that a comma
    is expected. *)
Theorem decrement_without_comma_rejected
    input m n i instr p lb r s1 s2 s3 l1 s4 c tl :
  reaches input n i instr p -> i < Z.of_nat n ->
  view input p
    (render_label lb ++ "R"%char :: r ++ s1 ++ "-"%char :: s2
       ++ ["-"; ">"]%char ++ s3 ++ "L"%char :: l1 ++ s4 ++ c :: tl) ->
  labelled i lb -> is_number r -> is_spaces s1 -> is_spaces s2 ->
  is_spaces s3 -> is_number l1 -> is_spaces s4 ->
  c ∉ ","%char :: tab :: space :: digits ->
  parse input m n = Fail (Error msg_comma).
Proof.
  intros Hr Hi Hv Hlb Hnum H1 H2 H3 Hl1 H4 Hout.
  eapply parse_fails_in_register_statement; eauto.
  intros p1 Hv1.
  destruct (register_statement_sign _ _ _ _ "-"%char _ Hv1 Hnum H1)
    as (q & Hq & ->); [compute_done |].
  cbn zeta. rewrite bool_decide_false by done.
  destruct (arrow_target_exact _ _ _ _ _ (s4 ++ c :: tl) Hq H2 H3 Hl1)
    as (q1 & q2 & q3 & q4 & E1 & E2 & E3 & E4 & Hq4).
  { apply starts_outside_after_spaces; [done |]. cbn. intros Hx.
    apply Hout. by do 3 apply list_elem_of_further. }
  rewrite E1; cbn [bind]; rewrite E2; cbn [bind negb]; rewrite E3;
    cbn [bind]; rewrite E4; cbn [bind].
  destruct (skipSpaces_exact _ _ _ _ Hq4 H4) as (q5 & -> & Hq5).
  { cbn. intros Hx. apply Hout. in_list Hx. }
  cbn [bind]. rewrite (matchChar_cons _ _ _ _ _ Hq5).
  rewrite bool_decide_false; [done |].
  intros Hx. apply list_elem_of_singleton in Hx as ->. apply Hout.
  compute_done.
Qed.

Lemma decrement_without_comma_rejected_witness :
  make 1 3 "R0- -> L1 L2" = Fail (Error msg_comma).
Proof.
  unfold make.
  apply (decrement_without_comma_rejected
           (list_ascii_of_string "R0- -> L1 L2") 1 3 0
           (replicate 3 halt_instr) 0
           None ["0"%char] [] [space] [space] ["1"%char] [space]
           "L"%char ["2"%char]).
  - apply reaches_first. vm_compute. reflexivity.
  - lia.
  - apply view_start.
  - exact I.
  - split; [done | repeat constructor; compute_done].
  - apply Forall_nil_2.
  - repeat constructor; compute_done.
  - repeat constructor; compute_done.
  - split; [done | repeat constructor; compute_done].
  - repeat constructor; compute_done.
  - compute_done.
Defined.

(** Property X17.  After an instruction and spaces, a character that is no
    terminator is rejected with the error of the missing terminator. *)
Theorem instruction_without_terminator_rejected
    input m n i instr p lb st a c tl :
  reaches input n i instr p -> i < Z.of_nat n ->
  view input p (render_label lb ++ render_statement st ++ a ++ c :: tl) ->
  labelled i lb -> wf_statement st -> st <> Empty -> is_spaces a ->
  c ∉ ";"%char :: newline :: nul :: tab :: space :: digits ->
  parse input m n = Fail (Error msg_terminator).
Proof.
  intros Hr Hi Hv Hlb Hst Hne Ha Hc.
  destruct (render_statement_head st Hne) as (c0 & t & Hrd & Hc0).
  eapply parse_fails_in_text; eauto.
  - rewrite Hrd. cbn. intros Hx. apply Hc0.
    by do 2 apply list_elem_of_further.
  - intros _. rewrite Hrd. split; [done |]. cbn. intros Hx. apply Hc0.
    apply list_elem_of_singleton in Hx as ->. compute_done.
  - intros p1 Hv1.
    destruct (parse_statement_upto_eol _ _ _ _ Hv1 Hst Hne) as (q & Hq & ->).
    { apply starts_outside_after_spaces; [done |]. cbn. intros Hx.
      apply Hc. by do 5 apply list_elem_of_further. }
    rewrite (parseEOL_view _ _ _ Hq). cbn zeta.
    rewrite run_exact; [| done |].
    + rewrite drop_app_length. rewrite bool_decide_false; [done |].
      intros Hx. apply Hc. in_list Hx.
    + intros Hx. apply Hc. in_list Hx.
Qed.

Lemma instruction_without_terminator_rejected_witness :
  make 1 2 "HALT HALT" = Fail (Error msg_terminator).
Proof.
  unfold make.
  apply (instruction_without_terminator_rejected
           (list_ascii_of_string "HALT HALT") 1 2 0
           (replicate 2 halt_instr) 0 None Halt [space] "H"%char
           (list_ascii_of_string "ALT")).
  - apply reaches_first. vm_compute. reflexivity.
  - lia.
  - apply view_start.
  - exact I.
  - exact I.
  - done.
  - repeat constructor; compute_done.
  - compute_done.
Defined.

(** Property X18.  A label with the number of its slot that no colon
    follows, after spaces, is rejected with the error that a colon is
    expected, at the end of the input too. *)
Theorem label_without_colon_rejected input m n i instr p ds a tl :
  reaches input n i instr p -> i < Z.of_nat n ->
  view input p ("L"%char :: ds ++ a ++ tl) ->
  is_number ds -> value ds = i -> is_spaces a ->
  starts_outside (":"%char :: tab :: space :: digits) tl ->
  parse input m n = Fail (Error msg_colon).
Proof.
  intros Hr Hi Hv Hnum Hval Ha Hout.
  eapply parse_fails_in_slot; eauto.
  { by destruct (view_cons _ _ _ _ Hv) as (-> & _ & _). }
  unfold parse_body. rewrite (parse_prefix_L _ _ _ _ Hv).
  destruct (parseLineNumber_exact _ _ _ _ Hv Hnum) as (p1 & -> & Hv1).
  { apply starts_outside_after_spaces; [done |].
    eapply starts_outside_subseteq; [| exact Hout].
    sublist. }
  cbn [bind]. rewrite Hval, Z.eqb_refl. cbn [negb].
  destruct (skipSpaces_exact _ _ _ _ Hv1 Ha) as (p2 & -> & Hv2).
  { eapply starts_outside_subseteq; [| exact Hout].
    sublist. }
  cbn [bind]. destruct tl as [| x t].
  - by rewrite (view_nil _ _ Hv2).
  - destruct (view_cons _ _ _ _ Hv2) as (-> & _ & _).
    rewrite (matchChar_cons _ _ _ _ _ Hv2).
    apply starts_outside_head in Hout.
    rewrite bool_decide_false; [done |].
    intros Hx. apply list_elem_of_singleton in Hx as ->. apply Hout.
    compute_done.
Qed.

Lemma label_without_colon_rejected_witness :
  make 1 1 "L0 R0+ -> L0" = Fail (Error msg_colon).
Proof.
  unfold make.
  apply (label_without_colon_rejected
           (list_ascii_of_string "L0 R0+ -> L0") 1 1 0 [halt_instr] 0
           ["0"%char] [space] (list_ascii_of_string "R0+ -> L0")).
  - apply reaches_first. vm_compute. reflexivity.
  - lia.
  - apply view_start.
  - split; [done | repeat constructor; compute_done].
  - reflexivity.
  - repeat constructor; compute_done.
  - compute_done.
Defined.

(** Property X19.  A statement that starts with a character other than
    [R] or a terminator, that is not [HALT], and that has two more
    characters at least, is rejected with the error of unexpected
    characters. *)
Theorem unknown_statement_rejected input m n i instr p lb c t :
  reaches input n i instr p -> i < Z.of_nat n ->
  view input p (render_label lb ++ c :: t) -> labelled i lb ->
  (lb = None -> c ≠ "L"%char) ->
  c ∉ ["R"%char; ";"%char; newline; nul; tab; space] ->
  ~ ["H"; "A"; "L"; "T"]%char `prefix_of` c :: t -> (2 <= length t)%nat ->
  parse input m n = Fail (Error msg_unexpected).
Proof.
  intros Hr Hi Hv Hlb HL Hc Hpre Hlen.
  eapply parse_fails_in_text; eauto.
  - cbn. intros Hx. apply Hc. by do 4 apply list_elem_of_further.
  - intros E. split; [done |]. cbn. intros Hx.
    apply list_elem_of_singleton in Hx. by apply HL.
  - intros p1 Hv1. unfold parse_statement.
    destruct (view_cons _ _ _ _ Hv1) as (-> & _ & _).
    rewrite (matchChar_cons _ _ _ _ _ Hv1).
    rewrite bool_decide_false.
    2:{ intros Hx. apply list_elem_of_singleton in Hx as ->. apply Hc.
        compute_done. }
    cbn [bind]. rewrite (matchStr_view _ _ _ _ Hv1).
    rewrite (bool_decide_true (_ <= _)%nat) by (cbn [length]; lia).
    rewrite bool_decide_false by done. cbn [bind].
    rewrite (matchChar_cons _ _ _ _ _ Hv1).
    rewrite bool_decide_false; [done |].
    intros Hx. apply Hc. in_list Hx.
Qed.

Lemma unknown_statement_rejected_witness :
  make 1 1 "L0: JUMP" = Fail (Error msg_unexpected).
Proof.
  unfold make.
  apply (unknown_statement_rejected
           (list_ascii_of_string "L0: JUMP") 1 1 0 [halt_instr] 0
           (Some (["0"%char], [], [space])) "J"%char
           (list_ascii_of_string "UMP")).
  - apply reaches_first. vm_compute. reflexivity.
  - lia.
  - apply view_start.
  - repeat split; try done; repeat constructor; compute_done.
  - done.
  - compute_done.
  - intros [k Hk]. discriminate Hk.
  - cbn. lia.
Defined.

(** ** The capacity scan and [generate] *)

Lemma scan_unmarked pre s :
  Forall (fun c => c ≠ "L"%char /\ c ≠ "R"%char) pre ->
  readInt s = SKIP -> result s = 0 ->
  fold_left scan_char pre s = s.
Proof.
  intros Hpre Hs Hr. induction Hpre as [| c pre [HL HR] _ IH]; [done |].
  cbn [fold_left]. assert (scan_char s c = s) as ->; [| done].
  unfold scan_char. rewrite decide_False by done.
  rewrite decide_False by done.
  destruct (bool_decide (c ∈ digits)).
  - by rewrite decide_True.
  - by rewrite decide_True.
Qed.

(** Property X20.  The scan counts a number only after a marker: the
    characters before the first [L] or [R] of a text, digits included, do
    not change what [getMaxArgs] returns. *)
Theorem getMaxArgs_skips_unmarked_prefix pre text :
  Forall (fun c => c ≠ "L"%char /\ c ≠ "R"%char) pre ->
  getMaxArgs (pre ++ text) = getMaxArgs text.
Proof.
  intros Hpre. unfold getMaxArgs.
  rewrite fold_left_app. by rewrite (scan_unmarked pre) by done.
Qed.

Lemma getMaxArgs_skips_unmarked_prefix_witness :
  getMaxArgs (list_ascii_of_string "99 R3+ -> L1") = (4, 2).
Proof.
  change (list_ascii_of_string "99 R3+ -> L1")
    with (list_ascii_of_string "99 " ++ list_ascii_of_string "R3+ -> L1").
  rewrite (getMaxArgs_skips_unmarked_prefix (list_ascii_of_string "99 ")
             (list_ascii_of_string "R3+ -> L1")).
  - reflexivity.
  - repeat (apply Forall_cons_2; [split; discriminate |]). apply Forall_nil_2.
Defined.

Lemma c_str_nul_free chars : nul ∉ chars -> c_str (chars ++ [nul]) = chars.
Proof.
  induction chars as [| c t IH]; intros H; cbn.
  - done.
  - rewrite decide_False.
    + f_equal. apply IH. intros Hx. apply H. by apply list_elem_of_further.
    + intros ->. apply H. by left.
Qed.

Lemma value_nonneg ds : 0 <= value ds.
Proof. by apply accumulate_nonneg. Qed.

Lemma fits_in_range st regs lines :
  0 <= regs -> 0 <= lines ->
  fits (denote st) (regs, lines) -> in_range regs lines (denote st).
Proof.
  intros Hr Hl. unfold fits, in_range.
  destruct st as [r s1 s2 s3 l | r s1 s2 s3 l1 s4 s5 l2 | |]; cbn; try done.
  - pose proof (value_nonneg r). pose proof (value_nonneg l). lia.
  - pose proof (value_nonneg r). pose proof (value_nonneg l1).
    pose proof (value_nonneg l2). lia.
Qed.

(** The capacities of the scan hold every instruction of the lines of a
    program text. *)
Lemma lines_in_range lines tail (k : nat) ln :
  program_text lines tail -> lines !! k = Some ln ->
  let text := render lines ++ tail in
  in_range (1 + max_reference "R" text) (1 + max_reference "L" text)
    (denote (body ln)).
Proof.
  intros [Hlines Htail] Hk text.
  destruct (Hlines k ln Hk) as [Ha Hn].
  pose proof Ha as (_ & Hlb & Hst & Htr & Hterm & _).
  assert (text = (render (take k lines) ++ lead ln ++ render_label (label ln))
                 ++ render_statement (body ln) ++ trail ln
                 ++ render_end (terminator ln)
                 ++ render (drop (S k) lines) ++ tail) as Ht.
  { unfold text. rewrite (render_lookup _ _ _ Hk). unfold render_line.
    by rewrite <- !app_assoc. }
  pose proof (max_reference_nonneg "R" text).
  pose proof (max_reference_nonneg "L" text).
  apply fits_in_range; [lia | lia |].
  rewrite Ht. apply statement_fits; [done | done |].
  destruct (terminator ln); [done | by apply Hn].
Qed.

(** [generate] on a program text. *)
Lemma generate_text lines tail :
  program_text lines tail ->
  Forall (fun ln => body ln <> Empty) lines ->
  let text := render lines ++ tail in
  nul ∉ text ->
  max_reference "R" text < size_max -> max_reference "L" text < size_max ->
  let m := Z.to_nat (1 + max_reference "R" text) in
  let n := Z.to_nat (1 + max_reference "L" text) in
  let prog :=
    Program m (map (fun ln => denote (body ln)) (take n lines)
                 ++ replicate (n - length lines) halt_instr) in
  generate text = Ok prog /\ closed prog /\
  (0 < maxRegisters prog)%nat /\ instructions prog ≠ [].
Proof.
  intros Htext Hne text Hnul HR HL m n prog.
  pose proof (max_reference_nonneg "R" text) as HR0.
  pose proof (max_reference_nonneg "L" text) as HL0.
  assert (length (instructions prog) = n) as Hlen.
  { cbn. rewrite length_app, length_map, length_take, length_replicate. lia. }
  split; [| split; [| split]].
  - unfold generate. rewrite c_str_nul_free by done.
    rewrite getMaxArgs_is_max_reference; [| | done | done].
    + unfold prog. cbn [fst snd].
      destruct (decide (n < length lines)%nat) as [Hn | Hn].
      * replace (n - length lines)%nat with 0%nat by lia.
        cbn [replicate]. rewrite app_nil_r. by apply parse_text_cut.
      * rewrite take_ge by lia. apply parse_text_whole; [done | done | lia].
    + destruct Htext as [Hlines Htail]. apply marked_lines; [| done].
      intros k ln Hk. destruct (Hlines k ln Hk) as [Ha Hn]. eauto.
  - unfold closed, instrCount. rewrite Hlen.
    replace (Z.of_nat (maxRegisters prog)) with (1 + max_reference "R" text)
      by (cbn; lia).
    replace (Z.of_nat n) with (1 + max_reference "L" text) by lia.
    cbn [instructions prog]. apply Forall_app. split.
    + apply Forall_forall. intros ins Hin.
      apply list_elem_of_fmap in Hin as (ln & -> & Hin).
      apply list_elem_of_lookup in Hin as [k Hk].
      apply lookup_take_Some in Hk as [Hk _].
      by apply (lines_in_range lines tail k ln).
    + apply Forall_forall. intros ins Hin.
      apply elem_of_replicate in Hin as [-> _]. exact I.
  - cbn. lia.
  - intros E. rewrite E in Hlen. cbn in Hlen. lia.
Qed.

(** Property X21.  When [generate] yields a program for a program text
    whose lines hold instructions (without NUL, every number written after
    an [R] or an [L] below [2^64 - 1]), the program has the capacities of
    the scan, 1 + the greatest register and 1 + the greatest line number
    written; the first lines of the text fill its slots and Halt the
    others; and every instruction names registers and lines that the
    program has, so [exec] reads nothing outside the arrays: whenever it
    returns, it returns the value of register 0. *)
Theorem generate_program_runs_in_range lines tail prog :
  program_text lines tail ->
  Forall (fun ln => body ln <> Empty) lines ->
  let text := render lines ++ tail in
  nul ∉ text ->
  max_written "R" text < size_max -> max_written "L" text < size_max ->
  generate text = Ok prog ->
  let n := Z.to_nat (1 + max_written "L" text) in
  maxRegisters prog = Z.to_nat (1 + max_written "R" text) /\
  instructions prog
  = map (fun ln => denote (body ln)) (take n lines)
      ++ replicate (n - length lines) halt_instr /\
  closed prog /\
  forall w args fuel r,
    (length args <= maxRegisters prog)%nat ->
    exec w fuel prog args = Some r ->
    exists v, r = Ok v.
Proof.
  intros Htext Hne text Hnul HR HL Hprog n. subst text n.
  set (text := render lines ++ tail) in *.
  assert (max_reference "R" text = max_written "R" text) as ER
    by (apply max_reference_written; unfold size_max, size_bits in HR; lia).
  assert (max_reference "L" text = max_written "L" text) as EL
    by (apply max_reference_written; unfold size_max, size_bits in HL; lia).
  destruct (generate_text lines tail Htext Hne Hnul) as (Hg & Hc & Hm & Hi);
    [fold text; by rewrite ER | fold text; by rewrite EL |].
  fold text in Hg, Hc, Hm, Hi. rewrite Hprog in Hg. injection Hg as ->.
  rewrite ER, EL in *.
  split; [done |]. split; [done |]. split; [exact Hc |].
  intros w args fuel r Ha H.
  unfold exec in H. rewrite decide_True in H by exact Ha.
  destruct (exec_loop_inside w _ fuel _ r Hc Hm
              (init_inside w _ args Hi Ha) H)
    as (c' & v & _ & _ & _ & ->).
  eauto.
Qed.

Lemma literal_lines_nul_free : nul ∉ render literal_lines ++ [].
Proof. compute_done. Qed.

(** The program of the second example. *)
Lemma generate_program_runs_in_range_witness :
  ctrm_literal literal_text = Ok addition /\
  closed addition /\
  exec 64 100 addition [0; 3; 5] = Some (Ok 8).
Proof.
  assert (ctrm_literal literal_text = Ok addition) as Hg
    by (vm_compute; reflexivity).
  destruct (generate_program_runs_in_range literal_lines [] addition
              literal_lines_text literal_lines_not_empty
              literal_lines_nul_free)
    as (_ & _ & Hc & _).
  - vm_compute. reflexivity.
  - vm_compute. reflexivity.
  - exact Hg.
  - split; [exact Hg |]. split; [exact Hc | vm_compute; reflexivity].
Defined.

(** ** One text at several capacities *)

Section Capacity.
Variable input : list ascii.
Implicit Types (p : Z) (instr : list instruction).

Lemma parse_body_length i instr p instr' p' :
  parse_body input i instr p = Ok (instr', p') -> length instr' = length instr.
Proof.
  intros H. apply parse_body_Ok in H as (p1 & ins & p2 & _ & _ & -> & _).
  apply set_at_length.
Qed.

Lemma parse_body_take (n : nat) i instr p instr' p' :
  parse_body input i instr p = Ok (instr', p') ->
  0 <= i < Z.of_nat n ->
  parse_body input i (take n instr) p = Ok (take n instr', p').
Proof.
  intros H Hi. apply parse_body_Ok in H as (p1 & ins & p2 & H1 & H2 & -> & H3).
  apply parse_body_Ok. exists p1, ins, p2. repeat split; try done.
  unfold set_at. apply take_insert_lt. lia.
Qed.

Lemma parse_body_app i instr p instr' p' extra :
  parse_body input i instr p = Ok (instr', p') ->
  0 <= i < Z.of_nat (length instr) ->
  parse_body input i (instr ++ extra) p = Ok (instr' ++ extra, p').
Proof.
  intros H Hi. apply parse_body_Ok in H as (p1 & ins & p2 & H1 & H2 & -> & H3).
  apply parse_body_Ok. exists p1, ins, p2. repeat split; try done.
  unfold set_at. symmetry. apply insert_app_l. lia.
Qed.

(** The loop leaves the slots below [i] as they are. *)
Lemma parse_loop_below todo : forall i instr p i' instr' p',
  parse_loop input todo i instr p = Ok ((i', instr'), p') -> 0 <= i ->
  take (Z.to_nat i) instr' = take (Z.to_nat i) instr.
Proof.
  induction todo as [| todo IH]; intros i instr p i' instr' p' H Hi;
    cbn [parse_loop] in H.
  - by injection H as _ <- _.
  - destruct (eof input p); [by injection H as _ <- _ |].
    apply bind_Ok in H as ([o1 p1] & Hb & H).
    apply IH in H; [| lia].
    apply parse_body_Ok in Hb as (q1 & ins & q2 & _ & _ & -> & _).
    apply (f_equal (take (Z.to_nat i))) in H.
    rewrite !take_take in H.
    replace (Z.to_nat i `min` Z.to_nat (i + 1))%nat with (Z.to_nat i) in H
      by lia.
    rewrite H. unfold set_at. by apply take_insert_ge.
Qed.

Lemma parse_loop_take (n : nat) todo : forall todo' i instr p i' instr' p',
  parse_loop input todo' i instr p = Ok ((i', instr'), p') ->
  0 <= i -> (todo <= todo')%nat -> n = (Z.to_nat i + todo)%nat ->
  exists i'' p'',
    parse_loop input todo i (take n instr) p = Ok ((i'', take n instr'), p'').
Proof.
  induction todo as [| todo IH];
    intros todo' i instr p i' instr' p' H Hi Hle Hn.
  - cbn [parse_loop]. apply parse_loop_below in H; [| done].
    replace n with (Z.to_nat i) by lia. rewrite H. eauto.
  - destruct todo' as [| todo']; [lia |]. cbn [parse_loop] in *.
    destruct (eof input p).
    + injection H as _ <- _. eauto.
    + apply bind_Ok in H as ([o1 p1] & Hb & H).
      rewrite (parse_body_take n _ _ _ _ _ Hb) by lia. cbn [bind].
      eapply IH; [exact H | lia | lia | lia].
Qed.

Lemma parse_loop_app todo : forall i instr p i' instr' p' extra (k : nat),
  parse_loop input todo i instr p = Ok ((i', instr'), p') ->
  0 <= i -> i' < i + Z.of_nat todo ->
  (Z.to_nat i + todo <= length instr)%nat ->
  parse_loop input (todo + k) i (instr ++ extra) p
  = Ok ((i', instr' ++ extra), p').
Proof.
  induction todo as [| todo IH];
    intros i instr p i' instr' p' extra k H Hi Hlt Hlen;
    cbn [parse_loop] in H.
  - injection H as <- _ _. lia.
  - cbn [Nat.add parse_loop]. destruct (eof input p).
    + by injection H as <- <- <-.
    + apply bind_Ok in H as ([o1 p1] & Hb & H).
      rewrite (parse_body_app _ _ _ _ _ extra Hb) by lia. cbn [bind].
      apply IH; [exact H | lia | lia |].
      rewrite (parse_body_length _ _ _ _ _ Hb). lia.
Qed.

End Capacity.

(** Property X22.  A text that [parse] takes at one capacity is taken at
    every smaller capacity, with the first instructions of the same
    table. *)
Theorem parse_at_smaller_capacity input m (n n' : nat) prog' :
  parse input m n' = Ok prog' -> (n <= n')%nat ->
  parse input m n = Ok (Program m (take n (instructions prog'))).
Proof.
  intros H Hn. unfold parse, parse_slots in *.
  rewrite (skipLinesAndSpaces_run input 0 input) in * by apply view_start.
  cbn [bind] in *.
  apply bind_Ok in H as ([i' instr'] & H & Hprog).
  injection Hprog as <-. cbn [instructions].
  apply bind_Ok in H as ([[i1 instr1] p1] & H & Hr). injection Hr as -> ->.
  destruct (parse_loop_take input n n n' 0 _ _ _ _ _ H) as (i'' & p'' & H');
    [lia | lia | lia |].
  rewrite take_replicate in H'.
  replace (n `min` n')%nat with n in H' by lia.
  rewrite H'. done.
Qed.

Lemma parse_at_smaller_capacity_witness :
  make 3 2 addition_text = Ok (Program 3 [decrement 1 1 2; increment 0 0]).
Proof.
  apply (parse_at_smaller_capacity (list_ascii_of_string addition_text)
           3 2 5 addition).
  - vm_compute. reflexivity.
  - lia.
Defined.

(** Property X23.  When [parse] comes to the end of the text before the
    table is full, a larger capacity gives the same table followed by
    Halt. *)
Theorem parse_at_larger_capacity input m (n n' : nat) filled instr :
  parse_slots input n = Ok (filled, instr) -> filled < Z.of_nat n ->
  (n <= n')%nat ->
  parse input m n'
  = Ok (Program m (instr ++ replicate (n' - n) halt_instr)).
Proof.
  intros H Hf Hn. unfold parse, parse_slots in *.
  rewrite (skipLinesAndSpaces_run input 0 input) in * by apply view_start.
  cbn [bind] in *.
  apply bind_Ok in H as ([[i1 instr1] p1] & H & Hr). injection Hr as -> ->.
  replace n' with (n + (n' - n))%nat at 1 2 by lia.
  rewrite replicate_add.
  rewrite (parse_loop_app input n 0 _ _ _ _ _ _ (n' - n) H);
    [done | lia | lia |].
  rewrite length_replicate. lia.
Qed.

Lemma parse_at_larger_capacity_witness :
  make 3 7 addition_text
  = Ok (Program 3 (instructions addition ++ [halt_instr; halt_instr])).
Proof.
  apply (parse_at_larger_capacity (list_ascii_of_string addition_text)
           3 6 7 5 (instructions addition ++ [halt_instr])).
  - vm_compute. reflexivity.
  - lia.
  - lia.
Defined.

(** ** More on [exec] *)

(** Property X24.  An Increment that jumps to its own line never lets the
    run end: [exec] does not return, whatever the number of passes. *)
Theorem self_loop_never_returns w fuel : forall c ins v,
  halt c = false ->
  at_ (instructions (self c)) (loc c) = Ok ins -> type ins = INCR ->
  location1 ins = loc c ->
  at_ (values c) (currentRegister ins) = Ok v ->
  exec_loop w fuel c = None.
Proof.
  induction fuel as [| fuel IH]; intros c ins v Hh Hins Ht Hl Hv;
    cbn [exec_loop]; rewrite Hh; [done |].
  rewrite (exec_body_INCR _ _ _ _ Hins Ht Hv).
  assert (overrun (self c) (location1 ins) (halt c) = false) as ->.
  { rewrite Hh. unfold overrun. apply at_Ok in Hins as [_ Hins].
    apply lookup_lt_Some in Hins.
    destruct (instrCount (self c) <? location1 ins) eqn:E; [| done].
    apply Z.ltb_lt in E. unfold instrCount in E. lia. }
  eapply (IH _ ins); cbn; try done.
  - by rewrite Hl.
  - eapply at_set_at; eauto.
Qed.

Lemma self_loop_never_returns_witness :
  exec 8 1000 (Program 1 [increment 0 0]) [0] = None.
Proof.
  apply (self_loop_never_returns 8 1000
           (Config (Program 1 [increment 0 0]) [0] false 0)
           (increment 0 0) 0); reflexivity.
Defined.

(** Property X25.  An Increment or a Decrement on a register that the
    program does not have reads outside the register array: neither [parse]
    nor [exec] compares the register with [maxRegisters]. *)
Theorem register_beyond_capacity_read w fuel c ins :
  halt c = false ->
  at_ (instructions (self c)) (loc c) = Ok ins -> type ins <> HALT ->
  Z.of_nat (length (values c)) <= currentRegister ins ->
  exec_loop w (S fuel) c = Some (Fail OutOfRange).
Proof.
  intros Hh Hins Ht Hr. cbn [exec_loop]. rewrite Hh.
  unfold exec_body. rewrite Hins. cbn [bind].
  assert (at_ (values c) (currentRegister ins) = Fail OutOfRange) as Hv.
  { unfold at_. by rewrite decide_False by lia. }
  destruct (type ins); [done | |]; by rewrite Hv.
Qed.

Lemma register_beyond_capacity_read_witness :
  make 1 1 "R7+ -> L0" = Ok (Program 1 [increment 7 0]) /\
  exec 8 1 (Program 1 [increment 7 0]) [0] = Some (Fail OutOfRange).
Proof.
  split; [vm_compute; reflexivity |].
  apply (register_beyond_capacity_read 8 0
           (Config (Program 1 [increment 7 0]) [0] false 0) (increment 7 0)).
  - reflexivity.
  - reflexivity.
  - discriminate.
  - cbn. lia.
Defined.

(** ** [generate] and NUL *)

Lemma c_str_cut a b : nul ∉ a -> c_str (a ++ nul :: b) = a.
Proof.
  induction a as [| c t IH]; intros H; cbn.
  - by rewrite decide_True.
  - rewrite decide_False.
    + f_equal. apply IH. intros Hx. apply H. by apply list_elem_of_further.
    + intros ->. apply H. by left.
Qed.

(** Property X26.  [generate] hands the text to [make] as a C string, so
    [parse] reads it up to its first NUL only, while the capacities come
    from the scan of the whole text. *)
Theorem generate_stops_at_nul a b :
  nul ∉ a ->
  generate (a ++ nul :: b)
  = parse a (Z.to_nat (getMaxArgs (a ++ nul :: b)).1)
            (Z.to_nat (getMaxArgs (a ++ nul :: b)).2).
Proof.
  intros Ha. unfold generate. cbn zeta.
  rewrite <- app_assoc. cbn [app]. by rewrite c_str_cut.
Qed.

Lemma generate_stops_at_nul_witness :
  generate (list_ascii_of_string "HALT" ++ nul :: list_ascii_of_string "L2")
  = Ok (Program 1 [halt_instr; halt_instr; halt_instr]).
Proof.
  rewrite (generate_stops_at_nul (list_ascii_of_string "HALT")
             (list_ascii_of_string "L2")).
  - vm_compute. reflexivity.
  - compute_done.
Defined.
